(** * Campus navigation: edge weights and shortest paths

    A shallow embedding of [src/js/dijkstra.js] and the properties of its two
    functions, [initEdgeWeights] and [dijkstra].

    Modelling conventions.
    - A JavaScript number is a [jsnum]: a finite number, [Infinity],
      [-Infinity] or [NaN]. A finite number is a rational ([Qc]); [+] and [*]
      round their exact result to the nearest double ([round64]) and overflow
      to an infinity. The two zeros are one number: the source compares, adds
      and prints numbers, none of which tells [-0] from [0].
    - Node ids are integers (the source documents them as [Number]); object
      keys [dist[id]] and [prev[id]] are therefore in bijection with the ids,
      and the two objects are finite maps over [Z].
    - A [Set] iterates in insertion order: it is a duplicate-free list.
    - [while] loops take fuel; a run that exhausts its fuel is [None].
    - Objects live in a store where [initEdgeWeights] is concerned with the
      identity of objects; elsewhere a graph is the value that
      [JSON.stringify] would print. *)

From Stdlib Require Import QArith Qcanon Qround Qpower Lqa.
From stdpp Require Import gmap strings list.

Local Open Scope Z_scope.
#[local] Set Warnings "-clear-no-such-hyp".

(** ** JavaScript numbers *)

Inductive jsnum : Type :=
  | Num (q : Qc)
  | Infinity
  | NegInfinity
  | NaN.

(** *** Rounding to a double

    A double has 53 binary places, the last of them no lower than [2^-1074],
    and is less than [2^1024] in size. *)

(** The integer nearest to [x]; of two that are equally near, the even one. *)
Definition roundHalfEven (x : Q) : Z :=
  let f := Qfloor x in
  match (x - inject_Z f ?= 1 # 2)%Q with
  | Lt => f
  | Gt => f + 1
  | Eq => if Z.even f then f else f + 1
  end.

(** The exponent [e] with [2^e ≤ x < 2^(e+1)], for a positive [x]. *)
Definition floorLog2 (x : Q) : Z :=
  let e := Z.log2 (Qnum x) - Z.log2 (Zpos (Qden x)) in
  if Qle_bool (2 ^ e) x then e else e - 1.

(** The exponent of the last binary place of the doubles of the size of [x]:
    52 places below the leading one, and never below [2^-1074]. *)
Definition lastPlace (x : Q) : Z := Z.max (-1074) (floorLog2 x - 52).

(** [x ≥ 0] rounded to a whole number of last places. *)
Definition nearest (x : Q) : Q :=
  (inject_Z (roundHalfEven (x / 2 ^ lastPlace x)) * 2 ^ lastPlace x)%Q.

(** The double nearest to [x], ties to even; [±Infinity] when that would be
    [2^1024] or more in size. *)
Definition round64 (x : Q) : jsnum :=
  if Qle_bool 0 x then
    let y := nearest x in
    if Qle_bool (2 ^ 1024) y then Infinity else Num (Q2Qc y)
  else
    let y := nearest (- x) in
    if Qle_bool (2 ^ 1024) y then NegInfinity else Num (Q2Qc (- y)).

Arguments round64 : simpl never.

(** The finite numbers that are doubles. *)
Definition isDouble (x : Qc) : Prop := round64 x = Num x.

(** A number that a double can hold: every [jsnum] but a rational that is
    not a double. *)
Definition representable (a : jsnum) : Prop :=
  match a with Num x => isDouble x | _ => True end.

(** The number that a decimal literal of a finite value denotes. *)
Definition double (x : Q) : Qc :=
  match round64 x with Num y => y | _ => Q2Qc 0 end.

Arguments double : simpl never.

(** *** Arithmetic and comparison *)

Definition Qcltb (x y : Qc) : bool :=
  match (x ?= y)%Qc with Lt => true | _ => false end.

(** [a + b]. *)
Definition jsadd (a b : jsnum) : jsnum :=
  match a, b with
  | NaN, _ | _, NaN => NaN
  | Num x, Num y => round64 (x + y)%Qc
  | Infinity, NegInfinity | NegInfinity, Infinity => NaN
  | Infinity, _ | _, Infinity => Infinity
  | NegInfinity, _ | _, NegInfinity => NegInfinity
  end.

(** [a * b] for an infinite [a] and a finite [y]. *)
Definition jsscale (a : jsnum) (y : Qc) : jsnum :=
  match (y ?= Q2Qc 0)%Qc, a with
  | Eq, _ => NaN
  | Gt, _ => a
  | Lt, Infinity => NegInfinity
  | Lt, _ => Infinity
  end.

(** [a * b]. *)
Definition jsmul (a b : jsnum) : jsnum :=
  match a, b with
  | NaN, _ | _, NaN => NaN
  | Num x, Num y => round64 (x * y)%Qc
  | Num x, _ => jsscale b x
  | _, Num y => jsscale a y
  | Infinity, Infinity | NegInfinity, NegInfinity => Infinity
  | _, _ => NegInfinity
  end.

(** [a < b]. Any comparison with [NaN] is false. *)
Definition jslt (a b : jsnum) : bool :=
  match a, b with
  | NaN, _ | _, NaN => false
  | Num x, Num y => Qcltb x y
  | _, NegInfinity | Infinity, _ => false
  | _, _ => true
  end.

(** [a === Infinity]. *)
Definition isInfinity (a : jsnum) : bool :=
  match a with Infinity => true | _ => false end.

(** A number that is not [NaN]. *)
Definition isNumber (a : jsnum) : Prop := a ≠ NaN.

(** [a ≤ b] on numbers. *)
Definition jsle (a b : jsnum) : Prop :=
  match a, b with
  | NaN, _ | _, NaN => False
  | Num x, Num y => (x ≤ y)%Qc
  | NegInfinity, _ | _, Infinity => True
  | _, _ => False
  end.

(** ** Other values *)

(** The values the variable [current] and the elements of [path] range over. *)
Inductive jsval : Type :=
  | VNull
  | VUndef
  | VId (z : Z).

(** [v === z] for an integer [z]. *)
Definition jsval_is (v : jsval) (z : Z) : bool :=
  match v with VId y => bool_decide (y = z) | _ => false end.

(** What the property [weight] of an edge holds: nothing (reading it gives
    [undefined]), [null], which is what [JSON] makes of a number that is not
    finite, or a number. *)
Inductive jsfield : Type :=
  | Undefined
  | Null
  | Number (n : jsnum).

(** The number that [+] makes of a field. *)
Definition toNumber (v : jsfield) : jsnum :=
  match v with
  | Undefined => NaN
  | Null => Num (Q2Qc 0)
  | Number n => n
  end.

(** ** Data model *)

Module Node.
Record t : Type := mk { id : Z; name : string }.
End Node.

(** [flow = None] is an edge without a [flow] property. Distances and flow
    coefficients are finite numbers. *)
Module Edge.
Record t : Type := mk {
  from : Z;
  to : Z;
  distance : Qc;
  flow : option (gmap string Qc);
  weight : jsfield
}.
End Edge.

Module Graph.
Record t : Type := mk { nodes : list Node.t; edges : list Edge.t }.
End Graph.

Definition ids (g : Graph.t) : list Z := Node.id <$> Graph.nodes g.

(** ** Exceptions *)

Inductive exn : Type := TypeError.

Inductive result (A : Type) : Type :=
  | Ok (a : A)
  | Throw (e : exn).
Arguments Ok {A} a.
Arguments Throw {A} e.

Definition rbind {A B} (r : result A) (k : A → result B) : result B :=
  match r with Ok a => k a | Throw e => Throw e end.

Fixpoint forEachM {A B} (f : A → result B) (l : list A) : result (list B) :=
  match l with
  | [] => Ok []
  | x :: l' => rbind (f x) (λ y, rbind (forEachM f l') (λ ys, Ok (y :: ys)))
  end.

(** ** [initEdgeWeights] *)

(** The literal [0.2]. *)
Definition defaultFlowRate : Qc := double (2 # 10).

Arguments defaultFlowRate : simpl never.

(** What [JSON.stringify] prints for the property [weight]: [null] for a
    number that is not finite. *)
Definition jsonNumber (v : jsfield) : jsfield :=
  match v with
  | Number (Num x) => Number (Num x)
  | Number _ => Null
  | _ => v
  end.

Definition jsonEdge (e : Edge.t) : Edge.t :=
  Edge.mk (Edge.from e) (Edge.to e) (Edge.distance e) (Edge.flow e)
    (jsonNumber (Edge.weight e)).

(** [JSON.parse(JSON.stringify(graph))] on the values of the data model:
    integers, finite numbers, strings and maps of them are rebuilt as they
    are. *)
Definition jsonCopy (graph : Graph.t) : Graph.t :=
  Graph.mk (Graph.nodes graph) (jsonEdge <$> Graph.edges graph).

(** The names that every object built by [JSON.parse] answers to without
    having them as keys: the members of [Object.prototype]. Each of them is a
    function or an object. *)
Definition objectPrototypeKeys : list string :=
  ["constructor"; "__defineGetter__"; "__defineSetter__"; "hasOwnProperty";
   "__lookupGetter__"; "__lookupSetter__"; "isPrototypeOf";
   "propertyIsEnumerable"; "toString"; "valueOf"; "__proto__";
   "toLocaleString"].

(** What [flow[timePeriod] || 0.2] evaluates to. *)
Inductive flowValue : Type :=
  | Rate (c : Qc)
  | Inherited.

(** [flow[timePeriod] || 0.2] for a flow mapping that is there. A key of the
    mapping gives its coefficient, and the number [0] is falsy; a period that
    is no key gives the member of [Object.prototype] of that name, which is
    truthy, or [undefined], which is falsy. *)
Definition usedFlowRate (f : gmap string Qc) (timePeriod : string)
  : flowValue :=
  match f !! timePeriod with
  | Some c => if decide (c = Q2Qc 0) then Rate defaultFlowRate else Rate c
  | None =>
      if decide (timePeriod ∈ objectPrototypeKeys) then Inherited
      else Rate defaultFlowRate
  end.

(** [edge.flow[timePeriod] || 0.2]: reading a property of an absent [flow]
    throws. *)
Definition flowRate (e : Edge.t) (timePeriod : string) : result flowValue :=
  match Edge.flow e with
  | None => Throw TypeError
  | Some f => Ok (usedFlowRate f timePeriod)
  end.

(** [distance * (1 + flowRate)]. With a function or an object for [flowRate],
    [1 + flowRate] is the text ["1"] followed by the text of that member, and
    the product of a number and a text that is no numeral is [NaN]. *)
Definition weightOf (distance : Qc) (flowRate : flowValue) : jsnum :=
  match flowRate with
  | Rate c => jsmul (Num distance) (jsadd (Num (Q2Qc 1)) (Num c))
  | Inherited => NaN
  end.

Definition setWeight (timePeriod : string) (e : Edge.t) : result Edge.t :=
  rbind (flowRate e timePeriod) (λ r,
    Ok (Edge.mk (Edge.from e) (Edge.to e) (Edge.distance e) (Edge.flow e)
          (Number (weightOf (Edge.distance e) r)))).

Definition initEdgeWeights (graph : Graph.t) (timePeriod : string)
  : result Graph.t :=
  let updatedGraph := jsonCopy graph in
  rbind (forEachM (setWeight timePeriod) (Graph.edges updatedGraph)) (λ es,
    Ok (Graph.mk (Graph.nodes updatedGraph) es)).

(** ** [dijkstra] *)

(** [new Set(array)]: [add] appends an element that is not yet there. *)
Definition Set_add (s : list Z) (x : Z) : list Z :=
  if decide (x ∈ s) then s else s ++ [x].
Definition Set_new (l : list Z) : list Z := foldl Set_add [] l.
Definition Set_has (s : list Z) (x : Z) : bool := bool_decide (x ∈ s).
Definition Set_delete (s : list Z) (x : Z) : list Z :=
  filter (λ y, y ≠ x) s.

(** [new Map(pairs)]: a later pair overrides an earlier one with its key. *)
Definition Map_new (l : list Node.t) : gmap Z Node.t :=
  foldl (λ m n, <[Node.id n := n]> m) ∅ l.

Record State : Type := mkState {
  dist : gmap Z jsnum;
  prev : gmap Z (option Z);
  unvisited : list Z
}.

(** [dist[id]] where it is compared or added to: a missing key reads
    [undefined], which behaves as [NaN] under [<], [+] and [=== Infinity]. *)
Definition distOf (d : gmap Z jsnum) (k : Z) : jsnum := default NaN (d !! k).

(** [prev[current]]: [null] is stored as [None]; a key that is not there, and
    the key ["undefined"], read [undefined]. *)
Definition prevOf (p : gmap Z (option Z)) (current : jsval) : jsval :=
  match current with
  | VId k =>
      match p !! k with
      | Some (Some u) => VId u
      | Some None => VNull
      | None => VUndef
      end
  | _ => VUndef
  end.

(** The body of the [graph.nodes.forEach] that fills [dist] and [prev]. *)
Definition initNode (start : Z) (dp : gmap Z jsnum * gmap Z (option Z))
    (n : Node.t) : gmap Z jsnum * gmap Z (option Z) :=
  let '(d, p) := dp in
  (<[Node.id n := if decide (Node.id n = start)
                  then Num (Q2Qc 0) else Infinity]> d,
   <[Node.id n := None]> p).

Definition initTables (start : Z) (graph : Graph.t) : State :=
  let '(d, p) := foldl (initNode start) (∅, ∅) (Graph.nodes graph) in
  mkState d p (Set_new (ids graph)).

(** The step of [selectMin]'s [forEach]. *)
Definition minStep (d : gmap Z jsnum) (minNodeId : option Z) (k : Z)
  : option Z :=
  match minNodeId with
  | None => Some k
  | Some m => if jslt (distOf d k) (distOf d m) then Some k else Some m
  end.

(** The [unvisited.forEach] that looks for the smallest [dist]. *)
Definition selectMin (d : gmap Z jsnum) (unv : list Z) : option Z :=
  foldl (minStep d) None unv.

(** [edge.weight] where it is added to a number. *)
Definition edgeWeight (e : Edge.t) : jsnum := toNumber (Edge.weight e).

(** The body of [adjacentEdges.forEach]. *)
Definition relaxEdge (minNodeId : Z) (unv : list Z)
    (dp : gmap Z jsnum * gmap Z (option Z)) (e : Edge.t)
  : gmap Z jsnum * gmap Z (option Z) :=
  let neighborId := Edge.to e in
  if negb (Set_has unv neighborId) then dp
  else
    let newDist := jsadd (distOf dp.1 minNodeId) (edgeWeight e) in
    if jslt newDist (distOf dp.1 neighborId)
    then (<[neighborId := newDist]> dp.1, <[neighborId := Some minNodeId]> dp.2)
    else dp.

Definition relax (graph : Graph.t) (minNodeId : Z) (st : State) : State :=
  let adjacentEdges :=
    filter (λ e, Edge.from e = minNodeId) (Graph.edges graph) in
  let '(d, p) :=
    foldl (relaxEdge minNodeId (unvisited st)) (dist st, prev st)
      adjacentEdges in
  mkState d p (unvisited st).

(** The state after [unvisited.delete(minNodeId)]. *)
Definition visit (st : State) (minNodeId : Z) : State :=
  mkState (dist st) (prev st) (Set_delete (unvisited st) minNodeId).

(** The search loop; [Some st] is the state at which the loop is left. *)
Fixpoint search (fuel : nat) (end_ : Z) (graph : Graph.t) (st : State)
  : option State :=
  match fuel with
  | O => None
  | S fuel' =>
      match unvisited st with
      | [] => Some st
      | _ :: _ =>
          match selectMin (dist st) (unvisited st) with
          | None => Some st
          | Some minNodeId =>
              if isInfinity (distOf (dist st) minNodeId) then Some st
              else
                let st1 := visit st minNodeId in
                if decide (minNodeId = end_) then Some st1
                else search fuel' end_ graph (relax graph minNodeId st1)
          end
      end
  end.

(** The loop [while (current !== null)] that builds [path]. *)
Fixpoint backtrack (fuel : nat) (p : gmap Z (option Z)) (current : jsval)
    (path : list jsval) : option (list jsval) :=
  match fuel with
  | O => None
  | S fuel' =>
      match current with
      | VNull => Some path
      | _ => backtrack fuel' p (prevOf p current) (current :: path)
      end
  end.

Definition findEdge (graph : Graph.t) (a b : jsval) : option Edge.t :=
  List.find (λ e, jsval_is a (Edge.from e) && jsval_is b (Edge.to e))
    (Graph.edges graph).

(** The [for] loop that adds up [edge.distance] along [path]. *)
Fixpoint sumDistances (graph : Graph.t) (path : list jsval) (acc : jsnum)
  : jsnum :=
  match path with
  | a :: (b :: _) as rest =>
      sumDistances graph rest
        (match findEdge graph a b with
         | Some e => jsadd acc (Num (Edge.distance e))
         | None => acc
         end)
  | _ => acc
  end.

Record PathResult : Type := mkResult {
  path : list jsval;
  totalWeight : jsnum;
  totalDistance : jsnum;
  pathNodes : list (option Node.t)
}.

Definition noPath : PathResult := mkResult [] Infinity (Num (Q2Qc 0)) [].

Definition nodeOf (nodeMap : gmap Z Node.t) (v : jsval) : option Node.t :=
  match v with VId k => nodeMap !! k | _ => None end.

Definition headIs (l : list jsval) (z : Z) : bool :=
  match l with v :: _ => jsval_is v z | [] => false end.

(** What [dijkstra] returns when the search is left with tables [st] and the
    walk along [prev] gives [path]. *)
Definition resultOf (start end_ : Z) (graph : Graph.t) (st : State)
    (path : list jsval) : PathResult :=
  if negb (headIs path start) then noPath
  else mkResult path (distOf (dist st) end_)
         (sumDistances graph path (Num (Q2Qc 0)))
         (nodeOf (Map_new (Graph.nodes graph)) <$> path).

Definition dijkstra (fuel : nat) (start end_ : Z) (graph : Graph.t)
  : option PathResult :=
  st ← search fuel end_ graph (initTables start graph);
  path ← backtrack fuel (prev st) (VId end_) [];
  Some (resultOf start end_ graph st path).

(** ** The store: objects, references and mutation

    [initEdgeWeights] is the one place where objects are written to, so its
    effect on the caller's graph is stated on a store of objects. A graph is
    an object that refers to its two arrays, an array refers to its elements,
    and an edge refers to its flow mapping. *)

Definition loc : Type := positive.

Inductive obj : Type :=
  | OGraph (nodes edges : loc)
  | OArray (elems : list loc)
  | ONode (id : Z) (name : string)
  | OEdge (from to : Z) (distance : Qc) (flow : option loc)
      (weight : jsfield)
  | OFlow (coefficients : gmap string Qc).

(** The references an object holds. *)
Definition refs (o : obj) : list loc :=
  match o with
  | OGraph ns es => [ns; es]
  | OArray ls => ls
  | OEdge _ _ _ (Some f) _ => [f]
  | _ => []
  end.

(** The locations that [n] steps of references lead to from [l]. *)
Fixpoint reachN (n : nat) (h : gmap loc obj) (l : loc) : list loc :=
  l ::
  match n with
  | O => []
  | S n' =>
      match h !! l with
      | Some o => refs o ≫= reachN n' h
      | None => []
      end
  end.

(** *** Reading a graph out of the store: [JSON.stringify] *)

Definition readNode (h : gmap loc obj) (l : loc) : option Node.t :=
  match h !! l with
  | Some (ONode i n) => Some (Node.mk i n)
  | _ => None
  end.

Definition readFlow (h : gmap loc obj) (fl : option loc)
  : option (option (gmap string Qc)) :=
  match fl with
  | None => Some None
  | Some lf =>
      match h !! lf with
      | Some (OFlow m) => Some (Some m)
      | _ => None
      end
  end.

Definition readEdge (h : gmap loc obj) (l : loc) : option Edge.t :=
  match h !! l with
  | Some (OEdge f t d fl w) =>
      m ← readFlow h fl; Some (Edge.mk f t d m w)
  | _ => None
  end.

Definition readArray {A} (rd : gmap loc obj → loc → option A)
    (h : gmap loc obj) (l : loc) : option (list A) :=
  match h !! l with
  | Some (OArray ls) => mapM (rd h) ls
  | _ => None
  end.

Definition readGraph (h : gmap loc obj) (l : loc) : option Graph.t :=
  match h !! l with
  | Some (OGraph na ea) =>
      ns ← readArray readNode h na;
      es ← readArray readEdge h ea;
      Some (Graph.mk ns es)
  | _ => None
  end.

(** *** Building a graph in the store: [JSON.parse] *)

(** A new object lives at a location that the store does not have yet. *)
Definition alloc (h : gmap loc obj) (o : obj) : gmap loc obj * loc :=
  let l := fresh (dom h) in (<[l := o]> h, l).

Fixpoint allocList {A} (f : gmap loc obj → A → gmap loc obj * loc)
    (h : gmap loc obj) (xs : list A) : gmap loc obj * list loc :=
  match xs with
  | [] => (h, [])
  | x :: xs' =>
      let '(h1, l) := f h x in
      let '(h2, ls) := allocList f h1 xs' in
      (h2, l :: ls)
  end.

Definition allocNode (h : gmap loc obj) (n : Node.t) : gmap loc obj * loc :=
  alloc h (ONode (Node.id n) (Node.name n)).

Definition allocEdge (h : gmap loc obj) (e : Edge.t) : gmap loc obj * loc :=
  match Edge.flow e with
  | Some m =>
      let '(h1, lf) := alloc h (OFlow m) in
      alloc h1 (OEdge (Edge.from e) (Edge.to e) (Edge.distance e) (Some lf)
                  (Edge.weight e))
  | None =>
      alloc h (OEdge (Edge.from e) (Edge.to e) (Edge.distance e) None
                 (Edge.weight e))
  end.

Definition allocGraph (h : gmap loc obj) (g : Graph.t) : gmap loc obj * loc :=
  let '(h1, nls) := allocList allocNode h (Graph.nodes g) in
  let '(h2, na) := alloc h1 (OArray nls) in
  let '(h3, els) := allocList allocEdge h2 (Graph.edges g) in
  let '(h4, ea) := alloc h3 (OArray els) in
  alloc h4 (OGraph na ea).

(** *** [initEdgeWeights] on the store *)

(** The body of [updatedGraph.edges.forEach]: it writes the field [weight] of
    the edge object at [l]. [None] is a store that does not hold a graph
    there. *)
Definition setWeightAt (timePeriod : string) (h : gmap loc obj) (l : loc)
  : option (result (gmap loc obj)) :=
  match h !! l with
  | Some (OEdge f t d fl w) =>
      match fl with
      | None => Some (Throw TypeError)
      | Some lf =>
          match h !! lf with
          | Some (OFlow m) =>
              Some (Ok (<[l := OEdge f t d fl
                               (Number (weightOf d (usedFlowRate m timePeriod)))]>
                          h))
          | _ => None
          end
      end
  | _ => None
  end.

(** [forEach] stops at the first exception; the store it leaves is returned
    in either case. *)
Fixpoint forEachAt (f : gmap loc obj → loc → option (result (gmap loc obj)))
    (h : gmap loc obj) (ls : list loc)
  : option (gmap loc obj * result unit) :=
  match ls with
  | [] => Some (h, Ok ())
  | l :: ls' =>
      match f h l with
      | None => None
      | Some (Throw e) => Some (h, Throw e)
      | Some (Ok h1) => forEachAt f h1 ls'
      end
  end.

(** [initEdgeWeights] on a store [h] with the argument [graph] at location
    [g]: the final store, and the location of the returned graph or the
    exception. [JSON.stringify] reads the graph and prints it, and
    [JSON.parse] builds what was printed out of new objects. *)
Definition initEdgeWeightsAt (h : gmap loc obj) (g : loc) (timePeriod : string)
  : option (gmap loc obj * result loc) :=
  v ← readGraph h g;
  let '(h1, updatedGraph) := allocGraph h (jsonCopy v) in
  match h1 !! updatedGraph with
  | Some (OGraph _ ea) =>
      match h1 !! ea with
      | Some (OArray els) =>
          '(h2, r) ← forEachAt (setWeightAt timePeriod) h1 els;
          Some (h2, rbind r (λ _, Ok updatedGraph))
      | _ => None
      end
  | _ => None
  end.

(** ** Notions the properties are stated with *)

(** A run that returns nothing however much fuel it is given. *)
Definition neverReturns {A} (run : nat → option A) : Prop :=
  ∀ fuel, run fuel = None.

(** [edgePath g a b es]: the edges [es] of [g] lead from [a] to [b] through
    nodes of [g], each edge starting where the one before it ends. *)
Fixpoint edgePath (g : Graph.t) (a b : Z) (es : list Edge.t) : Prop :=
  match es with
  | [] => a = b
  | e :: es' =>
      e ∈ Graph.edges g ∧ Edge.from e = a ∧ Edge.to e ∈ ids g ∧
      edgePath g (Edge.to e) b es'
  end.

(** The nodes a path from [a] visits, [a] first. *)
Definition vertices (a : Z) (es : list Edge.t) : list Z :=
  a :: (Edge.to <$> es).

(** The weight of a path as the search adds it up: edge by edge from the
    start, each sum rounded to a double. *)
Definition pathWeight (es : list Edge.t) : jsnum :=
  foldl (λ acc e, jsadd acc (edgeWeight e)) (Num (Q2Qc 0)) es.

(** The raw distance of a path, added up in the same way. *)
Definition pathDistance (es : list Edge.t) : jsnum :=
  foldl (λ acc e, jsadd acc (Num (Edge.distance e))) (Num (Q2Qc 0)) es.

(** No edge has a weight that is missing, [NaN] or negative. *)
Definition weighted (g : Graph.t) : Prop :=
  ∀ e, e ∈ Graph.edges g → jsle (Num (Q2Qc 0)) (edgeWeight e).

(** Every edge has a finite weight, of whatever sign. *)
Definition weightsFinite (g : Graph.t) : Prop :=
  ∀ e, e ∈ Graph.edges g → ∃ w, edgeWeight e = Num w.

(** An edge that the search can relax: its weight is a number other than
    [Infinity]. *)
Definition relaxable (e : Edge.t) : Prop :=
  edgeWeight e ≠ NaN ∧ edgeWeight e ≠ Infinity.

(** Edges that join the same two ids have the same distance. *)
Definition sameDistance (g : Graph.t) : Prop :=
  ∀ e e', e ∈ Graph.edges g → e' ∈ Graph.edges g →
    Edge.from e = Edge.from e' → Edge.to e = Edge.to e' →
    Edge.distance e = Edge.distance e'.

(** [edgeChain g a b es]: the edges [es] of [g] follow one another from [a]
    to [b], whether or not the ids they pass are ids of nodes. *)
Fixpoint edgeChain (g : Graph.t) (a b : Z) (es : list Edge.t) : Prop :=
  match es with
  | [] => a = b
  | e :: es' =>
      e ∈ Graph.edges g ∧ Edge.from e = a ∧ edgeChain g (Edge.to e) b es'
  end.

(** The [dist] that the initial tables give the node [k]. *)
Definition initDist (start k : Z) : jsnum :=
  if decide (k = start) then Num (Q2Qc 0) else Infinity.

(** The states at the head of the search loop. *)
Inductive reachable (start end_ : Z) (g : Graph.t) : State → Prop :=
  | reach_init : reachable start end_ g (initTables start g)
  | reach_step st minNodeId :
      reachable start end_ g st →
      unvisited st ≠ [] →
      selectMin (dist st) (unvisited st) = Some minNodeId →
      isInfinity (distOf (dist st) minNodeId) = false →
      minNodeId ≠ end_ →
      reachable start end_ g (relax g minNodeId (visit st minNodeId)).

(** [exits end_ st st']: the search loop, entered at [st], is left at once
    with state [st']. *)
Inductive exits (end_ : Z) : State → State → Prop :=
  | exit_empty st : unvisited st = [] → exits end_ st st
  | exit_unreached st m :
      selectMin (dist st) (unvisited st) = Some m →
      isInfinity (distOf (dist st) m) = true →
      exits end_ st st
  | exit_found st :
      selectMin (dist st) (unvisited st) = Some end_ →
      isInfinity (distOf (dist st) end_) = false →
      exits end_ st (visit st end_).

(** [chain p v l]: following [p] from [v] reaches [null] and passes the nodes
    of [l], read backwards. *)
Inductive chain (p : gmap Z (option Z)) : Z → list Z → Prop :=
  | chain_root v : p !! v = Some None → chain p v [v]
  | chain_step v u l :
      p !! v = Some (Some u) → chain p u l → chain p v (l ++ [v]).

(** A node is visited once it has left [unvisited]. *)
Definition visited (g : Graph.t) (unv : list Z) (k : Z) : Prop :=
  k ∈ ids g ∧ k ∉ unv.

(** What holds of the tables at the head of the search loop and where the
    loop is left, whatever the weights are. *)
Record Inv (start : Z) (g : Graph.t) (st : State) : Prop := mkInv {
  inv_dom_dist : ∀ k, is_Some (dist st !! k) ↔ k ∈ ids g;
  inv_dom_prev : ∀ k, is_Some (prev st !! k) ↔ k ∈ ids g;
  inv_unvisited : ∀ k, k ∈ unvisited st → k ∈ ids g;
  inv_number : ∀ k, k ∈ ids g → isNumber (distOf (dist st) k);
  inv_fresh : start ∈ unvisited st → st = initTables start g;
  inv_null : ∀ v, prev st !! v = Some None →
    v = start ∨ distOf (dist st) v = Infinity;
  inv_prev : ∀ v u, prev st !! v = Some (Some u) →
    visited g (unvisited st) u ∧
    ∃ e, e ∈ Graph.edges g ∧ Edge.from e = u ∧ Edge.to e = v ∧
      distOf (dist st) v = jsadd (distOf (dist st) u) (edgeWeight e) ∧
      distOf (dist st) v ≠ Infinity;
  inv_tree : ∀ u, visited g (unvisited st) u →
    ∃ es, edgePath g start u es ∧
      chain (prev st) u (vertices start es) ∧
      distOf (dist st) u = pathWeight es ∧
      pathWeight es ≠ Infinity ∧
      ∀ x, x ∈ vertices start es → x ∉ unvisited st
}.

(** What holds in addition at the head of the search loop when no weight is
    negative: no [dist] is negative, visited nodes are no farther than
    unvisited ones, every edge out of a visited node has been relaxed, and
    the [dist] of a visited node is at most the weight of any path to it. *)
Record Opt (start : Z) (g : Graph.t) (st : State) : Prop := mkOpt {
  opt_nonneg : ∀ k, k ∈ ids g → jsle (Num (Q2Qc 0)) (distOf (dist st) k);
  opt_le : ∀ u v, visited g (unvisited st) u → v ∈ unvisited st →
    jsle (distOf (dist st) u) (distOf (dist st) v);
  opt_edge : ∀ e, e ∈ Graph.edges g →
    visited g (unvisited st) (Edge.from e) → Edge.to e ∈ ids g →
    jsle (distOf (dist st) (Edge.to e))
      (jsadd (distOf (dist st) (Edge.from e)) (edgeWeight e));
  opt_min : ∀ u es, visited g (unvisited st) u → edgePath g start u es →
    jsle (distOf (dist st) u) (pathWeight es)
}.

(** Every edge out of a visited node leads to a node whose [dist] is not
    [Infinity]. *)
Definition relaxedFinite (g : Graph.t) (st : State) : Prop :=
  ∀ e, e ∈ Graph.edges g →
    visited g (unvisited st) (Edge.from e) → Edge.to e ∈ ids g →
    distOf (dist st) (Edge.to e) ≠ Infinity.

(** A coefficient that is not negative and at most [2^1022], so that
    [1 + c] is finite. *)
Definition boundedRate (c : Qc) : Prop := (0 <= c)%Q ∧ (c <= 2 ^ 1022)%Q.

(** A period that weights every edge with a number: where a flow mapping has
    the period as a key, the coefficient is bounded; where it has not, the
    period is not the name of a member of [Object.prototype]. *)
Definition usablePeriod (g : Graph.t) (timePeriod : string) : Prop :=
  ∀ e f, e ∈ Graph.edges g → Edge.flow e = Some f →
    match f !! timePeriod with
    | Some c => boundedRate c
    | None => timePeriod ∉ objectPrototypeKeys
    end.

(** [lighter g1 g2]: the two graphs have the same nodes and the same edges
    in the same order, and no edge weighs less in [g2] than in [g1], where
    no weight is negative. *)
Definition lighter (g1 g2 : Graph.t) : Prop :=
  Graph.nodes g1 = Graph.nodes g2 ∧
  Forall2 (λ e1 e2,
      Edge.from e1 = Edge.from e2 ∧ Edge.to e1 = Edge.to e2 ∧
      jsle (Num (Q2Qc 0)) (edgeWeight e1) ∧
      jsle (edgeWeight e1) (edgeWeight e2))
    (Graph.edges g1) (Graph.edges g2).

(** [sameRouting g1 g2]: the two graphs have the same node ids in the same
    order and the same edges in the same order, up to the names of the
    nodes and the distances and flow mappings of the edges. *)
Definition sameRouting (g1 g2 : Graph.t) : Prop :=
  ids g1 = ids g2 ∧
  Forall2 (λ e1 e2,
      Edge.from e1 = Edge.from e2 ∧ Edge.to e1 = Edge.to e2 ∧
      Edge.weight e1 = Edge.weight e2)
    (Graph.edges g1) (Graph.edges g2).

(** [extends h h']: [h'] agrees with [h] on the locations of [h], and the
    objects it has in addition refer only to locations that [h] does not
    have. *)
Definition extends (h h' : gmap loc obj) : Prop :=
  h ⊆ h' ∧
  ∀ l o, h' !! l = Some o → l ∉ dom h → ∀ r, r ∈ refs o → r ∉ dom h.

(** ** Inputs of the worked examples *)

(** The number that the literal [n/d] denotes. *)
Definition q (n : Z) (d : positive) : Qc := double (n # d).

Arguments q : simpl never.

Definition oneFlow (k : string) (c : Qc) : option (gmap string Qc) :=
  Some {[ k := c ]}.

Definition demoGraph : Graph.t :=
  Graph.mk [Node.mk 1 "a"; Node.mk 2 "b"; Node.mk 3 "c"]
    [Edge.mk 1 2 (q 10 1) (oneFlow "morning" (q 1 2)) Undefined;
     Edge.mk 2 3 (q 5 1) (oneFlow "morning" (q 1 10)) Undefined].

(** [demoGraph] with the weights of the morning. *)
Definition morningGraph : Graph.t :=
  Graph.mk [Node.mk 1 "a"; Node.mk 2 "b"; Node.mk 3 "c"]
    [Edge.mk 1 2 (q 10 1) (oneFlow "morning" (q 1 2)) (Number (Num (q 15 1)));
     Edge.mk 2 3 (q 5 1) (oneFlow "morning" (q 1 10))
       (Number (Num (q 11 2)))].

(** What [dijkstra(1, 3, morningGraph)] returns. *)
Definition morningResult : PathResult :=
  mkResult [VId 1; VId 2; VId 3] (Num (q 41 2)) (Num (q 15 1))
    [Some (Node.mk 1 "a"); Some (Node.mk 2 "b"); Some (Node.mk 3 "c")].

(** [morningGraph] with heavier edges. *)
Definition rushHourGraph : Graph.t :=
  Graph.mk [Node.mk 1 "a"; Node.mk 2 "b"; Node.mk 3 "c"]
    [Edge.mk 1 2 (q 10 1) (oneFlow "morning" (q 1 2)) (Number (Num (q 20 1)));
     Edge.mk 2 3 (q 5 1) (oneFlow "morning" (q 1 10)) (Number (Num (q 6 1)))].

(** [morningGraph] with other names, distances and flow mappings. *)
Definition renamedGraph : Graph.t :=
  Graph.mk [Node.mk 1 "gate"; Node.mk 2 "library"; Node.mk 3 "canteen"]
    [Edge.mk 1 2 (q 7 1) None (Number (Num (q 15 1)));
     Edge.mk 2 3 (q 0 1) (oneFlow "noon" (q 3 1)) (Number (Num (q 11 2)))].

(** The chain A→B→C with distances 1 and 2 and coefficient 0 at noon. *)
Definition zeroFlowGraph : Graph.t :=
  Graph.mk [Node.mk 1 "A"; Node.mk 2 "B"; Node.mk 3 "C"]
    [Edge.mk 1 2 (q 1 1) (oneFlow "noon" (q 0 1)) Undefined;
     Edge.mk 2 3 (q 2 1) (oneFlow "noon" (q 0 1)) Undefined].

(** The chain 1→2→3 with two weights of [2^1023]: each is a double, their
    sum is not. *)
Definition hugeGraph : Graph.t :=
  Graph.mk [Node.mk 1 "a"; Node.mk 2 "b"; Node.mk 3 "c"]
    [Edge.mk 1 2 (q 1 1) None (Number (Num (q (2 ^ 1023) 1)));
     Edge.mk 2 3 (q 1 1) None (Number (Num (q (2 ^ 1023) 1)))].

(** The weights and the total weight that a call chain ends with. *)
Definition weightsOf (r : result Graph.t) : list jsfield :=
  match r with Ok g => Edge.weight <$> Graph.edges g | Throw _ => [] end.

Definition totalWeightOf (fuel : nat) (start end_ : Z) (r : result Graph.t)
  : option jsnum :=
  match r with
  | Ok g => totalWeight <$> dijkstra fuel start end_ g
  | Throw _ => None
  end.

(** An edge without a flow mapping. *)
Definition noFlowGraph : Graph.t :=
  Graph.mk [Node.mk 1 "A"; Node.mk 2 "B"]
    [Edge.mk 1 2 (q 1 1) None Undefined].

(** Two nodes joined by one edge of distance 10 with coefficient [c]. *)
Definition oneEdgeGraph (c : Qc) : Graph.t :=
  Graph.mk [Node.mk 1 "A"; Node.mk 2 "B"]
    [Edge.mk 1 2 (q 10 1) (oneFlow "morning" c) Undefined].

(** A single node and no edge. *)
Definition loneGraph : Graph.t := Graph.mk [Node.mk 1 "A"] [].

(** Two nodes and two edges through the id 2, which no node has. *)
Definition danglingGraph : Graph.t :=
  Graph.mk [Node.mk 1 "A"; Node.mk 3 "C"]
    [Edge.mk 1 2 (q 1 1) None (Number (Num (q 1 1)));
     Edge.mk 2 3 (q 1 1) None (Number (Num (q 1 1)))].

(** A store that holds [demoGraph] and nothing else, and where it holds it. *)
Definition demoStore : gmap loc obj := (allocGraph ∅ demoGraph).1.
Definition demoLoc : loc := (allocGraph ∅ demoGraph).2.

(** A store that holds [noFlowGraph], and where it holds it. *)
Definition noFlowStore : gmap loc obj := (allocGraph ∅ noFlowGraph).1.
Definition noFlowLoc : loc := (allocGraph ∅ noFlowGraph).2.

(** ** Closed evaluation with rationals *)

Ltac qc_eq :=
  repeat lazymatch goal with
    | |- @eq Qc _ _ => apply Qc_is_canon; vm_compute; reflexivity
    | |- _ => first [reflexivity | progress f_equal]
    end.

Ltac evaluate := vm_compute; qc_eq.
(** * Rounding and the order of numbers *)

(** ** Powers of two *)

Lemma pow2_pos k : (0 < 2 ^ k)%Q.
Proof. by apply Qpower_0_lt. Qed.

Lemma pow2_neq0 k : ¬ (2 ^ k == 0)%Q.
Proof. intros H. pose proof (pow2_pos k) as Hp. rewrite H in Hp. by apply Qlt_irrefl in Hp. Qed.

Lemma pow2_add a b : (2 ^ (a + b) == 2 ^ a * 2 ^ b)%Q.
Proof. by apply Qpower_plus. Qed.

Lemma pow2_le a b : a ≤ b → (2 ^ a <= 2 ^ b)%Q.
Proof. intros H. by apply Qpower_le_compat_l. Qed.

Lemma pow2_lt a b : a < b → (2 ^ a < 2 ^ b)%Q.
Proof. intros H. by apply Qpower_lt_compat_l. Qed.

Lemma pow2_lt_inv a b : (2 ^ a < 2 ^ b)%Q → a < b.
Proof. intros H. by apply (Qpower_lt_compat_l_inv 2). Qed.

Lemma pow2_Z k : 0 ≤ k → (2 ^ k == inject_Z (2 ^ k))%Q.
Proof. intros H. symmetry. by apply (Zpower_Qpower 2). Qed.

(** A multiple of [2^b] is a whole multiple of any smaller power of two. *)
Lemma pow2_div m a b :
  b ≤ a → (inject_Z m * 2 ^ a / 2 ^ b == inject_Z (m * 2 ^ (a - b)))%Q.
Proof.
  intros H. rewrite inject_Z_mult, <- pow2_Z by lia.
  replace a with ((a - b) + b) at 1 by lia. rewrite pow2_add.
  field. apply pow2_neq0.
Qed.

(** ** The leading binary place *)

Lemma floorLog2_spec x :
  (0 < x)%Q → (2 ^ floorLog2 x <= x)%Q ∧ (x < 2 ^ (floorLog2 x + 1))%Q.
Proof.
  intros Hx. destruct x as [n d]. unfold floorLog2. cbn [Qnum Qden].
  assert (0 < n) as Hn by (unfold Qlt in Hx; simpl in Hx; lia).
  pose proof (Z.log2_spec n Hn) as [Ha1 Ha2].
  pose proof (Z.log2_spec (Zpos d) eq_refl) as [Hb1 Hb2].
  pose proof (Z.log2_nonneg n) as Ha0.
  pose proof (Z.log2_nonneg (Zpos d)) as Hb0.
  set (a := Z.log2 n) in *. set (b := Z.log2 (Zpos d)) in *.
  assert (n # d == inject_Z n / inject_Z (Zpos d))%Q as Hnd
    by apply Qmake_Qdiv.
  assert (0 < inject_Z (Zpos d))%Q as Hd by done.
  assert ((n # d) * inject_Z (Zpos d) == inject_Z n)%Q as Hmul.
  { rewrite Hnd. field. by intros ?. }
  assert (2 ^ b <= inject_Z (Zpos d))%Q as Hdb1.
  { rewrite pow2_Z by done. by rewrite <- Zle_Qle. }
  assert (inject_Z (Zpos d) < 2 ^ (b + 1))%Q as Hdb2.
  { rewrite pow2_Z by lia. by rewrite <- Zlt_Qlt. }
  assert (2 ^ a <= inject_Z n)%Q as Hna1.
  { rewrite pow2_Z by done. by rewrite <- Zle_Qle. }
  assert (inject_Z n < 2 ^ (a + 1))%Q as Hna2.
  { rewrite pow2_Z by lia. by rewrite <- Zlt_Qlt. }
  assert (n # d < 2 ^ (a - b + 1))%Q as Hup.
  { apply (Qmult_lt_r _ _ (2 ^ b)); [apply pow2_pos|].
    rewrite <- pow2_add. replace (a - b + 1 + b) with (a + 1) by lia.
    eapply Qle_lt_trans; [|apply Hna2]. rewrite <- Hmul.
    apply Qmult_le_l; [done|done]. }
  assert (2 ^ (a - b - 1) <= n # d)%Q as Hlow.
  { apply (Qmult_le_r _ _ (2 ^ (b + 1))); [apply pow2_pos|].
    rewrite <- pow2_add. replace (a - b - 1 + (b + 1)) with a by lia.
    eapply Qle_trans; [apply Hna1|]. rewrite <- Hmul.
    apply Qmult_le_l; [done|]. by apply Qlt_le_weak. }
  destruct (Qle_bool (2 ^ (a - b)) (n # d)) eqn:Hle.
  - apply Qle_bool_iff in Hle. done.
  - split; [done|]. replace (a - b - 1 + 1) with (a - b) by lia.
    apply Qnot_le_lt. intros H%Qle_bool_iff. congruence.
Qed.

Lemma floorLog2_unique x e :
  (2 ^ e <= x)%Q → (x < 2 ^ (e + 1))%Q → floorLog2 x = e.
Proof.
  intros H1 H2.
  assert (0 < x)%Q as Hx by (eapply Qlt_le_trans; [apply (pow2_pos e)|done]).
  destruct (floorLog2_spec x Hx) as [S1 S2].
  assert (e < floorLog2 x + 1).
  { apply pow2_lt_inv. eapply Qle_lt_trans; done. }
  assert (floorLog2 x < e + 1).
  { apply pow2_lt_inv. eapply Qle_lt_trans; done. }
  lia.
Qed.

Lemma floorLog2_mono x y :
  (0 < x)%Q → (x <= y)%Q → floorLog2 x ≤ floorLog2 y.
Proof.
  intros Hx Hxy.
  assert (0 < y)%Q as Hy by (by eapply Qlt_le_trans).
  destruct (floorLog2_spec x Hx) as [S1 _].
  destruct (floorLog2_spec y Hy) as [_ S2].
  assert (floorLog2 x < floorLog2 y + 1); [|lia].
  apply pow2_lt_inv. eapply Qle_lt_trans; [done|]. by eapply Qle_lt_trans.
Qed.

Lemma floorLog2_eq x y : (0 < x)%Q → (x == y)%Q → floorLog2 x = floorLog2 y.
Proof.
  intros Hx Hxy. destruct (floorLog2_spec x Hx) as [S1 S2]. symmetry.
  apply floorLog2_unique; by rewrite <- Hxy.
Qed.

(** ** Rounding to an integer *)

Lemma roundHalfEven_floor x : Qfloor x ≤ roundHalfEven x ≤ Qfloor x + 1.
Proof.
  unfold roundHalfEven. destruct (_ ?= _)%Q; [destruct (Z.even _)|..]; lia.
Qed.

Lemma roundHalfEven_Z k : roundHalfEven (inject_Z k) = k.
Proof.
  unfold roundHalfEven. rewrite Qfloor_Z.
  destruct (Qcompare_spec (inject_Z k - inject_Z k) (1 # 2)); [|done|];
    exfalso; lra.
Qed.

#[local] Instance roundHalfEven_proper : Proper (Qeq ==> eq) roundHalfEven.
Proof.
  intros x y Hxy. unfold roundHalfEven.
  rewrite (Qfloor_comp x y Hxy).
  assert ((x - inject_Z (Qfloor y) ?= 1 # 2) = (y - inject_Z (Qfloor y) ?= 1 # 2))%Q
    as -> by (by rewrite Hxy).
  done.
Qed.

Lemma roundHalfEven_mono x y :
  (x <= y)%Q → roundHalfEven x ≤ roundHalfEven y.
Proof.
  intros Hxy. pose proof (Qfloor_resp_le x y Hxy) as Hf.
  destruct (decide (Qfloor x = Qfloor y)) as [Heq|Hne].
  - unfold roundHalfEven. rewrite <- Heq.
    destruct (Qcompare_spec (x - inject_Z (Qfloor x)) (1 # 2)) as [Hx|Hx|Hx];
      destruct (Qcompare_spec (y - inject_Z (Qfloor x)) (1 # 2)) as [Hy|Hy|Hy];
      try (destruct (Z.even _)); try lia; exfalso; lra.
  - pose proof (roundHalfEven_floor x). pose proof (roundHalfEven_floor y). lia.
Qed.

(** An integer on one side of [x] is on the same side of its rounding. *)
Lemma roundHalfEven_le x k : (x <= inject_Z k)%Q → roundHalfEven x ≤ k.
Proof. intros H%roundHalfEven_mono. by rewrite roundHalfEven_Z in H. Qed.

Lemma roundHalfEven_ge x k : (inject_Z k <= x)%Q → k ≤ roundHalfEven x.
Proof. intros H%roundHalfEven_mono. by rewrite roundHalfEven_Z in H. Qed.

(** ** Rounding to 53 places *)

Lemma lastPlace_min x : -1074 ≤ lastPlace x.
Proof. unfold lastPlace. lia. Qed.

Lemma lastPlace_mono x y : (0 < x)%Q → (x <= y)%Q → lastPlace x ≤ lastPlace y.
Proof.
  intros Hx Hxy. pose proof (floorLog2_mono x y Hx Hxy). unfold lastPlace. lia.
Qed.

Lemma nearest_zero x : (x == 0)%Q → (nearest x == 0)%Q.
Proof.
  intros Hx. unfold nearest.
  assert (x / 2 ^ lastPlace x == inject_Z 0)%Q as ->.
  { unfold Qdiv. transitivity (0 * / 2 ^ lastPlace x)%Q; [|ring].
    by apply Qmult_comp. }
  rewrite roundHalfEven_Z. ring.
Qed.

Lemma nearest_proper x y :
  (0 <= x)%Q → (x == y)%Q → (nearest x == nearest y)%Q.
Proof.
  intros H0 Hxy. destruct (Qlt_le_dec 0 x) as [Hx|Hx].
  - unfold nearest.
    assert (lastPlace y = lastPlace x) as ->.
    { unfold lastPlace. by rewrite (floorLog2_eq x y). }
    generalize (lastPlace x) as q. intros q. by rewrite Hxy.
  - assert (x == 0)%Q as E by lra. rewrite (nearest_zero x E).
    rewrite Hxy in E. by rewrite (nearest_zero y E).
Qed.

(** The rounding of [x] is a whole number of last places. *)
Lemma nearest_nonneg x : (0 <= x)%Q → (0 <= nearest x)%Q.
Proof.
  intros Hx. unfold nearest. apply Qmult_le_0_compat.
  - change (inject_Z 0 <= inject_Z (roundHalfEven (x / 2 ^ lastPlace x)))%Q.
    rewrite <- Zle_Qle. apply roundHalfEven_ge.
    apply Qle_shift_div_l; [apply pow2_pos|].
    by rewrite Qmult_0_l.
  - apply Qlt_le_weak, pow2_pos.
Qed.

(** A whole multiple of the last place of [x] that is on one side of [x] is
    on the same side of its rounding. *)
Lemma nearest_le x k :
  (x <= inject_Z k * 2 ^ lastPlace x)%Q → (nearest x <= inject_Z k * 2 ^ lastPlace x)%Q.
Proof.
  intros H. unfold nearest. apply Qmult_le_compat_r; [|apply Qlt_le_weak, pow2_pos].
  rewrite <- Zle_Qle. apply roundHalfEven_le.
  by apply Qle_shift_div_r; [apply pow2_pos|].
Qed.

Lemma nearest_ge x k :
  (inject_Z k * 2 ^ lastPlace x <= x)%Q → (inject_Z k * 2 ^ lastPlace x <= nearest x)%Q.
Proof.
  intros H. unfold nearest. apply Qmult_le_compat_r; [|apply Qlt_le_weak, pow2_pos].
  rewrite <- Zle_Qle. apply roundHalfEven_ge.
  by apply Qle_shift_div_l; [apply pow2_pos|].
Qed.

(** A power of two at or above the last place of [x]. *)
Lemma nearest_le_pow2 x a :
  lastPlace x ≤ a → (x <= 2 ^ a)%Q → (nearest x <= 2 ^ a)%Q.
Proof.
  intros Ha Hx.
  assert (2 ^ a == inject_Z (2 ^ (a - lastPlace x)) * 2 ^ lastPlace x)%Q as E.
  { rewrite <- pow2_Z by lia. rewrite <- pow2_add. by replace (a - lastPlace x + lastPlace x) with a by lia. }
  rewrite E. apply nearest_le. by rewrite <- E.
Qed.

Lemma nearest_ge_pow2 x a :
  lastPlace x ≤ a → (2 ^ a <= x)%Q → (2 ^ a <= nearest x)%Q.
Proof.
  intros Ha Hx.
  assert (2 ^ a == inject_Z (2 ^ (a - lastPlace x)) * 2 ^ lastPlace x)%Q as E.
  { rewrite <- pow2_Z by lia. rewrite <- pow2_add. by replace (a - lastPlace x + lastPlace x) with a by lia. }
  rewrite E. apply nearest_ge. by rewrite <- E.
Qed.

Lemma nearest_mono x y : (0 <= x)%Q → (x <= y)%Q → (nearest x <= nearest y)%Q.
Proof.
  intros Hx Hxy. destruct (Qlt_le_dec 0 x) as [Hpos|H0].
  - pose proof (lastPlace_mono x y Hpos Hxy) as Hq.
    assert (0 < y)%Q as Hy by lra.
    destruct (decide (lastPlace x = lastPlace y)) as [Heq|Hne].
    + unfold nearest. rewrite Heq.
      apply Qmult_le_compat_r; [|apply Qlt_le_weak, pow2_pos].
      rewrite <- Zle_Qle. apply roundHalfEven_mono.
      apply Qmult_le_compat_r; [done|].
      apply Qlt_le_weak, Qinv_lt_0_compat, pow2_pos.
    + assert (lastPlace y = floorLog2 y - 52) as Hqy.
      { pose proof (lastPlace_min x). unfold lastPlace in *. lia. }
      assert (floorLog2 x + 1 ≤ floorLog2 y) as Hfl.
      { unfold lastPlace in *. lia. }
      destruct (floorLog2_spec x Hpos) as [_ Sx].
      destruct (floorLog2_spec y Hy) as [Sy _].
      apply (Qle_trans _ (2 ^ floorLog2 y)).
      * apply nearest_le_pow2; [lia|].
        apply Qlt_le_weak. eapply Qlt_le_trans; [done|]. by apply pow2_le.
      * apply nearest_ge_pow2; [lia|done].
  - assert (x == 0)%Q as E by lra. rewrite (nearest_zero x E).
    apply nearest_nonneg. lra.
Qed.

(** A whole multiple of a power of two at or above the last place of [z] is
    its own rounding. *)
Lemma nearest_grid z j a :
  (z == inject_Z j * 2 ^ a)%Q → lastPlace z ≤ a → (nearest z == z)%Q.
Proof.
  intros Hz Ha. unfold nearest. set (b := lastPlace z) in *.
  assert (z / 2 ^ b == inject_Z (j * 2 ^ (a - b)))%Q as E.
  { rewrite Hz. by apply pow2_div. }
  rewrite E, roundHalfEven_Z. rewrite <- E. field. apply pow2_neq0.
Qed.

Lemma nearest_idem x : (0 <= x)%Q → (nearest (nearest x) == nearest x)%Q.
Proof.
  intros H0. destruct (Qlt_le_dec 0 (nearest x)) as [Hz|Hz].
  - assert (0 < x)%Q as Hx.
    { destruct (Qlt_le_dec 0 x) as [?|Hle]; [done|].
      assert (x == 0)%Q as E by lra. rewrite (nearest_zero x E) in Hz.
      by apply Qlt_irrefl in Hz. }
    set (b := lastPlace x). set (m := roundHalfEven (x / 2 ^ b)).
    assert (nearest x == inject_Z m * 2 ^ b)%Q as Hn by done.
    destruct (floorLog2_spec x Hx) as [_ Sx].
    assert (0 < m) as Hm.
    { rewrite Zlt_Qlt. apply (Qmult_lt_r _ _ (2 ^ b)); [apply pow2_pos|].
      by rewrite Qmult_0_l, <- Hn. }
    assert (m ≤ 2 ^ 53) as Hm53.
    { apply roundHalfEven_le. apply Qle_shift_div_r; [apply pow2_pos|].
      rewrite <- pow2_Z, <- pow2_add by lia. apply Qlt_le_weak.
      eapply Qlt_le_trans; [done|]. apply pow2_le. unfold b, lastPlace. lia. }
    pose proof (Z.log2_spec m Hm) as [L1 L2].
    pose proof (Z.log2_nonneg m) as L0.
    set (k := Z.log2 m) in *.
    assert (floorLog2 (nearest x) = k + b) as Hfl.
    { apply floorLog2_unique; rewrite Hn.
      - rewrite pow2_add. apply Qmult_le_compat_r; [|apply Qlt_le_weak, pow2_pos].
        rewrite pow2_Z by done. by rewrite <- Zle_Qle.
      - replace (k + b + 1) with (Z.succ k + b) by lia. rewrite pow2_add.
        apply Qmult_lt_compat_r; [apply pow2_pos|].
        rewrite pow2_Z by lia. by rewrite <- Zlt_Qlt. }
    assert (-1074 ≤ b) as Hb by apply lastPlace_min.
    destruct (decide (k ≤ 52)) as [Hk|Hk].
    + apply (nearest_grid _ m b); [done|]. unfold lastPlace. rewrite Hfl. lia.
    + assert (k = 53) as Hk53.
      { assert (k < 54); [|lia]. apply (Z.pow_lt_mono_r_iff 2); lia. }
      assert (m = 2 ^ 53) as Hm2.
      { rewrite Hk53 in L1. lia. }
      apply (nearest_grid _ (2 ^ 52) (b + 1)).
      * rewrite Hn, Hm2, pow2_add. rewrite <- !pow2_Z by lia.
        change (2 ^ 53)%Q with (2 ^ 52 * 2 ^ 1)%Q. ring.
      * unfold lastPlace. rewrite Hfl. lia.
  - pose proof (nearest_nonneg x H0) as Hn.
    assert (nearest x == 0)%Q as E by lra. by rewrite (nearest_zero _ E).
Qed.

(** ** Rounding to a double *)

Lemma Q2Qc_le a b : (a <= b)%Q → (Q2Qc a ≤ Q2Qc b)%Qc.
Proof. intros H. unfold Qcle. simpl. by rewrite !Qred_correct. Qed.

Lemma Q2Qc_eq a b : (a == b)%Q → Q2Qc a = Q2Qc b.
Proof. intros H. apply Qc_is_canon. simpl. by rewrite !Qred_correct. Qed.

Lemma Qle_bool_false a b : Qle_bool a b = false ↔ (b < a)%Q.
Proof.
  rewrite <- not_true_iff_false, Qle_bool_iff. split.
  - apply Qnot_le_lt.
  - apply Qlt_not_le.
Qed.

Lemma round64_not_NaN x : round64 x ≠ NaN.
Proof. unfold round64. by repeat destruct (Qle_bool _ _). Qed.

(** Rounding keeps the order. *)
Lemma round64_mono x y : (x <= y)%Q → jsle (round64 x) (round64 y).
Proof.
  intros Hxy. unfold round64.
  destruct (Qle_bool 0 x) eqn:Hx; destruct (Qle_bool 0 y) eqn:Hy;
    try apply Qle_bool_iff in Hx; try apply Qle_bool_false in Hx;
    try apply Qle_bool_iff in Hy; try apply Qle_bool_false in Hy.
  - pose proof (nearest_mono x y Hx Hxy) as Hn.
    destruct (Qle_bool (2 ^ 1024) (nearest x)) eqn:Ox;
      destruct (Qle_bool (2 ^ 1024) (nearest y)) eqn:Oy;
      try apply Qle_bool_iff in Ox; try apply Qle_bool_false in Ox;
      try apply Qle_bool_iff in Oy; try apply Qle_bool_false in Oy;
      simpl; try done.
    + lra.
    + by apply Q2Qc_le.
  - lra.
  - pose proof (nearest_nonneg (- x)) as Hnx.
    pose proof (nearest_nonneg y Hy) as Hny.
    destruct (Qle_bool (2 ^ 1024) (nearest (- x)));
      destruct (Qle_bool (2 ^ 1024) (nearest y)); simpl; try done.
    apply Q2Qc_le. lra.
  - assert (nearest (- y) <= nearest (- x))%Q as Hn
      by (apply nearest_mono; lra).
    destruct (Qle_bool (2 ^ 1024) (nearest (- x))) eqn:Ox;
      destruct (Qle_bool (2 ^ 1024) (nearest (- y))) eqn:Oy;
      try apply Qle_bool_iff in Ox; try apply Qle_bool_false in Ox;
      try apply Qle_bool_iff in Oy; try apply Qle_bool_false in Oy;
      simpl; try done.
    + lra.
    + apply Q2Qc_le. lra.
Qed.

(** What rounding gives is a double. *)
Lemma round64_isDouble x y : round64 x = Num y → isDouble y.
Proof.
  unfold isDouble, round64 at 1.
  destruct (Qle_bool 0 x) eqn:Hx;
    [apply Qle_bool_iff in Hx|apply Qle_bool_false in Hx].
  - destruct (Qle_bool (2 ^ 1024) (nearest x)) eqn:Ox; [done|].
    intros [= <-]. apply Qle_bool_false in Ox.
    assert (Q2Qc (nearest x) == nearest x)%Q as E by apply Qred_correct.
    pose proof (nearest_nonneg x Hx) as Hn.
    assert (nearest (Q2Qc (nearest x)) == nearest x)%Q as En.
    { rewrite <- (nearest_proper (nearest x)); [by apply nearest_idem|done|].
      by symmetry. }
    unfold round64.
    destruct (Qle_bool 0 (Q2Qc (nearest x))) eqn:H0.
    + destruct (Qle_bool (2 ^ 1024) (nearest (Q2Qc (nearest x)))) eqn:O2.
      * apply Qle_bool_iff in O2. rewrite En in O2. lra.
      * f_equal. apply Q2Qc_eq. by rewrite En.
    + apply Qle_bool_false in H0. rewrite E in H0. lra.
  - assert (0 <= - x)%Q as Hx' by lra.
    destruct (Qle_bool (2 ^ 1024) (nearest (- x))) eqn:Ox; [done|].
    intros [= <-]. apply Qle_bool_false in Ox.
    pose proof (nearest_nonneg (- x) Hx') as Hn.
    set (n := nearest (- x)) in *.
    assert (Q2Qc (- n) == - n)%Q as E by apply Qred_correct.
    unfold round64.
    destruct (Qle_bool 0 (Q2Qc (- n))) eqn:H0;
      [apply Qle_bool_iff in H0|apply Qle_bool_false in H0].
    + assert (n == 0)%Q as En by (rewrite E in H0; lra).
      assert (Q2Qc (- n) == 0)%Q as E0 by (rewrite E, En; ring).
      rewrite (proj2 (Qle_bool_false _ _)).
      * f_equal. apply Q2Qc_eq. rewrite (nearest_zero _ E0), En. ring.
      * rewrite (nearest_zero _ E0). by apply pow2_pos.
    + assert (nearest (- Q2Qc (- n)) == n)%Q as En.
      { rewrite <- (nearest_proper n); [by apply nearest_idem|done|].
        rewrite E. ring. }
      destruct (Qle_bool (2 ^ 1024) (nearest (- Q2Qc (- n)))) eqn:O2.
      * apply Qle_bool_iff in O2. rewrite En in O2. lra.
      * f_equal. apply Q2Qc_eq. by rewrite En.
Qed.

Lemma round64_zero : round64 (Q2Qc 0) = Num (Q2Qc 0).
Proof. evaluate. Qed.

Lemma isDouble_zero : isDouble (Q2Qc 0).
Proof. apply round64_zero. Qed.

Lemma isDouble_one : isDouble (Q2Qc 1).
Proof. unfold isDouble. evaluate. Qed.

Lemma double_isDouble x : isDouble (double x).
Proof.
  unfold double. destruct (round64 x) as [y| | |] eqn:Hx;
    [by eapply round64_isDouble|apply isDouble_zero..].
Qed.

(** ** Numbers *)

Lemma Qcltb_lt x y : Qcltb x y = true ↔ (x < y)%Qc.
Proof.
  unfold Qcltb. rewrite Qclt_alt. destruct (x ?= y)%Qc; split; congruence.
Qed.

Lemma Qcltb_ge x y : Qcltb x y = false ↔ (y ≤ x)%Qc.
Proof.
  rewrite <- not_true_iff_false, Qcltb_lt. split.
  - apply Qcnot_lt_le.
  - apply Qcle_not_lt.
Qed.

(** Only what is less than something can be written to [dist]. *)
Lemma jslt_true_l a b : jslt a b = true → a ≠ NaN ∧ a ≠ Infinity.
Proof. by destruct a, b. Qed.

Lemma jslt_false_le a b : isNumber a → isNumber b → jslt a b = false → jsle b a.
Proof.
  unfold isNumber. destruct a, b; simpl; try done.
  by rewrite Qcltb_ge.
Qed.

Lemma jslt_true_le a b : jslt a b = true → jsle a b.
Proof.
  destruct a, b; simpl; try done.
  rewrite Qcltb_lt. apply Qclt_le_weak.
Qed.

Lemma jsle_refl a : isNumber a → jsle a a.
Proof. destruct a; simpl; done. Qed.

Lemma jsle_trans a b c : jsle a b → jsle b c → jsle a c.
Proof. destruct a, b, c; simpl; try done. apply Qcle_trans. Qed.

Lemma jsle_isNumber a b : jsle a b → isNumber a ∧ isNumber b.
Proof. destruct a, b; simpl; done. Qed.

Lemma jsle_Infinity a : isNumber a → jsle a Infinity.
Proof. by destruct a. Qed.

Lemma jsle_Infinity_l a : jsle Infinity a → a = Infinity.
Proof. by destruct a. Qed.

Lemma jsle_antisym a b : jsle a b → jsle b a → a = b.
Proof.
  destruct a, b; simpl; try done. intros H1 H2. f_equal.
  by apply Qcle_antisym.
Qed.

Lemma jsle_nonneg_cases a :
  jsle (Num (Q2Qc 0)) a → (∃ x, a = Num x ∧ (Q2Qc 0 ≤ x)%Qc) ∨ a = Infinity.
Proof. destruct a; simpl; try done; eauto. Qed.

Lemma Qcle_plus_nonneg x w : (Q2Qc 0 ≤ w)%Qc → (x ≤ x + w)%Qc.
Proof.
  intros Hw. rewrite <- (Qcplus_0_r x) at 1.
  apply Qcplus_le_compat; [apply Qcle_refl|done].
Qed.

Lemma round64_Qc_mono (x y : Qc) : (x ≤ y)%Qc → jsle (round64 x) (round64 y).
Proof. apply round64_mono. Qed.

(** What [+] gives is a number that a double can hold. *)
Lemma jsadd_representable a b : representable (jsadd a b).
Proof.
  destruct (jsadd a b) as [y| | |] eqn:H; try done. simpl.
  destruct a as [x| | |], b as [z| | |]; try done.
  by eapply round64_isDouble.
Qed.

(** [+] keeps the order, wherever its results are numbers. *)
Lemma jsadd_mono a b w w' :
  jsle a b → jsle w w' → isNumber (jsadd a w) → isNumber (jsadd b w') →
  jsle (jsadd a w) (jsadd b w').
Proof.
  unfold isNumber.
  destruct a as [x| | |], b as [y| | |], w as [z| | |], w' as [z'| | |];
    simpl; try done;
    try (intros; by apply jsle_Infinity, round64_not_NaN);
    try (intros; by destruct (round64 _) eqn:E;
           [| | |by apply round64_not_NaN in E]).
  intros Hxy Hz _ _. apply round64_mono.
  exact (Qcplus_le_compat _ _ _ _ Hxy Hz).
Qed.

Lemma jsadd_nonneg a w :
  jsle (Num (Q2Qc 0)) a → jsle (Num (Q2Qc 0)) w →
  jsle (Num (Q2Qc 0)) (jsadd a w).
Proof.
  intros [(x & -> & Hx)| ->]%jsle_nonneg_cases
         [(z & -> & Hz)| ->]%jsle_nonneg_cases; [|done..].
  cbn [jsadd]. rewrite <- round64_zero. apply round64_mono.
  exact (Qcplus_le_compat (Q2Qc 0) x (Q2Qc 0) z Hx Hz).
Qed.

(** Adding what is not negative to a double does not give less. *)
Lemma jsadd_inflate a w :
  representable a → jsle (Num (Q2Qc 0)) a → jsle (Num (Q2Qc 0)) w →
  jsle a (jsadd a w).
Proof.
  intros Hrep [(x & -> & Hx)| ->]%jsle_nonneg_cases
         [(z & -> & Hz)| ->]%jsle_nonneg_cases; [|done..].
  cbn [jsadd]. simpl in Hrep. unfold isDouble in Hrep. rewrite <- Hrep at 1.
  apply round64_mono. exact (Qcle_plus_nonneg x z Hz).
Qed.

Lemma jsadd_NaN_l b : jsadd NaN b = NaN.
Proof. by destruct b. Qed.

Lemma jsadd_Infinity_l b : jsadd Infinity b = Infinity ∨ jsadd Infinity b = NaN.
Proof. destruct b; auto. Qed.

(** A sum that is a number other than [Infinity] has such summands. *)
Lemma jsadd_relaxable a b :
  jsadd a b ≠ NaN → jsadd a b ≠ Infinity →
  (a ≠ NaN ∧ a ≠ Infinity) ∧ (b ≠ NaN ∧ b ≠ Infinity).
Proof. destruct a, b; simpl; done. Qed.

(** * The two functions *)

(** ** Sets as insertion-ordered lists *)

Lemma elem_of_Set_add s x y : y ∈ Set_add s x ↔ y ∈ s ∨ y = x.
Proof.
  unfold Set_add. case_decide; set_solver.
Qed.

Lemma NoDup_Set_add s x : NoDup s → NoDup (Set_add s x).
Proof.
  intros Hs. unfold Set_add. case_decide; [done|].
  apply NoDup_app. split_and!; [done| |apply NoDup_singleton].
  intros y Hy Hx%list_elem_of_singleton. by subst.
Qed.

Lemma elem_of_foldl_Set_add l s y : y ∈ foldl Set_add s l ↔ y ∈ s ∨ y ∈ l.
Proof.
  revert s. induction l as [|x l IH]; intros s; simpl; [set_solver|].
  rewrite IH, elem_of_Set_add. set_solver.
Qed.

Lemma NoDup_foldl_Set_add l s : NoDup s → NoDup (foldl Set_add s l).
Proof.
  revert s. induction l as [|x l IH]; intros s Hs; simpl; [done|].
  by apply IH, NoDup_Set_add.
Qed.

Lemma elem_of_Set_new l y : y ∈ Set_new l ↔ y ∈ l.
Proof. unfold Set_new. rewrite elem_of_foldl_Set_add. set_solver. Qed.

Lemma NoDup_Set_new l : NoDup (Set_new l).
Proof. apply NoDup_foldl_Set_add, NoDup_nil_2. Qed.

Lemma elem_of_Set_delete s x y : y ∈ Set_delete s x ↔ y ∈ s ∧ y ≠ x.
Proof. unfold Set_delete. rewrite list_elem_of_filter. tauto. Qed.

Lemma NoDup_Set_delete s x : NoDup s → NoDup (Set_delete s x).
Proof. apply NoDup_filter. Qed.

Lemma length_Set_delete s x :
  x ∈ s → (length (Set_delete s x) < length s)%nat.
Proof.
  unfold Set_delete. induction 1 as [x l|x y l _ IH].
  - rewrite filter_cons_False by tauto.
    pose proof (length_filter (λ y, y ≠ x) l). simpl. lia.
  - rewrite filter_cons. case_decide; simpl; lia.
Qed.

Lemma Set_has_true s x : Set_has s x = true ↔ x ∈ s.
Proof. unfold Set_has. apply bool_decide_eq_true. Qed.

(** ** [initEdgeWeights] *)

Lemma forEachM_Ok {A B} (f : A → result B) l l' :
  forEachM f l = Ok l' ↔ Forall2 (λ x y, f x = Ok y) l l'.
Proof.
  revert l'. induction l as [|x l IH]; intros l'; simpl.
  - split; [intros [= <-]; constructor|by inversion 1].
  - destruct (f x) as [y|] eqn:Hx; simpl.
    + destruct (forEachM f l) as [ys|] eqn:Hl; simpl.
      * split.
        -- intros [= <-]. constructor; [done|by apply IH].
        -- inversion 1 as [|? y' ? ys' Hy Hys]; subst.
           rewrite Hx in Hy. injection Hy as <-.
           apply IH in Hys. by injection Hys as <-.
      * split; [done|]. inversion 1 as [|? y' ? ys' Hy Hys]; subst.
        by apply IH in Hys.
    + split; [done|]. inversion 1 as [|? y' ? ys' Hy Hys]; subst.
      by rewrite Hx in Hy.
Qed.

Lemma setWeight_Ok timePeriod e e' :
  setWeight timePeriod e = Ok e' ↔
  ∃ f, Edge.flow e = Some f ∧
    e' = Edge.mk (Edge.from e) (Edge.to e) (Edge.distance e) (Edge.flow e)
           (Number (weightOf (Edge.distance e) (usedFlowRate f timePeriod))).
Proof.
  unfold setWeight, flowRate.
  destruct (Edge.flow e) as [f|]; simpl.
  - split; [intros [= <-]; eauto|by intros (? & [= <-] & ->)].
  - split; [done|]. by intros (? & ? & _).
Qed.

(** The copy that [JSON] makes differs from the graph in weights alone, and
    these are written over. *)
Lemma setWeight_jsonEdge timePeriod e :
  setWeight timePeriod (jsonEdge e) = setWeight timePeriod e.
Proof. done. Qed.

Lemma forEachM_fmap {A B C} (f : B → result C) (g : A → B) l :
  forEachM f (g <$> l) = forEachM (f ∘ g) l.
Proof.
  induction l as [|x l IH]; [done|]. rewrite fmap_cons. cbn [forEachM].
  by rewrite IH.
Qed.

Lemma initEdgeWeights_eq g timePeriod :
  initEdgeWeights g timePeriod =
    rbind (forEachM (setWeight timePeriod) (Graph.edges g)) (λ es,
      Ok (Graph.mk (Graph.nodes g) es)).
Proof. unfold initEdgeWeights. simpl. by rewrite forEachM_fmap. Qed.

Lemma initEdgeWeights_Ok g timePeriod g' :
  initEdgeWeights g timePeriod = Ok g' ↔
  Graph.nodes g' = Graph.nodes g ∧
  Forall2 (λ e e', setWeight timePeriod e = Ok e')
    (Graph.edges g) (Graph.edges g').
Proof.
  rewrite initEdgeWeights_eq.
  destruct (forEachM _ _) as [es|] eqn:Hes; simpl.
  - apply forEachM_Ok in Hes. split.
    + by intros [= <-].
    + intros [Hn Hf]. apply forEachM_Ok in Hf. destruct g' as [ns es'].
      simpl in *. subst ns.
      assert (Ok es = Ok es') as [= ->]; [|done].
      apply forEachM_Ok in Hes. by rewrite <- Hes, <- Hf.
  - split; [done|]. intros [_ Hf]. apply forEachM_Ok in Hf. congruence.
Qed.

Lemma forEachM_Throw {A B} (f : A → result B) l err :
  forEachM f l = Throw err ↔ ∃ a, a ∈ l ∧ f a = Throw err.
Proof.
  induction l as [|x l IH]; simpl.
  - split; [done|]. by intros (a & ?%elem_of_nil & _).
  - destruct (f x) as [y|err'] eqn:Hx; simpl.
    + destruct (forEachM f l) as [ys|err''] eqn:Hl; simpl.
      * split; [done|]. intros (a & [->|Ha]%elem_of_cons & Hf); [congruence|].
        assert (Ok ys = Throw err) as Habs; [|done]. apply IH. eauto.
      * rewrite IH. split.
        -- intros (a & Ha & Hf). exists a. split; [|done].
           apply elem_of_cons. by right.
        -- intros (a & [->|Ha]%elem_of_cons & Hf); [congruence|eauto].
    + split.
      * intros [= <-]. exists x. split; [|done]. apply elem_of_cons. by left.
      * intros (a & Ha & Hf). f_equal.
        assert (∀ b, f b = Throw err → err = TypeError) as Hty
          by (by destruct err).
        by destruct err, err'.
Qed.

Lemma setWeight_Throw timePeriod e err :
  setWeight timePeriod e = Throw err ↔ Edge.flow e = None ∧ err = TypeError.
Proof.
  unfold setWeight, flowRate. destruct (Edge.flow e); simpl.
  - split; [done|]. by intros [? _].
  - split; [intros [= <-]|intros [_ ->]]; done.
Qed.

Lemma initEdgeWeights_Throw g timePeriod :
  initEdgeWeights g timePeriod = Throw TypeError ↔
  ∃ e, e ∈ Graph.edges g ∧ Edge.flow e = None.
Proof.
  rewrite initEdgeWeights_eq.
  destruct (forEachM _ _) as [es|err] eqn:Hes; simpl.
  - split; [done|]. intros (e & He & Hf).
    assert (Ok es = Throw TypeError) as Habs; [|done].
    rewrite <- Hes. apply forEachM_Throw. exists e. split; [done|].
    by apply setWeight_Throw.
  - destruct err. split; [|done]. intros _.
    apply forEachM_Throw in Hes as (e & He & [Hf _]%setWeight_Throw). eauto.
Qed.

(** C2 (evaluation at the failing input): a flow coefficient that is present
    and equal to 0 is replaced by 0.2. On the chain A→B→C with distances 1 and
    2 and coefficient 0 the weights are 1.2 and 2.4 instead of 1 and 2, and
    the total weight from A to C is 3.5999999999999996 instead of 3. *)
Lemma initEdgeWeights_zero_coefficient :
  weightsOf (initEdgeWeights zeroFlowGraph "noon")
    = [Number (Num (q 12 10)); Number (Num (q 24 10))] ∧
  totalWeightOf 10 1 3 (initEdgeWeights zeroFlowGraph "noon")
    = Some (Num (q 35999999999999996 10000000000000000)).
Proof. split; evaluate. Qed.

(** C6 (counterexample): an edge without a flow mapping makes
    [initEdgeWeights] throw a [TypeError] instead of defaulting. *)
Lemma initEdgeWeights_absent_flow_throws :
  initEdgeWeights noFlowGraph "morning" = Throw TypeError.
Proof. reflexivity. Qed.

(** C6 (amended): on a graph whose edges all carry a flow mapping,
    [initEdgeWeights] does not throw for any period: it returns a graph with
    the same nodes whose edges are the input's edges, each with a number for
    its weight. Where the period is no key of the mapping, that number is
    [distance * (1 + 0.2)], unless the period is the name of a member of
    [Object.prototype]: then it is [NaN]. On a graph with an edge that has no
    flow mapping it throws a [TypeError]. *)
Theorem initEdgeWeights_succeeds_with_flow (g : Graph.t) (timePeriod : string) :
  ((∀ e, e ∈ Graph.edges g → is_Some (Edge.flow e)) →
   ∃ g', initEdgeWeights g timePeriod = Ok g' ∧
     Graph.nodes g' = Graph.nodes g ∧
     Forall2 (λ e e',
         Edge.from e' = Edge.from e ∧ Edge.to e' = Edge.to e ∧
         Edge.distance e' = Edge.distance e ∧ Edge.flow e' = Edge.flow e ∧
         (∃ w, Edge.weight e' = Number w) ∧
         ∀ f, Edge.flow e = Some f → f !! timePeriod = None →
           (timePeriod ∉ objectPrototypeKeys →
            Edge.weight e' =
              Number (jsmul (Num (Edge.distance e))
                        (jsadd (Num (Q2Qc 1)) (Num defaultFlowRate)))) ∧
           (timePeriod ∈ objectPrototypeKeys →
            Edge.weight e' = Number NaN))
       (Graph.edges g) (Graph.edges g')) ∧
  ((∃ e, e ∈ Graph.edges g ∧ Edge.flow e = None) →
   initEdgeWeights g timePeriod = Throw TypeError).
Proof.
  split; [|by apply initEdgeWeights_Throw].
  intros Hflow.
  assert (∃ es, Forall2 (λ e e', setWeight timePeriod e = Ok e')
                  (Graph.edges g) es) as [es Hes].
  { induction (Graph.edges g) as [|e l IH]; [by exists []|].
    destruct IH as [es Hes]; [intros; apply Hflow; by right|].
    destruct (Hflow e) as [f Hf]; [by left|].
    eexists (_ :: es). constructor; [|done].
    apply setWeight_Ok. eauto. }
  exists (Graph.mk (Graph.nodes g) es). split_and!; [|done|].
  - by apply initEdgeWeights_Ok.
  - cbn [Graph.edges]. eapply Forall2_impl; [exact Hes|].
    intros e e' (f & Hf & ->)%setWeight_Ok.
    cbn [Edge.from Edge.to Edge.distance Edge.flow Edge.weight].
    split_and!; [reflexivity..|by eexists|].
    intros f' Hf' Hnone. assert (f' = f) as -> by congruence.
    unfold usedFlowRate. rewrite Hnone.
    split; intros Hkey; [by rewrite decide_False|by rewrite decide_True].
Qed.

Lemma initEdgeWeights_succeeds_with_flow_witness :
  ∃ g', initEdgeWeights demoGraph "evening" = Ok g' ∧
    weightsOf (Ok g') = [Number (Num (q 12 1)); Number (Num (q 6 1))].
Proof.
  destruct (proj1 (initEdgeWeights_succeeds_with_flow demoGraph "evening"))
    as (g' & Hg' & _).
  - intros e He. vm_compute in He.
    repeat (apply elem_of_cons in He as [->|He]; [by eexists|]).
    by apply elem_of_nil in He.
  - exists g'. split; [done|]. rewrite <- Hg'. evaluate.
Defined.

(** C8 (evaluation at the failing input): raising the coefficient of the only
    edge from 0 to 0.1 lowers the total weight from 12 to 11, because the
    coefficient 0 is replaced by 0.2. *)
Lemma raising_zero_coefficient_lowers_totalWeight :
  (q 0 1 < q 1 10)%Qc ∧
  totalWeightOf 5 1 2 (initEdgeWeights (oneEdgeGraph (q 0 1)) "morning")
    = Some (Num (q 12 1)) ∧
  totalWeightOf 5 1 2 (initEdgeWeights (oneEdgeGraph (q 1 10)) "morning")
    = Some (Num (q 11 1)) ∧
  (q 11 1 < q 12 1)%Qc.
Proof. split_and!; [by vm_compute|evaluate|evaluate|by vm_compute]. Qed.

(** ** The tables at the start of the search *)

Lemma foldl_initNode start l d p k :
  (foldl (initNode start) (d, p) l).1 !! k =
    (if decide (k ∈ Node.id <$> l) then Some (initDist start k) else d !! k) ∧
  (foldl (initNode start) (d, p) l).2 !! k =
    (if decide (k ∈ Node.id <$> l) then Some None else p !! k).
Proof.
  revert d p. induction l as [|n l IH]; intros d p.
  - rewrite !decide_False by apply not_elem_of_nil. done.
  - simpl foldl. rewrite fmap_cons.
    destruct (IH (<[Node.id n := if decide (Node.id n = start)
                                 then Num (Q2Qc 0) else Infinity]> d)
                 (<[Node.id n := None]> p)) as [-> ->].
    destruct (decide (k ∈ Node.id <$> l)) as [Hk|Hk];
      destruct (decide (k ∈ Node.id n :: (Node.id <$> l))) as [Hk'|Hk'];
      try done.
    + exfalso. apply Hk'. apply elem_of_cons. by right.
    + apply elem_of_cons in Hk' as [->|]; [|done].
      by rewrite !lookup_insert_eq.
    + rewrite !lookup_insert_ne; [done|intros <-; apply Hk', elem_of_cons;
        by left..].
Qed.

Lemma initTables_dist start g k :
  dist (initTables start g) !! k =
    if decide (k ∈ ids g) then Some (initDist start k) else None.
Proof.
  unfold initTables.
  pose proof (foldl_initNode start (Graph.nodes g) ∅ ∅ k) as [H _].
  destruct (foldl _ _ _) as [d p]. simpl in *. by rewrite H, lookup_empty.
Qed.

Lemma initTables_prev start g k :
  prev (initTables start g) !! k =
    if decide (k ∈ ids g) then Some None else None.
Proof.
  unfold initTables.
  pose proof (foldl_initNode start (Graph.nodes g) ∅ ∅ k) as [_ H].
  destruct (foldl _ _ _) as [d p]. simpl in *. by rewrite H, lookup_empty.
Qed.

Lemma initTables_unvisited start g :
  unvisited (initTables start g) = Set_new (ids g).
Proof. unfold initTables. by destruct (foldl _ _ _). Qed.

(** ** Selecting the minimum *)

Lemma jslt_trans a b c : jslt a b = true → jslt b c = true → jslt a c = true.
Proof.
  destruct a, b, c; simpl; try done.
  rewrite !Qcltb_lt. apply Qclt_trans.
Qed.

Lemma jslt_le_trans a b c : jslt a b = true → jsle b c → jslt a c = true.
Proof.
  destruct a, b, c; simpl; try done.
  rewrite !Qcltb_lt. apply Qclt_le_trans.
Qed.

Lemma foldl_minStep_Some d l m0 : ∃ m, foldl (minStep d) (Some m0) l = Some m.
Proof.
  revert m0. induction l as [|k l IH]; intros m0; simpl; [eauto|].
  destruct (jslt _ _); apply IH.
Qed.

Lemma selectMin_None d unv : selectMin d unv = None ↔ unv = [].
Proof.
  destruct unv as [|k l]; [done|]. unfold selectMin. simpl.
  destruct (foldl_minStep_Some d l k) as [m ->]. done.
Qed.

Lemma foldl_minStep_first d l pre m0 post m :
  (∀ k, k ∈ pre ++ m0 :: post ++ l → isNumber (distOf d k)) →
  (∀ k, k ∈ pre → jslt (distOf d m0) (distOf d k) = true) →
  (∀ k, k ∈ post → jsle (distOf d m0) (distOf d k)) →
  foldl (minStep d) (Some m0) l = Some m →
  ∃ l1 l2, pre ++ m0 :: post ++ l = l1 ++ m :: l2 ∧
    (∀ k, k ∈ l1 → jslt (distOf d m) (distOf d k) = true) ∧
    (∀ k, k ∈ l2 → jsle (distOf d m) (distOf d k)).
Proof.
  revert pre m0 post. induction l as [|k l IH]; intros pre m0 post Hn Hpre Hpost.
  - intros [= <-]. exists pre, post. by rewrite app_nil_r.
  - assert ((pre ++ m0 :: post) ++ k :: [] ++ l = pre ++ m0 :: post ++ k :: l)
      as E1 by (by rewrite <- app_assoc).
    assert (pre ++ m0 :: (post ++ [k]) ++ l = pre ++ m0 :: post ++ k :: l)
      as E2 by (by rewrite <- app_assoc).
    simpl. destruct (jslt (distOf d k) (distOf d m0)) eqn:Hlt; intros Hm.
    + destruct (IH (pre ++ m0 :: post) k []) as (l1 & l2 & Heq & H1 & H2);
        [| | |done|].
      * intros x Hx. apply Hn. by rewrite <- E1.
      * intros x [Hx|[->|Hx]%elem_of_cons]%elem_of_app; [|done|].
        -- eapply jslt_trans; eauto.
        -- eapply jslt_le_trans; eauto.
      * by intros x ?%elem_of_nil.
      * exists l1, l2. split; [|done]. by rewrite <- Heq, E1.
    + destruct (IH pre m0 (post ++ [k])) as (l1 & l2 & Heq & H1 & H2);
        [|done| |done|].
      * intros x Hx. apply Hn. by rewrite <- E2.
      * intros x [Hx|Hx%list_elem_of_singleton]%elem_of_app;
          [by apply Hpost|subst x].
        apply jslt_false_le; [apply Hn|apply Hn|done]; set_solver.
      * exists l1, l2. split; [|done]. by rewrite <- Heq, E2.
Qed.

(** [selectMin] returns the first node of [unv] with the least [dist]. *)
Lemma selectMin_first d unv m :
  (∀ k, k ∈ unv → isNumber (distOf d k)) →
  selectMin d unv = Some m →
  ∃ l1 l2, unv = l1 ++ m :: l2 ∧
    (∀ k, k ∈ l1 → jslt (distOf d m) (distOf d k) = true) ∧
    (∀ k, k ∈ l2 → jsle (distOf d m) (distOf d k)).
Proof.
  intros Hn. destruct unv as [|k l]; [done|]. unfold selectMin. simpl.
  intros Hm.
  destruct (foldl_minStep_first d l [] k [] m) as (l1 & l2 & Heq & H1 & H2);
    try done; [by intros x ?%elem_of_nil..|].
  exists l1, l2. by rewrite <- Heq.
Qed.

Lemma selectMin_elem d unv m : selectMin d unv = Some m → m ∈ unv.
Proof.
  unfold selectMin.
  assert (∀ o, foldl (minStep d) o unv = Some m → o = Some m ∨ m ∈ unv) as H.
  { induction unv as [|k l IH]; intros o; simpl; [auto|].
    intros [Ho|Hl]%IH; [|right; apply elem_of_cons; by right].
    destruct o as [m0|]; simpl in Ho.
    - destruct (jslt _ _); injection Ho as <-; [right|by left].
      apply elem_of_cons. by left.
    - injection Ho as <-. right. apply elem_of_cons. by left. }
  intros [?|?]%H; done.
Qed.

(** ** The search loop *)

Lemma relax_unvisited g m st : unvisited (relax g m st) = unvisited st.
Proof. unfold relax. by destruct (foldl _ _ _). Qed.

Lemma search_terminates g end_ fuel st :
  (length (unvisited st) < fuel)%nat → is_Some (search fuel end_ g st).
Proof.
  revert st. induction fuel as [|fuel IH]; intros st Hlen; [lia|].
  simpl. destruct (unvisited st) as [|k l] eqn:Hu; [done|].
  destruct (selectMin _ _) as [m|] eqn:Hm; [|done].
  destruct (isInfinity _); [done|]. case_decide; [done|].
  apply IH. rewrite relax_unvisited. simpl. rewrite Hu.
  apply selectMin_elem, length_Set_delete in Hm. simpl in *. lia.
Qed.

Lemma search_exits start end_ g fuel st st' :
  reachable start end_ g st →
  search fuel end_ g st = Some st' →
  ∃ st0, reachable start end_ g st0 ∧ exits end_ st0 st'.
Proof.
  revert st. induction fuel as [|fuel IH]; intros st Hr; [done|].
  simpl. destruct (unvisited st) as [|k l] eqn:Hu.
  { intros [= <-]. exists st. split; [done|]. by apply exit_empty. }
  rewrite <- Hu.
  destruct (selectMin _ _) as [m|] eqn:Hm.
  - destruct (isInfinity _) eqn:Hinf.
    { intros [= <-]. exists st. split; [done|]. by eapply exit_unreached. }
    case_decide as Hend.
    + intros [= <-]. subst m. exists st. split; [done|]. by apply exit_found.
    + apply IH. apply reach_step; try done. by rewrite Hu.
  - apply selectMin_None in Hm. congruence.
Qed.

Lemma search_fuel_mono g end_ fuel fuel' st st' :
  search fuel end_ g st = Some st' → (fuel ≤ fuel')%nat →
  search fuel' end_ g st = Some st'.
Proof.
  revert fuel' st. induction fuel as [|fuel IH]; intros fuel' st; [done|].
  intros Hs Hle. destruct fuel' as [|fuel']; [lia|].
  simpl in *. destruct (unvisited st); [done|].
  destruct (selectMin _ _); [|done].
  destruct (isInfinity _); [done|]. case_decide; [done|].
  apply IH; [done|lia].
Qed.

(** ** Walking back along [prev] *)

Lemma backtrack_undefined fuel p path : backtrack fuel p VUndef path = None.
Proof. revert path. induction fuel as [|fuel IH]; intros path; simpl; auto. Qed.

Lemma backtrack_missing fuel p k path :
  p !! k = None → backtrack fuel p (VId k) path = None.
Proof.
  intros Hk. destruct fuel as [|fuel]; [done|]. simpl. rewrite Hk.
  apply backtrack_undefined.
Qed.

Lemma backtrack_chain p v l :
  chain p v l →
  ∀ path fuel, (length l < fuel)%nat →
    backtrack fuel p (VId v) path = Some ((VId <$> l) ++ path).
Proof.
  induction 1 as [v Hv|v u l Hv _ IH]; intros path fuel Hlen.
  - destruct fuel as [|[|fuel]]; simpl in *; [lia..|]. by rewrite Hv.
  - destruct fuel as [|fuel]; [simpl in *; lia|]. simpl. rewrite Hv.
    rewrite IH by (rewrite length_app in Hlen; simpl in *; lia).
    by rewrite fmap_app, <- app_assoc.
Qed.

Lemma chain_insert p v l k x :
  chain p v l → k ∉ l → chain (<[k := x]> p) v l.
Proof.
  induction 1 as [v Hv|v u l Hv _ IH]; intros Hk.
  - apply chain_root. rewrite lookup_insert_ne; [done|].
    intros ->. apply Hk. by apply list_elem_of_singleton.
  - apply (chain_step _ v u).
    + rewrite lookup_insert_ne; [done|].
      intros ->. apply Hk, elem_of_app. right. by apply list_elem_of_singleton.
    + apply IH. intros ?. apply Hk, elem_of_app. by left.
Qed.

(** ** Paths *)

Lemma edgePath_app g a b c es1 es2 :
  edgePath g a b es1 → edgePath g b c es2 → edgePath g a c (es1 ++ es2).
Proof.
  revert a. induction es1 as [|e es1 IH]; intros a; simpl.
  - by intros ->.
  - intros (? & ? & ? & ?) ?. split_and!; try done. by apply IH.
Qed.

Lemma edgePath_end_node g a b es : a ∈ ids g → edgePath g a b es → b ∈ ids g.
Proof.
  revert a. induction es as [|e es IH]; intros a Ha; simpl.
  - by intros <-.
  - intros (_ & _ & Hto & Hp). by eapply IH.
Qed.

Lemma vertices_snoc a es e :
  vertices a (es ++ [e]) = vertices a es ++ [Edge.to e].
Proof. unfold vertices. by rewrite fmap_app. Qed.


Lemma pathWeight_snoc es e :
  pathWeight (es ++ [e]) = jsadd (pathWeight es) (edgeWeight e).
Proof. unfold pathWeight. by rewrite foldl_app. Qed.

Lemma pathWeight_representable es : representable (pathWeight es).
Proof.
  destruct es as [|e es _] using rev_ind; [apply isDouble_zero|].
  rewrite pathWeight_snoc. apply jsadd_representable.
Qed.

Lemma edgePath_edges g a b es e :
  edgePath g a b es → e ∈ es → e ∈ Graph.edges g.
Proof.
  revert a. induction es as [|e' es IH]; intros a; simpl.
  - by intros _ ?%elem_of_nil.
  - intros (He & _ & _ & Hp) [->|Hin]%elem_of_cons; [done|]. by eapply IH.
Qed.

Lemma isInfinity_false a : isInfinity a = false ↔ a ≠ Infinity.
Proof. by destruct a. Qed.

(** ** The invariant of the search *)

Lemma distOf_lookup d k x : d !! k = Some x → distOf d k = x.
Proof. unfold distOf. by intros ->. Qed.

Lemma initTables_distOf start g k :
  k ∈ ids g → distOf (dist (initTables start g)) k = initDist start k.
Proof.
  intros Hk. apply distOf_lookup. rewrite initTables_dist.
  by rewrite decide_True.
Qed.

Lemma initDist_finite start k :
  isInfinity (initDist start k) = false → k = start.
Proof. unfold initDist. by case_decide. Qed.

Lemma Inv_init start g : Inv start g (initTables start g).
Proof.
  split.
  - intros k. rewrite initTables_dist. case_decide; [by split; eauto|].
    split; [by intros []|done].
  - intros k. rewrite initTables_prev. case_decide; [by split; eauto|].
    split; [by intros []|done].
  - intros k. rewrite initTables_unvisited. apply elem_of_Set_new.
  - intros k Hk. rewrite initTables_distOf by done.
    unfold initDist, isNumber. by case_decide.
  - done.
  - intros v. rewrite initTables_prev. case_decide as Hv; [|done]. intros _.
    rewrite initTables_distOf by done. unfold initDist.
    case_decide; auto.
  - intros v u. rewrite initTables_prev. by case_decide.
  - intros u [Hu Hn]. exfalso. apply Hn.
    rewrite initTables_unvisited. by apply elem_of_Set_new.
Qed.

Lemma selected_of_fresh start g m :
  m ∈ ids g →
  isInfinity (distOf (dist (initTables start g)) m) = false → m = start.
Proof.
  intros Hm. rewrite initTables_distOf by done. apply initDist_finite.
Qed.

Lemma Inv_visit start g st m :
  Inv start g st →
  selectMin (dist st) (unvisited st) = Some m →
  isInfinity (distOf (dist st) m) = false →
  Inv start g (visit st m).
Proof.
  intros HI Hsel Hfin.
  pose proof (selectMin_elem _ _ _ Hsel) as Hm.
  pose proof (inv_unvisited _ _ _ HI _ Hm) as Hmid.
  assert (start ∈ unvisited st → m = start) as Hfresh.
  { intros Hs. apply (inv_fresh _ _ _ HI) in Hs. rewrite Hs in Hfin.
    by eapply selected_of_fresh. }
  split; cbn [dist prev unvisited visit].
  - apply HI.
  - apply HI.
  - intros k [Hk _]%elem_of_Set_delete. by eapply inv_unvisited.
  - apply HI.
  - intros [Hs Hne]%elem_of_Set_delete. exfalso. apply Hne. symmetry.
    by apply Hfresh.
  - apply HI.
  - intros v u Hvu. destruct (inv_prev _ _ _ HI _ _ Hvu) as [[Hu Hn] He].
    split; [|done]. split; [done|].
    intros [? _]%elem_of_Set_delete. done.
  - intros u [Hu Hn].
    destruct (decide (u ∈ unvisited st)) as [Hin|Hout].
    + assert (u = m) as ->.
      { destruct (decide (u = m)); [done|]. exfalso. apply Hn.
        by apply elem_of_Set_delete. }
      destruct (decide (start ∈ unvisited st)) as [Hs|Hs].
      * pose proof (Hfresh Hs) as ->.
        apply (inv_fresh _ _ _ HI) in Hs. rewrite Hs.
        exists []. split_and!; [done| | |done|].
        -- apply chain_root. rewrite initTables_prev. by rewrite decide_True.
        -- rewrite initTables_distOf by done.
           unfold initDist. by rewrite decide_True.
        -- intros x ->%list_elem_of_singleton.
           intros [_ ?]%elem_of_Set_delete. done.
      * destruct (proj2 (inv_dom_prev _ _ _ HI m) Hmid) as [[u|] Hp].
        -- destruct (inv_prev _ _ _ HI _ _ Hp)
             as [Hvu (e & He & Hf & Ht & Hd & Hni)].
           destruct (inv_tree _ _ _ HI _ Hvu)
             as (es & Hpath & Hch & Hdu & _ & Hv).
           assert (distOf (dist st) m = pathWeight (es ++ [e])) as Hdm.
           { by rewrite pathWeight_snoc, <- Hdu. }
           exists (es ++ [e]). split_and!.
           ++ eapply edgePath_app; [done|]. simpl. by rewrite Ht.
           ++ rewrite vertices_snoc, Ht. by apply (chain_step _ m u).
           ++ done.
           ++ by rewrite <- Hdm.
           ++ rewrite vertices_snoc, Ht.
              intros y [Hy|Hy%list_elem_of_singleton]%elem_of_app.
              ** intros [? _]%elem_of_Set_delete. by eapply Hv.
              ** subst y. intros [_ ?]%elem_of_Set_delete. done.
        -- destruct (inv_null _ _ _ HI _ Hp) as [->|Hinf]; [done|].
           by rewrite Hinf in Hfin.
    + destruct (inv_tree _ _ _ HI u) as (es & Hpath & Hch & Hd & Hni & Hv);
        [done|].
      exists es. split_and!; try done.
      intros y Hy [? _]%elem_of_Set_delete. by eapply Hv.
Qed.

Lemma distOf_insert_eq d k x : distOf (<[k := x]> d) k = x.
Proof. unfold distOf. by rewrite lookup_insert_eq. Qed.

Lemma distOf_insert_ne d k k' x :
  k ≠ k' → distOf (<[k := x]> d) k' = distOf d k'.
Proof. intros ?. unfold distOf. by rewrite lookup_insert_ne. Qed.

(** An edge is relaxed when what it offers is less than what is known. *)
Lemma relaxEdge_cases m unv d p e :
  relaxEdge m unv (d, p) e = (d, p) ∨
  Edge.to e ∈ unv ∧
    jslt (jsadd (distOf d m) (edgeWeight e)) (distOf d (Edge.to e)) = true ∧
    relaxEdge m unv (d, p) e =
      (<[Edge.to e := jsadd (distOf d m) (edgeWeight e)]> d,
       <[Edge.to e := Some m]> p).
Proof.
  unfold relaxEdge. cbn [fst snd].
  destruct (Set_has unv (Edge.to e)) eqn:Hhas; cbn [negb]; [|by left].
  destruct (jslt _ _) eqn:Hlt; [|by left].
  right. split; [by apply Set_has_true|done].
Qed.

Lemma Inv_relaxEdge start g d p unv m e :
  Inv start g (mkState d p unv) →
  visited g unv m → e ∈ Graph.edges g → Edge.from e = m →
  Inv start g (mkState (relaxEdge m unv (d, p) e).1
                 (relaxEdge m unv (d, p) e).2 unv).
Proof.
  intros HI [Hmid Hmv] He Hfrom.
  destruct (relaxEdge_cases m unv d p e) as [->|(Hto & Hlt & ->)]; [done|].
  destruct (jslt_true_l _ _ Hlt) as [Hnan Hninf].
  set (v := Edge.to e) in *. set (x := jsadd (distOf d m) (edgeWeight e)) in *.
  cbn [fst snd].
  assert (v ≠ m) as Hvm by (by intros ->).
  pose proof (inv_unvisited _ _ _ HI v Hto) as Hvid.
  split; cbn [dist prev unvisited].
  - intros k. rewrite lookup_insert_is_Some.
    rewrite <- (inv_dom_dist _ _ _ HI k). cbn [dist].
    split; [intros [<-|[_ ?]]; [|done]|].
    + by apply (inv_dom_dist _ _ _ HI).
    + destruct (decide (v = k)); auto.
  - intros k. rewrite lookup_insert_is_Some.
    rewrite <- (inv_dom_prev _ _ _ HI k). cbn [prev].
    split; [intros [<-|[_ ?]]; [|done]|].
    + by apply (inv_dom_prev _ _ _ HI).
    + destruct (decide (v = k)); auto.
  - apply (inv_unvisited _ _ _ HI).
  - intros k Hk. destruct (decide (v = k)) as [<-|Hne].
    + by rewrite distOf_insert_eq.
    + rewrite distOf_insert_ne by done. by apply (inv_number _ _ _ HI).
  - intros Hs. apply (inv_fresh _ _ _ HI) in Hs. exfalso. apply Hmv.
    apply (f_equal unvisited) in Hs. cbn [unvisited] in Hs.
    rewrite Hs, initTables_unvisited. by apply elem_of_Set_new.
  - intros k. destruct (decide (v = k)) as [<-|Hne].
    + by rewrite lookup_insert_eq.
    + rewrite lookup_insert_ne by done. intros Hk.
      rewrite distOf_insert_ne by done.
      by apply (inv_null _ _ _ HI).
  - intros k u. destruct (decide (v = k)) as [<-|Hne].
    + rewrite lookup_insert_eq. intros [= <-]. split; [done|].
      exists e. rewrite distOf_insert_eq, distOf_insert_ne by done.
      by split_and!.
    + rewrite lookup_insert_ne by done. intros Hk.
      destruct (inv_prev _ _ _ HI _ _ Hk)
        as [[Hu Hn] (e' & ? & ? & ? & Hd & Hni)].
      cbn [dist prev unvisited] in *. split; [done|]. exists e'.
      rewrite !distOf_insert_ne; [by split_and!|by intros <-|done].
  - intros u [Hu Hn].
    destruct (inv_tree _ _ _ HI u) as (es & Hpath & Hch & Hd & Hni & Hv);
      [done|].
    cbn [dist prev unvisited] in *. exists es. split_and!; try done.
    + apply chain_insert; [done|]. intros ?. by eapply Hv.
    + rewrite distOf_insert_ne; [done|]. by intros <-.
Qed.

Lemma Inv_relaxEdges start g unv m es d p :
  (∀ e, e ∈ es → e ∈ Graph.edges g ∧ Edge.from e = m) →
  visited g unv m →
  Inv start g (mkState d p unv) →
  Inv start g (mkState (foldl (relaxEdge m unv) (d, p) es).1
                 (foldl (relaxEdge m unv) (d, p) es).2 unv).
Proof.
  intros Hes Hm. revert d p. induction es as [|e es IH]; intros d p HI; [done|].
  cbn [foldl]. destruct (relaxEdge m unv (d, p) e) as [d1 p1] eqn:H1.
  apply IH.
  - intros e' He'. apply Hes, elem_of_cons. by right.
  - destruct (Hes e) as [He Hf]; [apply elem_of_cons; by left|].
    pose proof (Inv_relaxEdge start g d p unv m e HI Hm He Hf) as HI'.
    by rewrite H1 in HI'.
Qed.

Lemma adjacentEdges_spec (g : Graph.t) (m : Z) (e : Edge.t) :
  e ∈ filter (λ e, Edge.from e = m) (Graph.edges g) ↔
  e ∈ Graph.edges g ∧ Edge.from e = m.
Proof. rewrite list_elem_of_filter. tauto. Qed.

Lemma Inv_relax start g st m :
  Inv start g st → visited g (unvisited st) m → Inv start g (relax g m st).
Proof.
  intros HI Hm. destruct st as [d p unv]. unfold relax. cbn [dist prev unvisited] in *.
  pose proof (Inv_relaxEdges start g unv m
    (filter (λ e, Edge.from e = m) (Graph.edges g)) d p) as H.
  destruct (foldl _ _ _) as [d' p']. apply H; [|done..].
  intros e. apply adjacentEdges_spec.
Qed.

Lemma visited_selected g st m :
  (∀ k, k ∈ unvisited st → k ∈ ids g) →
  selectMin (dist st) (unvisited st) = Some m →
  visited g (unvisited (visit st m)) m.
Proof.
  intros Hsub Hsel. split.
  - by apply Hsub, (selectMin_elem (dist st)).
  - simpl. intros [_ ?]%elem_of_Set_delete. done.
Qed.

Lemma reachable_Inv start end_ g st :
  reachable start end_ g st → Inv start g st.
Proof.
  induction 1 as [|st m _ IH _ Hsel Hfin _]; [apply Inv_init|].
  apply Inv_relax; [by apply Inv_visit|].
  apply visited_selected; [|done]. apply (inv_unvisited _ _ _ IH).
Qed.

(** The tables the loop is left with satisfy the invariant. *)
Lemma exits_Inv start end_ g st st' :
  Inv start g st → exits end_ st st' → Inv start g st'.
Proof. intros HI. destruct 1; [done..|]. by apply Inv_visit. Qed.

(** ** Runs of [dijkstra] *)

Lemma selectMin_le d unv m k :
  (∀ k, k ∈ unv → isNumber (distOf d k)) →
  selectMin d unv = Some m → k ∈ unv → jsle (distOf d m) (distOf d k).
Proof.
  intros Hn Hsel Hk.
  destruct (selectMin_first d unv m Hn Hsel) as (l1 & l2 & -> & H1 & H2).
  apply elem_of_app in Hk as [Hk|[->|Hk]%elem_of_cons].
  - by apply jslt_true_le, H1.
  - apply jsle_refl, Hn, elem_of_app. right. by apply elem_of_cons; left.
  - by apply H2.
Qed.

Lemma dijkstra_eq fuel start end_ g st l :
  search fuel end_ g (initTables start g) = Some st →
  chain (prev st) end_ l →
  (length l < fuel)%nat →
  dijkstra fuel start end_ g = Some (resultOf start end_ g st (VId <$> l)).
Proof.
  intros Hs Hch Hlen. unfold dijkstra. rewrite Hs. simpl.
  rewrite (backtrack_chain _ _ _ Hch) by done. simpl.
  by rewrite app_nil_r.
Qed.

(** Without a node [end_] the walk along [prev] reads [undefined] and never
    meets [null]: no amount of fuel lets [dijkstra] return. *)
Lemma dijkstra_without_end fuel start end_ g :
  end_ ∉ ids g → dijkstra fuel start end_ g = None.
Proof.
  intros Hend. unfold dijkstra.
  destruct (search _ _ _ _) as [st|] eqn:Hs; [|done]. simpl.
  destruct (search_exits start end_ g fuel _ st (reach_init _ _ _) Hs)
    as (st0 & Hr & Hex).
  pose proof (exits_Inv _ _ _ _ _ (reachable_Inv _ _ _ _ Hr) Hex) as HI.
  rewrite backtrack_missing; [done|].
  apply eq_None_not_Some. by rewrite (inv_dom_prev _ _ _ HI).
Qed.

(** The search from the initial tables when no node has the id [start]. *)
Lemma search_without_start fuel start end_ g :
  start ∉ ids g → (1 ≤ fuel)%nat →
  search fuel end_ g (initTables start g) = Some (initTables start g).
Proof.
  intros Hstart Hfuel. destruct fuel as [|fuel]; [lia|]. simpl.
  destruct (unvisited _) as [|k l] eqn:Hu; [done|]. rewrite <- Hu.
  destruct (selectMin _ _) as [m|] eqn:Hm; [|done].
  destruct (isInfinity _) eqn:Hinf; [done|].
  exfalso. apply Hstart.
  assert (m ∈ ids g) as Hmid.
  { apply selectMin_elem in Hm. rewrite initTables_unvisited in Hm.
    by apply elem_of_Set_new. }
  by rewrite <- (selected_of_fresh start g m).
Qed.

(** The search from the initial tables when [start] is also the target. *)
Lemma search_start_is_end fuel start g :
  start ∈ ids g → (1 ≤ fuel)%nat →
  search fuel start g (initTables start g)
    = Some (visit (initTables start g) start).
Proof.
  intros Hstart Hfuel. destruct fuel as [|fuel]; [lia|]. simpl.
  pose proof (Inv_init start g) as HI.
  assert (start ∈ unvisited (initTables start g)) as Hsu.
  { rewrite initTables_unvisited. by apply elem_of_Set_new. }
  destruct (unvisited _) as [|k l] eqn:Hu; [by apply elem_of_nil in Hsu|].
  rewrite <- Hu in *.
  destruct (selectMin _ _) as [m|] eqn:Hm;
    [|apply selectMin_None in Hm; congruence].
  assert (m ∈ ids g) as Hmid.
  { by apply (inv_unvisited _ _ _ HI), (selectMin_elem _ _ _ Hm). }
  assert (isInfinity (distOf (dist (initTables start g)) m) = false) as Hfin.
  { pose proof (selectMin_le _ _ m start
      (λ k Hk, inv_number _ _ _ HI k (inv_unvisited _ _ _ HI k Hk)) Hm Hsu)
      as Hle.
    rewrite (initTables_distOf start g start) in Hle by done.
    unfold initDist in Hle. rewrite decide_True in Hle by done.
    by destruct (distOf _ m). }
  rewrite Hfin. rewrite (selected_of_fresh start g m Hmid Hfin).
  by rewrite decide_True.
Qed.

(** C3 (evaluation at the failing input): with the node 1 alone and the
    target 2, [dijkstra] never returns, whatever fuel it is given. *)
Lemma dijkstra_missing_end_never_returns :
  neverReturns (λ fuel, dijkstra fuel 1 2 loneGraph).
Proof.
  intros fuel. apply dijkstra_without_end.
  by intros ?%list_elem_of_singleton.
Qed.

(** C5 (counterexample): with [start == end] an id that no node has,
    [dijkstra] does not return [path == [start]]: it never returns. *)
Lemma dijkstra_same_missing_node_never_returns :
  neverReturns (λ fuel, dijkstra fuel 7 7 loneGraph).
Proof.
  intros fuel. apply dijkstra_without_end.
  by intros ?%list_elem_of_singleton.
Qed.

(** C5 (amended): for every graph and every id of one of its nodes,
    [dijkstra(id, id, graph)] returns the path [[id]] with total weight 0 and
    total distance 0. *)
Theorem dijkstra_start_is_end (g : Graph.t) (start : Z) (fuel : nat) :
  start ∈ ids g → (2 ≤ fuel)%nat →
  dijkstra fuel start start g =
    Some (mkResult [VId start] (Num (Q2Qc 0)) (Num (Q2Qc 0))
            [Map_new (Graph.nodes g) !! start]).
Proof.
  intros Hstart Hfuel.
  rewrite (dijkstra_eq fuel start start g
             (visit (initTables start g) start) [start]).
  - unfold resultOf. simpl. rewrite bool_decide_eq_true_2 by done. simpl.
    rewrite (initTables_distOf start g start Hstart). unfold initDist.
    by rewrite decide_True.
  - apply search_start_is_end; [done|lia].
  - apply chain_root. simpl. rewrite initTables_prev. by rewrite decide_True.
  - simpl. lia.
Qed.

Lemma dijkstra_start_is_end_witness :
  dijkstra 2 2 2 demoGraph =
    Some (mkResult [VId 2] (Num (Q2Qc 0)) (Num (Q2Qc 0))
            [Map_new (Graph.nodes demoGraph) !! 2]).
Proof.
  apply (dijkstra_start_is_end demoGraph 2 2); [|lia].
  apply elem_of_cons. right. apply elem_of_cons. by left.
Defined.

(** C10: when no node has the id [start] and [end_] is the id of a node,
    [dijkstra] returns, and what it returns is the no-path result: empty
    [path] and [pathNodes], [totalWeight] [Infinity], [totalDistance] 0. *)
Theorem dijkstra_missing_start (g : Graph.t) (start end_ : Z) (fuel : nat) :
  start ∉ ids g → end_ ∈ ids g → start ≠ end_ → (2 ≤ fuel)%nat →
  dijkstra fuel start end_ g =
    Some (mkResult [] Infinity (Num (Q2Qc 0)) []).
Proof.
  intros Hstart Hend Hne Hfuel.
  rewrite (dijkstra_eq fuel start end_ g (initTables start g) [end_]).
  - unfold resultOf. simpl. by rewrite bool_decide_eq_false_2.
  - apply search_without_start; [done|lia].
  - apply chain_root. rewrite initTables_prev. by rewrite decide_True.
  - simpl. lia.
Qed.

Lemma dijkstra_missing_start_witness :
  dijkstra 2 9 3 demoGraph = Some (mkResult [] Infinity (Num (Q2Qc 0)) []).
Proof.
  apply (dijkstra_missing_start demoGraph 9 3 2); [| |done|lia].
  - cbn. intros H.
    repeat (apply elem_of_cons in H as [H|H]; [done|]).
    by apply elem_of_nil in H.
  - do 2 (apply elem_of_cons; right). apply elem_of_cons. by left.
Defined.

(** ** The order in which ties are broken *)

Lemma jslt_irrefl a : jslt a a = false.
Proof.
  destruct a; simpl; try done. apply Qcltb_ge, Qcle_refl.
Qed.

Lemma filter_all {A} (P : A → Prop) `{∀ x, Decision (P x)} (l : list A) :
  (∀ x, P x) → filter P l = l.
Proof.
  intros HP. induction l as [|x l IH]; [done|].
  by rewrite filter_cons_True, IH.
Qed.

Lemma split_first_unique {A} (l1 l1' l2 l2' : list A) (x : A) :
  l1 ++ x :: l2 = l1' ++ x :: l2' → x ∉ l1 → x ∉ l1' → l1 = l1'.
Proof.
  revert l1'. induction l1 as [|y l1 IH]; intros [|y' l1']; simpl.
  - done.
  - intros [= <- _] _ Hx. exfalso. apply Hx, elem_of_cons. by left.
  - intros [= -> _] Hx _. exfalso. apply Hx, elem_of_cons. by left.
  - intros [= <- Heq] Hx Hx'. f_equal. apply IH; [done|..].
    + intros ?. apply Hx, elem_of_cons. by right.
    + intros ?. apply Hx', elem_of_cons. by right.
Qed.

Lemma foldl_Set_add_prefix l s : ∃ t, foldl Set_add s l = s ++ t.
Proof.
  revert s. induction l as [|x l IH]; intros s; simpl.
  - exists []. by rewrite app_nil_r.
  - destruct (IH (Set_add s x)) as [t ->]. unfold Set_add.
    case_decide; [by exists t|]. exists (x :: t). by rewrite <- app_assoc.
Qed.

(** Up to its first occurrence in [l], an element is preceded in
    [Set_new l] by elements that precede it in [l]. *)
Lemma Set_new_split l1 x l2 :
  x ∉ l1 → ∃ t, Set_new (l1 ++ x :: l2) = Set_new l1 ++ x :: t.
Proof.
  intros Hx. unfold Set_new. rewrite foldl_app. simpl.
  fold (Set_new l1).
  destruct (foldl_Set_add_prefix l2 (Set_add (Set_new l1) x)) as [t ->].
  unfold Set_add. rewrite decide_False by (by rewrite elem_of_Set_new).
  exists t. by rewrite <- app_assoc.
Qed.

Lemma reachable_unvisited start end_ g st :
  reachable start end_ g st →
  ∃ del : list Z, unvisited st = filter (λ x, x ∉ del) (Set_new (ids g)).
Proof.
  induction 1 as [|st m _ [del IH] _ _ _ _].
  - exists []. rewrite initTables_unvisited. symmetry. apply filter_all.
    intros x. apply not_elem_of_nil.
  - exists (m :: del). rewrite relax_unvisited. simpl. rewrite IH.
    unfold Set_delete. rewrite list_filter_filter. apply list_filter_iff.
    intros x. rewrite (not_elem_of_cons del). tauto.
Qed.

(** C9: at every head of the search loop the node that [selectMin] picks is
    unvisited, no unvisited node has a smaller [dist], and no unvisited node
    with the same [dist] comes before its first occurrence in [graph.nodes]. *)
Theorem selectMin_breaks_ties_by_node_order
    (g : Graph.t) (start end_ : Z) (st : State) (m : Z) :
  reachable start end_ g st →
  selectMin (dist st) (unvisited st) = Some m →
  m ∈ unvisited st ∧
  (∀ k, k ∈ unvisited st → jsle (distOf (dist st) m) (distOf (dist st) k)) ∧
  ∃ l1 l2, ids g = l1 ++ m :: l2 ∧ (m ∉ l1) ∧
    (∀ k, k ∈ unvisited st → distOf (dist st) k = distOf (dist st) m → k ∉ l1).
Proof.
  intros Hr Hsel.
  pose proof (reachable_Inv _ _ _ _ Hr) as HI.
  pose proof (selectMin_elem _ _ _ Hsel) as Hm.
  assert (∀ k, k ∈ unvisited st → isNumber (distOf (dist st) k)) as Hn.
  { intros k Hk. by apply (inv_number _ _ _ HI), (inv_unvisited _ _ _ HI). }
  split; [done|]. split; [intros k; by apply selectMin_le|].
  destruct (list_elem_of_split_l (ids g) m) as (l1 & l2 & Hids & Hl1);
    [by apply (inv_unvisited _ _ _ HI)|].
  exists l1, l2. split; [done|]. split; [done|].
  intros k Hk Htie Hkl1.
  destruct (selectMin_first _ _ _ Hn Hsel) as (u1 & u2 & Hu & Hlt & _).
  destruct (reachable_unvisited _ _ _ _ Hr) as [del Hdel].
  destruct (Set_new_split l1 m l2 Hl1) as [t Ht].
  rewrite Hids, Ht, filter_app in Hdel.
  assert (m ∉ del) as Hmdel.
  { rewrite Hdel in Hm. apply elem_of_app in Hm as [Hm|Hm].
    - by apply list_elem_of_filter in Hm as [? _].
    - rewrite filter_cons in Hm. case_decide; [done|].
      by apply list_elem_of_filter in Hm as [? _]. }
  rewrite filter_cons_True in Hdel by done.
  assert (u1 = filter (λ x, x ∉ del) (Set_new l1)) as ->.
  { eapply split_first_unique.
    - by rewrite <- Hu, <- Hdel.
    - intros Hin. apply Hlt in Hin. by rewrite jslt_irrefl in Hin.
    - rewrite list_elem_of_filter, elem_of_Set_new. tauto. }
  assert (k ∉ del) as Hkdel.
  { rewrite Hdel in Hk. apply elem_of_app in Hk as [Hk|Hk].
    - by apply list_elem_of_filter in Hk as [? _].
    - apply elem_of_cons in Hk as [->|Hk]; [done|].
      by apply list_elem_of_filter in Hk as [? _]. }
  assert (jslt (distOf (dist st) m) (distOf (dist st) k) = true) as Hstrict.
  { apply Hlt. rewrite list_elem_of_filter, elem_of_Set_new. done. }
  by rewrite Htie, jslt_irrefl in Hstrict.
Qed.

Lemma selectMin_breaks_ties_by_node_order_witness :
  1 ∈ unvisited (initTables 9 demoGraph) ∧
  ∃ l1 l2, ids demoGraph = l1 ++ 1 :: l2 ∧ 1 ∉ l1.
Proof.
  destruct (selectMin_breaks_ties_by_node_order demoGraph 9 3
              (initTables 9 demoGraph) 1)
    as (H1 & _ & l1 & l2 & Hids & Hl1 & _).
  - apply reach_init.
  - reflexivity.
  - split; [done|]. by exists l1, l2.
Defined.

(** ** Leaving the search *)

Lemma search_from_init start end_ g :
  ∃ st st0,
    reachable start end_ g st0 ∧ exits end_ st0 st ∧ Inv start g st ∧
    ∀ fuel, (length (Set_new (ids g)) < fuel)%nat →
      search fuel end_ g (initTables start g) = Some st.
Proof.
  destruct (search_terminates g end_ (S (length (Set_new (ids g))))
              (initTables start g)) as [st Hst].
  { rewrite initTables_unvisited. lia. }
  destruct (search_exits start end_ g _ _ st (reach_init _ _ _) Hst)
    as (st0 & Hr & Hex).
  exists st, st0. split_and!; [done..| |].
  - eapply exits_Inv; [|done]. by eapply reachable_Inv.
  - intros fuel Hfuel. eapply search_fuel_mono; [done|lia].
Qed.

(** From a node, [prev] leads back either along a path from [start] or, for
    an unvisited node that was never reached, nowhere. *)
Lemma Inv_chain start g st v :
  Inv start g st → v ∈ ids g →
  (∃ es, edgePath g start v es ∧ chain (prev st) v (vertices start es)) ∨
  (chain (prev st) v [v] ∧ v ∈ unvisited st).
Proof.
  intros HI Hv. destruct (decide (v ∈ unvisited st)) as [Hin|Hout].
  - destruct (proj2 (inv_dom_prev _ _ _ HI v) Hv) as [[u|] Hp].
    + left. destruct (inv_prev _ _ _ HI _ _ Hp)
        as [Hvu (e & He & Hf & Ht & _)].
      destruct (inv_tree _ _ _ HI _ Hvu) as (es & Hpath & Hch & _).
      exists (es ++ [e]). split.
      * eapply edgePath_app; [done|]. simpl. by rewrite Ht.
      * rewrite vertices_snoc, Ht. by apply (chain_step _ v u).
    + right. split; [by apply chain_root|done].
  - left. destruct (inv_tree _ _ _ HI v) as (es & Hpath & Hch & _); [done|].
    by exists es.
Qed.

(** With a node [end_], [dijkstra] returns once it has enough fuel. *)
Lemma dijkstra_terminates start end_ g :
  end_ ∈ ids g →
  ∃ n r, ∀ fuel, (n ≤ fuel)%nat → dijkstra fuel start end_ g = Some r.
Proof.
  intros Hend.
  destruct (search_from_init start end_ g) as (st & st0 & _ & _ & HI & Hs).
  assert (∃ l, chain (prev st) end_ l) as [l Hl].
  { destruct (Inv_chain start g st end_ HI Hend) as [(es & _ & ?)|[? _]];
      eauto. }
  exists (S (length (Set_new (ids g)) + length l)),
    (resultOf start end_ g st (VId <$> l)).
  intros fuel Hfuel. apply dijkstra_eq; [|done|lia]. apply Hs. lia.
Qed.

(** With a node [end_] that no path reaches, [dijkstra] returns the no-path
    result. *)
Lemma dijkstra_unreachable start end_ g :
  end_ ∈ ids g → (∀ es, ¬ edgePath g start end_ es) →
  ∃ n, ∀ fuel, (n ≤ fuel)%nat → dijkstra fuel start end_ g = Some noPath.
Proof.
  intros Hend Hno.
  destruct (search_from_init start end_ g) as (st & st0 & _ & _ & HI & Hs).
  destruct (Inv_chain start g st end_ HI Hend) as [(es & Hes & _)|[Hch _]];
    [by apply Hno in Hes|].
  exists (S (S (length (Set_new (ids g))))). intros fuel Hfuel.
  rewrite (dijkstra_eq fuel start end_ g st [end_]); [|apply Hs; lia|done|].
  - unfold resultOf. simpl. rewrite bool_decide_eq_false_2; [done|].
    intros ->. by apply (Hno []).
  - simpl. lia.
Qed.

(** C4 (evaluation at the failing input): no path leads from node 1 to the
    id 2, which no node has, and [dijkstra] does not return the no-path
    result: it never returns. *)
Lemma dijkstra_no_path_to_missing_end :
  (∀ es, ¬ edgePath loneGraph 1 2 es) ∧
  neverReturns (λ fuel, dijkstra fuel 1 2 loneGraph).
Proof.
  split.
  - intros [|e es]; simpl; [done|]. intros (He & _). by apply elem_of_nil in He.
  - intros fuel. apply dijkstra_without_end.
    by intros ?%list_elem_of_singleton.
Qed.

(** ** Relaxation with non-negative weights *)

(** Along edges without negative weights the sum does not go down. *)
Lemma foldl_inflate (es : list Edge.t) acc :
  representable acc → jsle (Num (Q2Qc 0)) acc →
  (∀ e, e ∈ es → jsle (Num (Q2Qc 0)) (edgeWeight e)) →
  jsle acc (foldl (λ a e, jsadd a (edgeWeight e)) acc es).
Proof.
  revert acc. induction es as [|e es IH]; intros acc Hrep H0 Hw; cbn [foldl].
  - by apply jsle_refl, (jsle_isNumber _ _ H0).
  - assert (jsle (Num (Q2Qc 0)) (edgeWeight e)) as He
      by (apply Hw, elem_of_cons; by left).
    eapply jsle_trans; [by apply jsadd_inflate|].
    apply IH; [apply jsadd_representable|by apply jsadd_nonneg|].
    intros e' He'. apply Hw, elem_of_cons. by right.
Qed.

Lemma relaxEdge_spec m unv d p e d1 p1 :
  m ∉ unv → representable (distOf d m) →
  jsle (Num (Q2Qc 0)) (distOf d m) → jsle (Num (Q2Qc 0)) (edgeWeight e) →
  (∀ k, k ∈ unv → isNumber (distOf d k)) →
  relaxEdge m unv (d, p) e = (d1, p1) →
  (∀ k, k ∉ unv → d1 !! k = d !! k) ∧
  (∀ k, k ∈ unv → jsle (distOf d1 k) (distOf d k)) ∧
  (∀ k, distOf d1 k = distOf d k ∨ jsle (distOf d m) (distOf d1 k)) ∧
  (Edge.to e ∈ unv →
     jsle (distOf d1 (Edge.to e)) (jsadd (distOf d m) (edgeWeight e))).
Proof.
  intros Hm Hrep H0 Hw Hn. unfold relaxEdge. cbn [fst snd].
  pose proof (jsadd_inflate _ _ Hrep H0 Hw) as Hinf.
  set (x := jsadd (distOf d m) (edgeWeight e)) in *.
  assert (isNumber x) as Hx by apply (jsle_isNumber _ _ Hinf).
  destruct (Set_has unv (Edge.to e)) eqn:Hhas; cbn [negb].
  - apply Set_has_true in Hhas.
    destruct (jslt x (distOf d (Edge.to e))) eqn:Hlt; intros [= <- <-].
    + split_and!.
      * intros k Hk. rewrite lookup_insert_ne; [done|]. by intros <-.
      * intros k Hk. destruct (decide (Edge.to e = k)) as [<-|Hne].
        -- rewrite distOf_insert_eq. by apply jslt_true_le.
        -- rewrite distOf_insert_ne by done. by apply jsle_refl, Hn.
      * intros k. destruct (decide (Edge.to e = k)) as [<-|Hne].
        -- rewrite distOf_insert_eq. by right.
        -- rewrite distOf_insert_ne by done. by left.
      * intros _. rewrite distOf_insert_eq. by apply jsle_refl.
    + split_and!; [done| |by left|].
      * intros k Hk. by apply jsle_refl, Hn.
      * intros _. apply jslt_false_le; [done|by apply Hn|done].
  - intros [= <- <-]. split_and!; [done| |by left|].
    + intros k Hk. by apply jsle_refl, Hn.
    + intros Hin. apply Set_has_true in Hin. congruence.
Qed.

Lemma relaxEdges_spec m unv es d p d' p' :
  m ∉ unv → representable (distOf d m) →
  jsle (Num (Q2Qc 0)) (distOf d m) →
  (∀ e, e ∈ es → jsle (Num (Q2Qc 0)) (edgeWeight e)) →
  (∀ k, k ∈ unv → isNumber (distOf d k)) →
  foldl (relaxEdge m unv) (d, p) es = (d', p') →
  (∀ k, k ∉ unv → d' !! k = d !! k) ∧
  (∀ k, k ∈ unv → jsle (distOf d' k) (distOf d k)) ∧
  (∀ k, distOf d' k = distOf d k ∨ jsle (distOf d m) (distOf d' k)) ∧
  (∀ e, e ∈ es → Edge.to e ∈ unv →
        jsle (distOf d' (Edge.to e)) (jsadd (distOf d m) (edgeWeight e))).
Proof.
  intros Hm. revert d p.
  induction es as [|e es IH]; intros d p Hrep H0 Hw Hn; cbn [foldl].
  - intros [= <- <-]. split_and!; [done| |by left|].
    + intros k Hk. by apply jsle_refl, Hn.
    + by intros e ?%elem_of_nil.
  - assert (jsle (Num (Q2Qc 0)) (edgeWeight e)) as Hwe
      by (apply Hw, elem_of_cons; by left).
    destruct (relaxEdge m unv (d, p) e) as [d1 p1] eqn:E1.
    pose proof (relaxEdge_spec m unv d p e d1 p1 Hm Hrep H0 Hwe Hn E1)
      as (H1 & H2 & H3 & H4).
    assert (distOf d1 m = distOf d m) as Hx1.
    { unfold distOf. by rewrite H1. }
    assert (∀ k, k ∈ unv → isNumber (distOf d1 k)) as Hn1.
    { intros k Hk. by apply (jsle_isNumber _ _ (H2 k Hk)). }
    intros Hfold.
    destruct (IH d1 p1) as (I1 & I2 & I3 & I4); [by rewrite Hx1..| |done|done|].
    { intros e' He'. apply Hw, elem_of_cons. by right. }
    rewrite Hx1 in I3, I4.
    split_and!.
    + intros k Hk. by rewrite I1, H1.
    + intros k Hk. eapply jsle_trans; [by apply I2|by apply H2].
    + intros k. destruct (I3 k) as [->|?]; [apply H3|by right].
    + intros e' [->|He']%elem_of_cons Hto.
      * eapply jsle_trans; [by apply I2|]. by apply H4.
      * by apply I4.
Qed.

(** ** Optimality *)

Lemma first_crossing g unv a b es :
  a ∈ ids g → a ∉ unv → b ∈ unv → edgePath g a b es →
  ∃ es1 e es2, es = es1 ++ e :: es2 ∧ edgePath g a (Edge.from e) es1 ∧
    visited g unv (Edge.from e) ∧ e ∈ Graph.edges g ∧
    Edge.to e ∈ unv ∧ Edge.to e ∈ ids g.
Proof.
  intros Ha Hna Hb. revert a Ha Hna.
  induction es as [|e es IH]; intros a Ha Hna; simpl.
  - intros ->. done.
  - intros (He & Hf & Ht & Hp).
    destruct (decide (Edge.to e ∈ unv)) as [Hin|Hout].
    + exists [], e, es. subst a. by split_and!.
    + destruct (IH _ Ht Hout Hp) as (es1 & e' & es2 & -> & Hp1 & Hrest).
      exists (e :: es1), e', es2. split; [done|]. split; [|done].
      simpl. by split_and!.
Qed.

Lemma edgePath_split g a b es1 e es2 :
  edgePath g a b (es1 ++ e :: es2) → edgePath g (Edge.to e) b es2.
Proof.
  revert a. induction es1 as [|e1 es1 IH]; intros a; simpl.
  - by intros (_ & _ & _ & ?).
  - intros (_ & _ & _ & ?). by eapply IH.
Qed.

Lemma Opt_init start g : Opt start g (initTables start g).
Proof.
  assert (∀ u, ¬ visited g (unvisited (initTables start g)) u) as Hno.
  { intros u [Hu Hn]. apply Hn. rewrite initTables_unvisited.
    by apply elem_of_Set_new. }
  split.
  - intros k Hk. rewrite initTables_distOf by done. unfold initDist.
    by case_decide.
  - intros u v Hu. by apply Hno in Hu.
  - intros e _ Hu. by apply Hno in Hu.
  - intros u es Hu. by apply Hno in Hu.
Qed.

(** From here to the end of the section no edge of the graph has a weight
    that is missing, [NaN] or negative, and [start] is the id of one of its
    nodes. *)
Section Optimality.
Context (g : Graph.t) (start : Z).
Hypothesis weighted_g : weighted g.
Hypothesis start_node : start ∈ ids g.

Lemma pathWeight_nonneg a b es :
  edgePath g a b es → jsle (Num (Q2Qc 0)) (pathWeight es).
Proof.
  intros Hp. apply foldl_inflate; [apply isDouble_zero|done|].
  intros e He. apply weighted_g. by eapply edgePath_edges.
Qed.

(** A crossing edge bounds the [dist] of its head by the weight of any path
    through it. *)
Lemma crossing_bound st b es :
  Inv start g st → Opt start g st →
  start ∉ unvisited st → b ∈ unvisited st → edgePath g start b es →
  ∃ y, y ∈ unvisited st ∧ jsle (distOf (dist st) y) (pathWeight es).
Proof.
  intros HI HO Hsv Hb Hp.
  destruct (first_crossing g _ _ _ _ start_node Hsv Hb Hp)
    as (es1 & e & es2 & -> & Hp1 & Hx & He & Hy & Hyid).
  exists (Edge.to e). split; [done|].
  pose proof (opt_edge _ _ _ HO e He Hx Hyid) as Hedge.
  pose proof (opt_min _ _ _ HO _ _ Hx Hp1) as Hmin.
  pose proof (opt_nonneg _ _ _ HO _ (proj1 Hx)) as Hpos.
  pose proof (pathWeight_nonneg _ _ _ Hp1) as Hpos1.
  pose proof (weighted_g e He) as Hw.
  eapply jsle_trans; [done|].
  eapply jsle_trans.
  { apply jsadd_mono; [done|by apply jsle_refl, (jsle_isNumber _ _ Hw)|..].
    - by apply (jsle_isNumber _ _ (jsadd_nonneg _ _ Hpos Hw)).
    - by apply (jsle_isNumber _ _ (jsadd_nonneg _ _ Hpos1 Hw)). }
  unfold pathWeight. rewrite foldl_app. cbn [foldl].
  fold (pathWeight es1). apply foldl_inflate.
  - apply jsadd_representable.
  - by apply jsadd_nonneg.
  - intros e' He'. apply weighted_g.
    apply (edgePath_edges g start b (es1 ++ e :: es2)); [done|].
    apply elem_of_app. right. apply elem_of_cons. by right.
Qed.

Lemma Opt_selected st m es :
  Inv start g st → Opt start g st →
  selectMin (dist st) (unvisited st) = Some m →
  isInfinity (distOf (dist st) m) = false →
  edgePath g start m es →
  jsle (distOf (dist st) m) (pathWeight es).
Proof.
  intros HI HO Hsel Hfin Hp.
  pose proof (selectMin_elem _ _ _ Hsel) as Hm.
  destruct (decide (start ∈ unvisited st)) as [Hsu|Hsv].
  - pose proof (inv_fresh _ _ _ HI Hsu) as Hst. rewrite Hst in Hfin |- *.
    assert (m = start) as ->.
    { apply (selected_of_fresh start g); [|done].
      by apply (inv_unvisited _ _ _ HI). }
    rewrite initTables_distOf by done. unfold initDist.
    rewrite decide_True by done. by eapply pathWeight_nonneg.
  - destruct (crossing_bound st m es) as (y & Hy & Hle); try done.
    eapply jsle_trans; [|done]. eapply selectMin_le; [|done..].
    intros k Hk. by apply (inv_number _ _ _ HI), (inv_unvisited _ _ _ HI).
Qed.

Lemma Opt_step st m :
  Inv start g st → Opt start g st →
  selectMin (dist st) (unvisited st) = Some m →
  isInfinity (distOf (dist st) m) = false →
  Opt start g (relax g m (visit st m)).
Proof.
  intros HI HO Hsel Hfin.
  pose proof (selectMin_elem _ _ _ Hsel) as Hm.
  pose proof (inv_unvisited _ _ _ HI _ Hm) as Hmid.
  assert (∀ k, k ∈ unvisited st → isNumber (distOf (dist st) k)) as Hn.
  { intros k Hk. by apply (inv_number _ _ _ HI), (inv_unvisited _ _ _ HI). }
  pose proof (opt_nonneg _ _ _ HO _ Hmid) as H0.
  assert (representable (distOf (dist st) m)) as Hrep.
  { destruct (inv_tree _ _ _ (Inv_visit _ _ _ _ HI Hsel Hfin) m)
      as (es & _ & _ & Hd & _).
    - apply visited_selected; [|done]. apply (inv_unvisited _ _ _ HI).
    - cbn [dist visit] in Hd. rewrite Hd. apply pathWeight_representable. }
  destruct st as [d p unv]. unfold relax, visit.
  cbn [dist prev unvisited] in *.
  set (unv1 := Set_delete unv m).
  destruct (foldl (relaxEdge m unv1) (d, p)
              (filter (λ e, Edge.from e = m) (Graph.edges g)))
    as [d' p'] eqn:Hfold.
  assert (m ∉ unv1) as Hm1 by (by intros [_ ?]%elem_of_Set_delete).
  destruct (relaxEdges_spec m unv1
              (filter (λ e, Edge.from e = m) (Graph.edges g)) d p d' p'
              Hm1 Hrep H0)
    as (R1 & R2 & R3 & R4); [| |done|].
  { intros e [He _]%adjacentEdges_spec. by apply weighted_g. }
  { intros k [Hk _]%elem_of_Set_delete. by apply Hn. }
  assert (∀ k, k ∉ unv1 → distOf d' k = distOf d k) as R1'.
  { intros k Hk. unfold distOf. by rewrite R1. }
  assert (∀ u, visited g unv1 u → u = m ∨ visited g unv u) as Hvis.
  { intros u [Hu Hnu]. destruct (decide (u = m)); [by left|]. right.
    split; [done|]. intros ?. apply Hnu. by apply elem_of_Set_delete. }
  assert (∀ u, visited g unv1 u → jsle (distOf d u) (distOf d m)) as Hux.
  { intros u [->|Hu]%Hvis.
    - by apply jsle_refl, Hn.
    - by apply (opt_le _ _ _ HO). }
  assert (∀ u v, visited g unv1 u → v ∈ unv →
            jsle (distOf d u) (distOf d v)) as Huv.
  { intros u v [->|Hu]%Hvis Hv.
    - by eapply selectMin_le.
    - by apply (opt_le _ _ _ HO). }
  split; cbn [dist prev unvisited].
  - intros k Hk. destruct (R3 k) as [->|Hle].
    + by apply (opt_nonneg _ _ _ HO).
    + by eapply jsle_trans.
  - intros u v Hu [Hv Hvm]%elem_of_Set_delete.
    rewrite (R1' u) by apply Hu.
    destruct (R3 v) as [->|Hle]; [by apply Huv|].
    eapply jsle_trans; [by apply Hux|done].
  - intros e He Hu Hto.
    rewrite (R1' (Edge.from e)) by apply Hu.
    pose proof (weighted_g e He) as Hw.
    destruct (decide (Edge.to e ∈ unv1)) as [Hin|Hout].
    + destruct (Hvis _ Hu) as [Hfm|Hu'].
      * rewrite Hfm. apply R4; [|done]. by apply adjacentEdges_spec.
      * eapply jsle_trans; [by apply R2|]. by apply (opt_edge _ _ _ HO).
    + rewrite (R1' _ Hout).
      destruct (Hvis _ Hu) as [Hfm|Hu'].
      * rewrite Hfm.
        eapply jsle_trans; [by apply (Hux (Edge.to e))|].
        by apply jsadd_inflate.
      * by apply (opt_edge _ _ _ HO).
  - intros u es Hu Hp. rewrite (R1' u) by apply Hu.
    destruct (Hvis _ Hu) as [->|Hu'].
    + by apply (Opt_selected (mkState d p unv)).
    + by apply (opt_min _ _ _ HO).
Qed.

Lemma reachable_Opt end_ st :
  reachable start end_ g st → Opt start g st.
Proof.
  induction 1 as [|st m Hr IH _ Hsel Hfin _]; [apply Opt_init|].
  apply Opt_step; try done. by eapply reachable_Inv.
Qed.

(** Where the search is left, a target that some path of finite weight
    reaches has been visited, and its [dist] is at most the weight of any
    path to it. *)
Lemma exits_optimal end_ st st' es0 :
  end_ ∈ ids g →
  reachable start end_ g st → exits end_ st st' →
  edgePath g start end_ es0 → pathWeight es0 ≠ Infinity →
  visited g (unvisited st') end_ ∧
  ∀ es, edgePath g start end_ es →
    jsle (distOf (dist st') end_) (pathWeight es).
Proof.
  intros Hend Hr Hex Hp0 Hfin0.
  pose proof (reachable_Inv _ _ _ _ Hr) as HI.
  pose proof (reachable_Opt _ _ Hr) as HO.
  assert (∀ k, k ∈ unvisited st → isNumber (distOf (dist st) k)) as Hn.
  { intros k Hk. by apply (inv_number _ _ _ HI), (inv_unvisited _ _ _ HI). }
  destruct Hex as [st Hempty|st m Hsel Hinf|st Hsel Hfin].
  - assert (visited g (unvisited st) end_) as Hv.
    { split; [done|]. rewrite Hempty. apply not_elem_of_nil. }
    split; [done|]. intros es. by apply (opt_min _ _ _ HO).
  - assert (visited g (unvisited st) end_) as Hv.
    { split; [done|]. intros Hin.
      assert (∃ y, y ∈ unvisited st ∧ distOf (dist st) y ≠ Infinity)
        as (y & Hy & Hyx).
      { destruct (decide (start ∈ unvisited st)) as [Hsu|Hsv].
        - exists start. split; [done|].
          rewrite (inv_fresh _ _ _ HI Hsu), initTables_distOf by done.
          unfold initDist. by rewrite decide_True.
        - destruct (crossing_bound st end_ es0)
            as (y & Hy & Hle); try done.
          exists y. split; [done|]. intros Hy'. rewrite Hy' in Hle.
          by apply jsle_Infinity_l in Hle. }
      pose proof (selectMin_le _ _ m y Hn Hsel Hy) as Hle.
      destruct (distOf (dist st) m); try done.
      by apply jsle_Infinity_l in Hle. }
    split; [done|]. intros es. by apply (opt_min _ _ _ HO).
  - split; [by apply visited_selected; [apply (inv_unvisited _ _ _ HI)|]|].
    intros es. cbn [dist visit]. by apply (Opt_selected st).
Qed.

End Optimality.

(** ** The shortest path *)

(** C1 (amended): in a graph whose edges all have a weight that is a number
    and not negative, with [start] and [end_] ids of nodes and some path from
    [start] to [end_] whose weights do not add up to [Infinity], [dijkstra]
    returns; its [path] is the node sequence of a path from [start] to
    [end_], its [totalWeight] is the weight of that path, added up edge by
    edge in doubles, and no path from [start] to [end_] weighs less. *)
Theorem dijkstra_shortest_path (g : Graph.t) (start end_ : Z) :
  weighted g → start ∈ ids g → end_ ∈ ids g →
  (∃ es0, edgePath g start end_ es0 ∧ pathWeight es0 ≠ Infinity) →
  ∃ n r es,
    (∀ fuel, (n ≤ fuel)%nat → dijkstra fuel start end_ g = Some r) ∧
    edgePath g start end_ es ∧
    path r = VId <$> vertices start es ∧
    totalWeight r = pathWeight es ∧
    totalWeight r ≠ Infinity ∧
    ∀ es', edgePath g start end_ es' → jsle (pathWeight es) (pathWeight es').
Proof.
  intros Hw Hs Hend (es0 & Hp0 & Hfin0).
  destruct (search_from_init start end_ g) as (st & st0 & Hr & Hex & HI & Hrun).
  destruct (exits_optimal g start Hw Hs end_ st0 st es0) as [Hv Hopt];
    try done.
  destruct (inv_tree _ _ _ HI _ Hv) as (es & Hp & Hch & Hd & Hni & _).
  exists (S (length (Set_new (ids g)) + length (vertices start es))),
    (resultOf start end_ g st (VId <$> vertices start es)), es.
  assert (resultOf start end_ g st (VId <$> vertices start es) =
    mkResult (VId <$> vertices start es) (pathWeight es)
      (sumDistances g (VId <$> vertices start es) (Num (Q2Qc 0)))
      (nodeOf (Map_new (Graph.nodes g)) <$> (VId <$> vertices start es)))
    as Hres.
  { unfold resultOf. cbn [headIs vertices fmap list_fmap jsval_is].
    rewrite bool_decide_eq_true_2 by done. cbn [negb]. by rewrite Hd. }
  rewrite Hres. cbn [path totalWeight].
  split_and!; [|done..|].
  - intros fuel Hfuel. rewrite <- Hres.
    apply dijkstra_eq; [apply Hrun; lia|done|lia].
  - intros es' Hp'. pose proof (Hopt es' Hp') as Hle. by rewrite Hd in Hle.
Qed.

Lemma morningGraph_weighted : weighted morningGraph.
Proof.
  intros e He. cbn in He.
  apply elem_of_cons in He as [->|He];
    [|apply list_elem_of_singleton in He as ->]; by vm_compute.
Qed.

Lemma morningGraph_path : edgePath morningGraph 1 3 (Graph.edges morningGraph).
Proof.
  cbn. split_and!; try done.
  + apply elem_of_cons. by left.
  + apply elem_of_cons. right. apply elem_of_cons. by left.
  + apply elem_of_cons. right. apply elem_of_cons. by left.
  + do 2 (apply elem_of_cons; right). apply elem_of_cons. by left.
Qed.

Lemma morningGraph_pathWeight :
  pathWeight (Graph.edges morningGraph) = Num (q 41 2).
Proof. evaluate. Qed.

Lemma dijkstra_shortest_path_witness :
  ∃ n r es,
    (∀ fuel, (n ≤ fuel)%nat → dijkstra fuel 1 3 morningGraph = Some r) ∧
    edgePath morningGraph 1 3 es ∧
    path r = VId <$> vertices 1 es ∧
    totalWeight r = pathWeight es ∧
    totalWeight r ≠ Infinity ∧
    ∀ es', edgePath morningGraph 1 3 es' → jsle (pathWeight es) (pathWeight es').
Proof.
  apply (dijkstra_shortest_path morningGraph 1 3).
  - apply morningGraph_weighted.
  - apply elem_of_cons. by left.
  - do 2 (apply elem_of_cons; right). apply elem_of_cons. by left.
  - exists (Graph.edges morningGraph). split; [apply morningGraph_path|].
    by rewrite morningGraph_pathWeight.
Defined.

(** C1 (counterexample): the two weights of [hugeGraph] are doubles and are
    not negative, and its two edges lead from 1 to 3, yet [dijkstra] returns
    the no-path result: the weights add up to [Infinity], which is not less
    than the [Infinity] that [dist] starts with. *)
Lemma dijkstra_overflow_loses_path :
  weighted hugeGraph ∧
  weightsFinite hugeGraph ∧
  edgePath hugeGraph 1 3 (Graph.edges hugeGraph) ∧
  dijkstra 4 1 3 hugeGraph = Some noPath.
Proof.
  split_and!; [| | |evaluate].
  - intros e He. cbn in He.
    apply elem_of_cons in He as [->|He];
      [|apply list_elem_of_singleton in He as ->]; by vm_compute.
  - intros e He. cbn in He.
    apply elem_of_cons in He as [->|He];
      [|apply list_elem_of_singleton in He as ->]; by eexists.
  - cbn. split_and!; try done.
    + apply elem_of_cons. by left.
    + apply elem_of_cons. right. apply elem_of_cons. by left.
    + apply elem_of_cons. right. apply elem_of_cons. by left.
    + do 2 (apply elem_of_cons; right). apply elem_of_cons. by left.
Qed.

(** ** Dead edges and the worked example *)

(** In a graph whose edges all lead to nodes, the edges that follow one
    another are the paths. *)
Lemma edgeChain_edgePath g a b es :
  (∀ e, e ∈ Graph.edges g → Edge.to e ∈ ids g) →
  edgeChain g a b es ↔ edgePath g a b es.
Proof.
  intros Hto. revert a. induction es as [|e es IH]; intros a; simpl; [done|].
  rewrite IH. split.
  - intros (He & Hf & Hp). split_and!; auto.
  - intros (He & Hf & _ & Hp). done.
Qed.

(** An edge into an id that no node has is never relaxed: the edges of
    [danglingGraph] follow one another from 1 to 3, and the search does not. *)
Lemma dijkstra_dangling_edge :
  edgeChain danglingGraph 1 3 (Graph.edges danglingGraph) ∧
  dijkstra 3 1 3 danglingGraph = Some noPath.
Proof.
  split; [|evaluate]. cbn. split_and!; try done.
  - apply elem_of_cons. by left.
  - apply elem_of_cons. right. apply elem_of_cons. by left.
Qed.

(** The worked example of the specification: in the morning the weights of
    [demoGraph] are 15 and 5.5, and the way from 1 to 3 weighs 20.5 over a
    distance of 15. *)
Lemma dijkstra_morning :
  initEdgeWeights demoGraph "morning" = Ok morningGraph ∧
  dijkstra 4 1 3 morningGraph = Some morningResult.
Proof. split; evaluate. Qed.

(** ** The store *)

Lemma extends_refl h : extends h h.
Proof.
  split; [done|]. intros l o Hl Hn. exfalso. apply Hn.
  apply elem_of_dom. eauto.
Qed.

Lemma extends_lookup h h' l : extends h h' → l ∈ dom h → h' !! l = h !! l.
Proof.
  intros [Hsub _] [o Ho]%elem_of_dom. rewrite Ho.
  by eapply lookup_weaken.
Qed.

Lemma extends_dom h h' l : extends h h' → l ∉ dom h' → l ∉ dom h.
Proof.
  intros [Hsub _] Hn Hl. apply Hn. apply elem_of_dom in Hl as [o Ho].
  apply elem_of_dom. exists o. by eapply lookup_weaken.
Qed.

(** Writing an object that refers to new locations at a new location. *)
Lemma extends_insert h h' l o :
  extends h h' → l ∉ dom h → (∀ r, r ∈ refs o → r ∉ dom h) →
  extends h (<[l := o]> h').
Proof.
  intros [Hsub Hcl] Hl Ho. split.
  - apply insert_subseteq_r; [|done]. by apply not_elem_of_dom.
  - intros l' o'. destruct (decide (l = l')) as [<-|Hne].
    + rewrite lookup_insert_eq. by intros [= <-] _.
    + rewrite lookup_insert_ne by done. apply Hcl.
Qed.

Lemma extends_alloc h h1 o h2 l :
  extends h h1 → (∀ r, r ∈ refs o → r ∉ dom h) →
  alloc h1 o = (h2, l) → extends h h2 ∧ l ∉ dom h.
Proof.
  intros Hext Ho [= <- <-].
  assert (fresh (dom h1) ∉ dom h) as Hl.
  { eapply extends_dom; [done|]. apply is_fresh. }
  split; [|done]. by apply extends_insert.
Qed.

Lemma extends_allocList {A} (f : gmap loc obj → A → gmap loc obj * loc) h :
  (∀ h1 x h2 l, extends h h1 → f h1 x = (h2, l) →
     extends h h2 ∧ l ∉ dom h) →
  ∀ xs h1 h2 ls, extends h h1 → allocList f h1 xs = (h2, ls) →
    extends h h2 ∧ ∀ l, l ∈ ls → l ∉ dom h.
Proof.
  intros Hf. induction xs as [|x xs IH]; intros h1 h2 ls Hext; simpl.
  - intros [= <- <-]. split; [done|]. by intros l ?%elem_of_nil.
  - destruct (f h1 x) as [h1' l] eqn:Hfx.
    destruct (allocList f h1' xs) as [h2' ls'] eqn:Hxs.
    intros [= <- <-].
    destruct (Hf _ _ _ _ Hext Hfx) as [Hext' Hl].
    destruct (IH _ _ _ Hext' Hxs) as [Hext'' Hls].
    split; [done|]. intros l' [->|?]%elem_of_cons; auto.
Qed.

Lemma extends_allocNode h h1 n h2 l :
  extends h h1 → allocNode h1 n = (h2, l) → extends h h2 ∧ l ∉ dom h.
Proof.
  intros Hext. apply extends_alloc; [done|]. by intros r ?%elem_of_nil.
Qed.

Lemma extends_allocEdge h h1 e h2 l :
  extends h h1 → allocEdge h1 e = (h2, l) → extends h h2 ∧ l ∉ dom h.
Proof.
  intros Hext. unfold allocEdge. destruct (Edge.flow e) as [m|].
  - destruct (alloc h1 (OFlow m)) as [h1' lf] eqn:Hlf.
    destruct (extends_alloc h h1 (OFlow m) h1' lf Hext) as [Hext' Hf];
      [|done|].
    { by intros r ?%elem_of_nil. }
    apply extends_alloc; [done|]. simpl.
    intros r Hr%list_elem_of_singleton. by subst.
  - apply extends_alloc; [done|]. by intros r ?%elem_of_nil.
Qed.

Lemma extends_allocGraph h v h' g' :
  allocGraph h v = (h', g') → extends h h' ∧ g' ∉ dom h.
Proof.
  unfold allocGraph.
  destruct (allocList allocNode h (Graph.nodes v)) as [h1 nls] eqn:H1.
  destruct (alloc h1 (OArray nls)) as [h2 na] eqn:H2.
  destruct (allocList allocEdge h2 (Graph.edges v)) as [h3 els] eqn:H3.
  destruct (alloc h3 (OArray els)) as [h4 ea] eqn:H4.
  intros H5.
  destruct (extends_allocList allocNode h (extends_allocNode h) _ _ _ _
              (extends_refl h) H1) as [E1 Hnls].
  destruct (extends_alloc h h1 (OArray nls) h2 na E1 Hnls H2) as [E2 Hna].
  destruct (extends_allocList allocEdge h (extends_allocEdge h) _ _ _ _
              E2 H3) as [E3 Hels].
  destruct (extends_alloc h h3 (OArray els) h4 ea E3 Hels H4) as [E4 Hea].
  apply (extends_alloc h h4 (OGraph na ea)); [done| |done].
  simpl. intros r [->|Hr%list_elem_of_singleton]%elem_of_cons; by subst.
Qed.

Lemma extends_setWeightAt timePeriod h h1 l h2 :
  extends h h1 → l ∉ dom h →
  setWeightAt timePeriod h1 l = Some (Ok h2) → extends h h2.
Proof.
  intros Hext Hl. unfold setWeightAt.
  destruct (h1 !! l) as [[| | |f t d [lf|] w|]|] eqn:Hobj; try done.
  destruct (h1 !! lf) as [[| | | |m]|]; try done.
  intros [= <-]. apply extends_insert; [done..|].
  apply (proj2 Hext l _ Hobj Hl).
Qed.

Lemma extends_forEachAt timePeriod h ls :
  ∀ h1 h2 r, extends h h1 → (∀ l, l ∈ ls → l ∉ dom h) →
    forEachAt (setWeightAt timePeriod) h1 ls = Some (h2, r) → extends h h2.
Proof.
  induction ls as [|l ls IH]; intros h1 h2 r Hext Hls; simpl.
  - by intros [= <- _].
  - destruct (setWeightAt timePeriod h1 l) as [[h1'|e]|] eqn:Hset; [| |done].
    + apply IH.
      * eapply extends_setWeightAt; [done| |done]. apply Hls, elem_of_cons.
        by left.
      * intros l' ?. apply Hls, elem_of_cons. by right.
    + by intros [= <- _].
Qed.

(** Everything that references lead to from a new location is new. *)
Lemma extends_reachN h h' n :
  extends h h' → ∀ l, l ∉ dom h → ∀ x, x ∈ reachN n h' l → x ∉ dom h.
Proof.
  intros Hext. induction n as [|n IH]; intros l Hl x; simpl.
  - intros Hx%list_elem_of_singleton. by subst.
  - intros [->|Hx]%elem_of_cons; [done|].
    destruct (h' !! l) as [o|] eqn:Ho; [|by apply elem_of_nil in Hx].
    apply list_elem_of_bind in Hx as (r & Hx & Hr).
    eapply IH; [|done]. by apply (proj2 Hext l o).
Qed.


(** *** Reading is stable under growth of the store *)

Lemma readNode_mono h h' l n :
  h ⊆ h' → readNode h l = Some n → readNode h' l = Some n.
Proof.
  intros Hsub. unfold readNode.
  destruct (h !! l) as [o|] eqn:Ho; [|done].
  by rewrite (lookup_weaken _ _ _ _ Ho Hsub).
Qed.

Lemma readFlow_mono h h' fl m :
  h ⊆ h' → readFlow h fl = Some m → readFlow h' fl = Some m.
Proof.
  intros Hsub. unfold readFlow. destruct fl as [lf|]; [|done].
  destruct (h !! lf) as [o|] eqn:Ho; [|done].
  by rewrite (lookup_weaken _ _ _ _ Ho Hsub).
Qed.

Lemma readEdge_mono h h' l e :
  h ⊆ h' → readEdge h l = Some e → readEdge h' l = Some e.
Proof.
  intros Hsub. unfold readEdge.
  destruct (h !! l) as [o|] eqn:Ho; [|done].
  rewrite (lookup_weaken _ _ _ _ Ho Hsub).
  destruct o as [| | |f t d fl w|]; try done.
  destruct (readFlow h fl) as [m|] eqn:Hm; [|done].
  by rewrite (readFlow_mono _ _ _ _ Hsub Hm).
Qed.

Lemma mapM_mono {A} (rd : gmap loc obj → loc → option A) h h' ls xs :
  (∀ l x, rd h l = Some x → rd h' l = Some x) →
  mapM (rd h) ls = Some xs → mapM (rd h') ls = Some xs.
Proof.
  intros Hrd. rewrite !mapM_Some. intros H.
  eapply Forall2_impl; [done|]. auto.
Qed.

Lemma readArray_mono {A} (rd : gmap loc obj → loc → option A) h h' l xs :
  h ⊆ h' → (∀ l x, rd h l = Some x → rd h' l = Some x) →
  readArray rd h l = Some xs → readArray rd h' l = Some xs.
Proof.
  intros Hsub Hrd. unfold readArray.
  destruct (h !! l) as [o|] eqn:Ho; [|done].
  rewrite (lookup_weaken _ _ _ _ Ho Hsub).
  destruct o; try done. by apply mapM_mono.
Qed.

Lemma readGraph_mono h h' l v :
  h ⊆ h' → readGraph h l = Some v → readGraph h' l = Some v.
Proof.
  intros Hsub. unfold readGraph.
  destruct (h !! l) as [o|] eqn:Ho; [|done].
  rewrite (lookup_weaken _ _ _ _ Ho Hsub).
  destruct o as [na ea| | | |]; try done.
  destruct (readArray readNode h na) as [ns|] eqn:Hns; [|done].
  rewrite (readArray_mono readNode h h' na ns Hsub
             (λ l x, readNode_mono h h' l x Hsub) Hns).
  simpl.
  destruct (readArray readEdge h ea) as [es|] eqn:Hes; [|done].
  by rewrite (readArray_mono readEdge h h' ea es Hsub
                (λ l x, readEdge_mono h h' l x Hsub) Hes).
Qed.

(** *** Reading back what was built *)

Lemma alloc_spec h o h1 l :
  alloc h o = (h1, l) → h ⊆ h1 ∧ (l ∉ dom h) ∧ h1 !! l = Some o.
Proof.
  intros [= <- <-]. pose proof (is_fresh (dom h)) as Hl. split_and!.
  - apply insert_subseteq. by apply not_elem_of_dom.
  - done.
  - apply lookup_insert_eq.
Qed.

Lemma allocNode_read h n h1 l :
  allocNode h n = (h1, l) →
  h ⊆ h1 ∧ (l ∉ dom h) ∧ l ∈ dom h1 ∧ readNode h1 l = Some n.
Proof.
  intros (Hsub & Hl & Ho)%alloc_spec. split_and!; [done..| |].
  - apply elem_of_dom. eauto.
  - unfold readNode. rewrite Ho. by destruct n.
Qed.

Lemma allocEdge_read h e h1 l :
  allocEdge h e = (h1, l) →
  h ⊆ h1 ∧ (l ∉ dom h) ∧ l ∈ dom h1 ∧ readEdge h1 l = Some e.
Proof.
  unfold allocEdge.
  destruct e as [f t d [m|] w];
    cbn [Edge.flow Edge.from Edge.to Edge.distance Edge.weight].
  - destruct (alloc h (OFlow m)) as [h0 lf] eqn:Hlf.
    apply alloc_spec in Hlf as (Hsub0 & Hlf & Hm).
    intros (Hsub & Hl & Ho)%alloc_spec. split_and!.
    + by trans h0.
    + intros Hin. apply Hl. apply elem_of_dom in Hin as [o' Ho'].
      apply elem_of_dom. exists o'. by eapply lookup_weaken.
    + apply elem_of_dom. eauto.
    + unfold readEdge. rewrite Ho. simpl.
      by rewrite (lookup_weaken _ _ _ _ Hm Hsub).
  - intros (Hsub & Hl & Ho)%alloc_spec. split_and!; [done..| |].
    + apply elem_of_dom. eauto.
    + unfold readEdge. by rewrite Ho.
Qed.

Lemma allocList_read {A} (f : gmap loc obj → A → gmap loc obj * loc)
    (rd : gmap loc obj → loc → option A) :
  (∀ h x h1 l, f h x = (h1, l) →
     h ⊆ h1 ∧ (l ∉ dom h) ∧ l ∈ dom h1 ∧ rd h1 l = Some x) →
  (∀ h h' l x, h ⊆ h' → rd h l = Some x → rd h' l = Some x) →
  ∀ xs h h' ls, allocList f h xs = (h', ls) →
    h ⊆ h' ∧ (∀ l, l ∈ ls → (l ∉ dom h) ∧ l ∈ dom h') ∧
    mapM (rd h') ls = Some xs ∧ NoDup ls.
Proof.
  intros Hf Hmono. induction xs as [|x xs IH]; intros h h' ls; simpl.
  - intros [= <- <-]. split_and!; [done| |done|apply NoDup_nil_2].
    by intros l ?%elem_of_nil.
  - destruct (f h x) as [h1 l] eqn:Hfx.
    destruct (allocList f h1 xs) as [h2 ls'] eqn:Hxs.
    intros [= <- <-].
    destruct (Hf _ _ _ _ Hfx) as (Hsub1 & Hl & Hl1 & Hrd).
    destruct (IH _ _ _ Hxs) as (Hsub2 & Hls & Hread & Hnd).
    split_and!.
    + by trans h1.
    + intros l' [->|Hl']%elem_of_cons.
      * split; [done|]. apply elem_of_dom in Hl1 as [o Ho].
        apply elem_of_dom. exists o. by eapply lookup_weaken.
      * destruct (Hls l' Hl') as [Hn Hin]. split; [|done].
        intros Hd. apply Hn. apply elem_of_dom in Hd as [o Ho].
        apply elem_of_dom. exists o. by eapply lookup_weaken.
    + apply mapM_Some. constructor; [by eapply Hmono|by apply mapM_Some].
    + apply NoDup_cons. split; [|done]. intros Hin.
      by destruct (Hls l Hin).
Qed.

(** The graph that [JSON.parse] builds reads as the value it was built from,
    and its edge objects are distinct. *)
Lemma allocGraph_read h v h' g' :
  allocGraph h v = (h', g') →
  ∃ na ea els,
    h' !! g' = Some (OGraph na ea) ∧ h' !! ea = Some (OArray els) ∧
    readArray readNode h' na = Some (Graph.nodes v) ∧
    mapM (readEdge h') els = Some (Graph.edges v) ∧ NoDup els.
Proof.
  unfold allocGraph.
  destruct (allocList allocNode h (Graph.nodes v)) as [h1 nls] eqn:H1.
  destruct (alloc h1 (OArray nls)) as [h2 na] eqn:H2.
  destruct (allocList allocEdge h2 (Graph.edges v)) as [h3 els] eqn:H3.
  destruct (alloc h3 (OArray els)) as [h4 ea] eqn:H4.
  intros (S5 & _ & Hg)%alloc_spec.
  apply alloc_spec in H2 as (S2 & _ & Hna).
  apply alloc_spec in H4 as (S4 & _ & Hea).
  destruct (allocList_read allocNode readNode allocNode_read readNode_mono
              _ _ _ _ H1) as (S1 & _ & Hnodes & _).
  destruct (allocList_read allocEdge readEdge allocEdge_read readEdge_mono
              _ _ _ _ H3) as (S3 & _ & Hedges & Hnd).
  assert (h3 ⊆ h') as S35 by (by trans h4).
  assert (h2 ⊆ h') as S25 by (by trans h3).
  assert (h1 ⊆ h') as S15 by (by trans h2).
  exists na, ea, els. split_and!; [done| | | |done].
  - by eapply lookup_weaken.
  - unfold readArray.
    rewrite (lookup_weaken h2 h' na (OArray nls) Hna S25).
    eapply mapM_mono; [|done]. intros l x. by apply readNode_mono.
  - eapply mapM_mono; [|done]. intros l x. by apply readEdge_mono.
Qed.

(** *** Writing weights *)

Lemma readEdge_insert h l l' f t d fl w f' t' d' fl' w' :
  h !! l = Some (OEdge f t d fl w) → l' ≠ l →
  readEdge (<[l := OEdge f' t' d' fl' w']> h) l' = readEdge h l'.
Proof.
  intros Hl Hne. unfold readEdge. rewrite lookup_insert_ne by done.
  destruct (h !! l') as [[| | |f2 t2 d2 [lf|] w2|]|]; try done.
  simpl. destruct (decide (l = lf)) as [<-|Hlf].
  - by rewrite lookup_insert_eq, Hl.
  - by rewrite lookup_insert_ne.
Qed.

Lemma readEdge_object h l e :
  readEdge h l = Some e →
  ∃ fl, h !! l = Some (OEdge (Edge.from e) (Edge.to e) (Edge.distance e) fl
                         (Edge.weight e)) ∧
        readFlow h fl = Some (Edge.flow e).
Proof.
  unfold readEdge. destruct (h !! l) as [[| | |f t d fl w|]|]; try done.
  destruct (readFlow h fl) as [m|] eqn:Hm; [|done]. intros [= <-]. eauto.
Qed.

Lemma Forall2_impl_elem {A B} (P Q : A → B → Prop) l k :
  Forall2 P l k → (∀ x y, x ∈ l → P x y → Q x y) → Forall2 Q l k.
Proof.
  induction 1 as [|x y l k Hxy _ IH]; intros HPQ; constructor.
  - apply HPQ; [|done]. apply elem_of_cons. by left.
  - apply IH. intros x' y' Hx'. apply HPQ, elem_of_cons. by right.
Qed.

Lemma Forall2_elem_l {A B} (P : A → B → Prop) l k x :
  Forall2 P l k → x ∈ l → ∃ y, P x y.
Proof.
  induction 1 as [|x' y l k Hxy _ IH]; [by intros ?%elem_of_nil|].
  intros [->|Hx]%elem_of_cons; eauto.
Qed.

(** [forEach] over distinct edge objects does to the store what [forEachM]
    does to the edges read from it, and writes nowhere else. *)
Lemma forEachAt_refines timePeriod ls :
  ∀ h1 es, NoDup ls → mapM (readEdge h1) ls = Some es →
  ∃ h2 r, forEachAt (setWeightAt timePeriod) h1 ls = Some (h2, r) ∧
    (∀ l, l ∉ ls → h2 !! l = h1 !! l) ∧
    match r with
    | Ok _ => ∃ es', forEachM (setWeight timePeriod) es = Ok es' ∧
                     mapM (readEdge h2) ls = Some es'
    | Throw e => forEachM (setWeight timePeriod) es = Throw e
    end.
Proof.
  induction ls as [|l ls IH]; intros h1 es Hnd Hread.
  - injection Hread as <-. exists h1, (Ok ()). split_and!; [done..|].
    by exists [].
  - apply mapM_Some in Hread.
    inversion Hread as [|? e ? es0 He Hes0]; subst. apply mapM_Some in Hes0.
    apply NoDup_cons in Hnd as [Hl Hnd].
    destruct (readEdge_object _ _ _ He) as (fl & Hobj & Hfl).
    simpl. unfold setWeightAt at 1. rewrite Hobj.
    destruct fl as [lf|]; simpl in Hfl.
    + destruct (h1 !! lf) as [[| | | |m]|] eqn:Hlf; try done.
      injection Hfl as Hfl.
      set (h1' := <[l := _]> h1).
      assert (mapM (readEdge h1') ls = Some es0) as Hes0'.
      { apply mapM_Some. apply mapM_Some in Hes0.
        eapply Forall2_impl_elem; [apply Hes0|].
        intros l' e' Hl' <-. unfold h1'. eapply readEdge_insert; [done|].
        by intros ->. }
      destruct (IH h1' es0 Hnd Hes0') as (h2 & r & Hrun & Hframe & Hr).
      exists h2, r. split; [done|].
      assert (setWeight timePeriod e =
        Ok (Edge.mk (Edge.from e) (Edge.to e) (Edge.distance e) (Edge.flow e)
              (Number (weightOf (Edge.distance e)
                         (usedFlowRate m timePeriod)))))
        as Hset.
      { unfold setWeight, flowRate. by rewrite <- Hfl. }
      split.
      * intros l' [Hne Hl']%not_elem_of_cons. rewrite Hframe by done.
        unfold h1'. by rewrite lookup_insert_ne.
      * destruct r as [[]|e0].
        -- destruct Hr as (es' & Hes' & Hread').
           assert (lf ∉ ls) as Hlfls.
           { intros Hin. apply mapM_Some in Hes0.
             destruct (Forall2_elem_l _ _ _ _ Hes0 Hin) as [e' He'].
             destruct (readEdge_object _ _ _ He') as (? & Ho' & _). congruence. }
           assert (readEdge h2 l =
             Some (Edge.mk (Edge.from e) (Edge.to e) (Edge.distance e)
                     (Edge.flow e)
                     (Number (weightOf (Edge.distance e)
                                (usedFlowRate m timePeriod))))) as Hre.
           { unfold readEdge. rewrite (Hframe l Hl). unfold h1'.
             rewrite lookup_insert_eq. simpl. rewrite (Hframe lf Hlfls).
             unfold h1'. rewrite lookup_insert_ne by (intros ->; congruence).
             rewrite Hlf. simpl. by rewrite <- Hfl. }
           eexists (_ :: es'). split; [simpl; by rewrite Hset, Hes'|].
           by rewrite Hre, Hread'.
        -- simpl. by rewrite Hset, Hr.
    + injection Hfl as Hfl. exists h1, (Throw TypeError).
      split_and!; [done..|]. simpl. unfold setWeight, flowRate.
      by rewrite <- Hfl.
Qed.

Lemma not_edge_not_written h ls es x o :
  mapM (readEdge h) ls = Some es → h !! x = Some o →
  (∀ f t d fl w, o ≠ OEdge f t d fl w) → x ∉ ls.
Proof.
  intros Hread Hx Ho Hin. apply mapM_Some in Hread.
  destruct (Forall2_elem_l _ _ _ _ Hread Hin) as [e He].
  destruct (readEdge_object _ _ _ He) as (fl & Hobj & _).
  rewrite Hx in Hobj. injection Hobj as ->. by eapply Ho.
Qed.

(** [initEdgeWeightsAt] returns on every store in which the argument reads
    as a graph, and what it returns reads as what [initEdgeWeights] makes of
    that graph. *)
Lemma initEdgeWeightsAt_refines h g timePeriod v :
  readGraph h g = Some v →
  ∃ h' r, initEdgeWeightsAt h g timePeriod = Some (h', r) ∧
    match r with
    | Ok updatedGraph =>
        ∃ v', initEdgeWeights v timePeriod = Ok v' ∧
              readGraph h' updatedGraph = Some v'
    | Throw e => initEdgeWeights v timePeriod = Throw e
    end.
Proof.
  intros Hv. unfold initEdgeWeightsAt. rewrite Hv. cbn [mbind option_bind].
  destruct (allocGraph h (jsonCopy v)) as [h1 g'] eqn:Halloc.
  destruct (allocGraph_read _ _ _ _ Halloc)
    as (na & ea & els & Hg' & Hea & Hnodes & Hedges & Hnd).
  rewrite Hg', Hea.
  destruct (forEachAt_refines timePeriod els h1 _ Hnd Hedges)
    as (h2 & r & Hrun & Hframe & Hr).
  rewrite Hrun. cbn [mbind option_bind].
  exists h2, (rbind r (λ _, Ok g')). split; [done|].
  destruct r as [[]|e]; cbn [rbind].
  - destruct Hr as (es' & Hes' & Hread').
    exists (Graph.mk (Graph.nodes v) es'). split.
    { unfold initEdgeWeights. by rewrite Hes'. }
    unfold readGraph. rewrite Hframe, Hg'
      by (by eapply (not_edge_not_written h1); [done..|]).
    assert (readArray readNode h2 na = Some (Graph.nodes v)) as ->.
    { revert Hnodes. unfold readArray.
      destruct (h1 !! na) as [[|nls| | |]|] eqn:Hna; try done.
      rewrite Hframe, Hna
        by (by eapply (not_edge_not_written h1); [done..|]).
      rewrite !mapM_Some. intros Hns. eapply Forall2_impl; [done|].
      intros l n. unfold readNode.
      destruct (h1 !! l) as [[| |i nm| |]|] eqn:Hl; try done.
      by rewrite Hframe, Hl
        by (by eapply (not_edge_not_written h1); [done..|]). }
    cbn [mbind option_bind]. unfold readArray.
    rewrite Hframe, Hea by (by eapply (not_edge_not_written h1); [done..|]).
    by rewrite Hread'.
  - unfold initEdgeWeights. by rewrite Hr.
Qed.

(** The store after the call extends the store before it, and the returned
    graph is a new object. *)
Lemma initEdgeWeightsAt_extends h g timePeriod h' r :
  initEdgeWeightsAt h g timePeriod = Some (h', r) →
  extends h h' ∧ ∀ updatedGraph, r = Ok updatedGraph → updatedGraph ∉ dom h.
Proof.
  unfold initEdgeWeightsAt.
  destruct (readGraph h g) as [v|]; [|done]. cbn [mbind option_bind].
  destruct (allocGraph h (jsonCopy v)) as [h1 g'] eqn:Halloc.
  destruct (extends_allocGraph _ _ _ _ Halloc) as [E1 Hg'].
  destruct (h1 !! g') as [[na ea| | | |]|] eqn:Hobj; try done.
  destruct (h1 !! ea) as [[|els| | |]|] eqn:Harr; try done.
  destruct (forEachAt _ h1 els) as [[h2 r']|] eqn:Hfor; [|done]. simpl.
  intros [= <- <-].
  assert (ea ∉ dom h) as Hea.
  { apply (proj2 E1 g' _ Hobj Hg'). simpl. apply elem_of_cons. right.
    by apply list_elem_of_singleton. }
  split.
  - eapply extends_forEachAt; [done| |done].
    intros l Hl. by apply (proj2 E1 ea _ Harr Hea).
  - intros g'' Hr. assert (g'' = g') as ->; [|done].
    destruct r'; simpl in Hr; congruence.
Qed.

(** C7 (amended): on every store in which the argument reads as a graph
    [v], [initEdgeWeights] returns or throws, and every object that was in
    the store before the call is the same after it, so the argument still
    reads as [v]. When every edge of [v] has a flow mapping it returns: the
    returned graph is a new object from which references lead only to
    objects allocated by the call, and it reads as the weighted [v]. When an
    edge of [v] has no flow mapping it throws a [TypeError] and returns no
    graph. *)
Theorem initEdgeWeights_leaves_input_unchanged
    (h : gmap loc obj) (g : loc) (timePeriod : string) (v : Graph.t) :
  readGraph h g = Some v →
  ∃ h' r, initEdgeWeightsAt h g timePeriod = Some (h', r) ∧
    (∀ l, l ∈ dom h → h' !! l = h !! l) ∧
    readGraph h' g = Some v ∧
    ((∀ e, e ∈ Graph.edges v → is_Some (Edge.flow e)) →
     ∃ updatedGraph v', r = Ok updatedGraph ∧
       (updatedGraph ∉ dom h) ∧
       (∀ n l, l ∈ reachN n h' updatedGraph → l ∉ dom h) ∧
       initEdgeWeights v timePeriod = Ok v' ∧
       readGraph h' updatedGraph = Some v') ∧
    ((∃ e, e ∈ Graph.edges v ∧ Edge.flow e = None) → r = Throw TypeError).
Proof.
  intros Hv.
  destruct (initEdgeWeightsAt_refines h g timePeriod v Hv)
    as (h' & r & Hrun & Hr).
  destruct (initEdgeWeightsAt_extends _ _ _ _ _ Hrun) as [Hext Hnew].
  exists h', r. split_and!; [done| | | |].
  - intros l Hl. by apply extends_lookup.
  - eapply readGraph_mono; [apply Hext|done].
  - intros Hflow. destruct r as [g'|err].
    + destruct Hr as (v' & Hv' & Hread). exists g', v'.
      split_and!; [done|by apply Hnew| |done|done].
      intros n l. apply extends_reachN; [done|]. by apply Hnew.
    + destruct err. apply initEdgeWeights_Throw in Hr as (e & He & Hnone).
      destruct (Hflow e He) as [f Hf]. congruence.
  - intros Hnone%(initEdgeWeights_Throw v timePeriod).
    destruct r as [g'|[]]; [|done].
    destruct Hr as (v' & Hv' & _). congruence.
Qed.

Lemma demoStore_reads : readGraph demoStore demoLoc = Some demoGraph.
Proof. evaluate. Qed.

Lemma demoGraph_flows : ∀ e, e ∈ Graph.edges demoGraph → is_Some (Edge.flow e).
Proof.
  intros e He. cbn in He.
  apply elem_of_cons in He as [->|He];
    [|apply list_elem_of_singleton in He as ->]; by eexists.
Qed.

Lemma initEdgeWeights_leaves_input_unchanged_witness :
  ∃ h' updatedGraph,
    initEdgeWeightsAt demoStore demoLoc "morning" = Some (h', Ok updatedGraph) ∧
    (∀ l, l ∈ dom demoStore → h' !! l = demoStore !! l) ∧
    readGraph h' demoLoc = Some demoGraph ∧
    (updatedGraph ∉ dom demoStore) ∧
    readGraph h' updatedGraph = Some morningGraph.
Proof.
  destruct (initEdgeWeights_leaves_input_unchanged
              demoStore demoLoc "morning" demoGraph demoStore_reads)
    as (h' & r & Hrun & Hsame & Hread & Hok & _).
  destruct (Hok demoGraph_flows) as (g' & v' & -> & Hnew & _ & Hv' & Hread').
  exists h', g'.
  assert (v' = morningGraph) as ->.
  { pose proof (proj1 dijkstra_morning) as Hm. congruence. }
  exact (conj Hrun (conj Hsame (conj Hread (conj Hnew Hread')))).
Defined.

Lemma noFlowStore_reads : readGraph noFlowStore noFlowLoc = Some noFlowGraph.
Proof. evaluate. Qed.

(** C7 (counterexample): on a store that holds a graph with an edge without
    a flow mapping the call throws a [TypeError]: no graph is returned. *)
Lemma initEdgeWeights_without_flow_returns_no_graph :
  readGraph noFlowStore noFlowLoc = Some noFlowGraph ∧
  ∃ h', initEdgeWeightsAt noFlowStore noFlowLoc "morning"
          = Some (h', Throw TypeError).
Proof.
  split; [apply noFlowStore_reads|].
  destruct (initEdgeWeightsAt_refines noFlowStore noFlowLoc "morning"
              noFlowGraph noFlowStore_reads) as (h' & r & Hrun & Hr).
  exists h'. destruct r as [g'|[]]; [|done].
  destruct Hr as (v' & Hv' & _). done.
Qed.


(** * Further properties of the two functions *)

(** ** The walk along [prev] is short *)

Lemma chain_functional p v l1 l2 : chain p v l1 → chain p v l2 → l1 = l2.
Proof.
  intros H1. revert l2. induction H1 as [v Hv|v u l Hv _ IH]; intros l2 H2.
  - destruct H2 as [v' Hv'|v' u' l' Hv' _]; [done|congruence].
  - destruct H2 as [v' Hv'|v' u' l' Hv' Hch]; [congruence|].
    assert (u' = u) as -> by congruence. by rewrite (IH _ Hch).
Qed.

Lemma chain_prefix p v l x :
  chain p v l → x ∈ l → ∃ l1 l2, l = l1 ++ l2 ∧ chain p x l1.
Proof.
  induction 1 as [v Hv|v u l Hv Hch IH].
  - intros ->%list_elem_of_singleton. exists [v], []. split; [done|].
    by apply chain_root.
  - intros [Hx|Hx%list_elem_of_singleton]%elem_of_app.
    + destruct (IH Hx) as (l1 & l2 & -> & H1).
      exists l1, (l2 ++ [v]). split; [by rewrite app_assoc|done].
    + subst x. exists (l ++ [v]), []. split; [by rewrite app_nil_r|].
      by apply (chain_step _ v u).
Qed.

Lemma chain_NoDup p v l : chain p v l → NoDup l.
Proof.
  induction 1 as [v Hv|v u l Hv Hch IH]; [apply NoDup_singleton|].
  apply NoDup_app. split_and!; [done| |apply NoDup_singleton].
  intros x Hx ->%list_elem_of_singleton.
  destruct (chain_prefix _ _ _ _ Hch Hx) as (l1 & l2 & -> & H1).
  pose proof (chain_functional _ _ _ _ H1 (chain_step _ _ _ _ Hv Hch)) as Heq.
  apply (f_equal length) in Heq. rewrite !length_app in Heq. simpl in Heq. lia.
Qed.

Lemma chain_dom p v l x : chain p v l → x ∈ l → is_Some (p !! x).
Proof.
  induction 1 as [v Hv|v u l Hv _ IH].
  - intros ->%list_elem_of_singleton. eauto.
  - intros [Hx|Hx%list_elem_of_singleton]%elem_of_app; subst; eauto.
Qed.

Lemma length_Set_new_le l : (length (Set_new l) ≤ length l)%nat.
Proof.
  unfold Set_new.
  assert (∀ s, length (foldl Set_add s l) ≤ length s + length l)%nat as H.
  { induction l as [|x l IH]; intros s; simpl; [lia|].
    etrans; [apply IH|]. unfold Set_add. case_decide; [lia|].
    rewrite length_app. simpl. lia. }
  apply (H []).
Qed.

Lemma chain_length start g st v l :
  Inv start g st → chain (prev st) v l →
  (length l ≤ length (Graph.nodes g))%nat.
Proof.
  intros HI Hch.
  pose proof (length_Set_new_le (ids g)) as Hle.
  unfold ids in Hle at 2. rewrite length_fmap in Hle.
  etrans; [|apply Hle].
  apply submseteq_length, NoDup_submseteq; [by eapply chain_NoDup|].
  intros x Hx. apply elem_of_Set_new, (inv_dom_prev _ _ _ HI).
  by eapply chain_dom.
Qed.

Lemma chain_last p v l : chain p v l → last l = Some v.
Proof. destruct 1; [done|]. apply last_snoc. Qed.

Lemma chain_nonempty p v l : chain p v l → l ≠ [].
Proof. destruct 1 as [|? ? l]; [done|by destruct l]. Qed.

Lemma chain_snoc p v l : chain p v l → ∃ l', l = l' ++ [v].
Proof. destruct 1 as [|? ? l]; [by exists []|by exists l]. Qed.

Lemma chain_singleton p v : chain p v [v] → p !! v = Some None.
Proof.
  inversion 1 as [|? u l0 Hv Hch Heq]; [done|]. exfalso.
  apply (chain_nonempty _ _ _ Hch). destruct l0 as [|y l0]; [done|].
  by destruct l0.
Qed.

(** [start], when it is a node, keeps the distance 0 and no predecessor. *)
Lemma Inv_start start g st :
  Inv start g st → start ∈ ids g →
  distOf (dist st) start = Num (Q2Qc 0) ∧ prev st !! start = Some None.
Proof.
  intros HI Hs. destruct (decide (start ∈ unvisited st)) as [Hin|Hout].
  - rewrite (inv_fresh _ _ _ HI Hin), initTables_prev.
    rewrite initTables_distOf by done.
    rewrite decide_True by done. unfold initDist. by rewrite decide_True.
  - destruct (inv_tree _ _ _ HI start) as (es & _ & Hch & Hd & _); [done|].
    assert (es = []) as ->.
    { pose proof (chain_NoDup _ _ _ Hch) as Hnd.
      destruct (chain_snoc _ _ _ Hch) as [l' Hl'].
      destruct es as [|e es]; [done|]. exfalso.
      unfold vertices in *. rewrite Hl' in Hnd.
      destruct l' as [|y l']; [done|]. injection Hl' as -> Hl'.
      apply NoDup_cons in Hnd as [Hnot _]. apply Hnot, elem_of_app. right.
      by apply list_elem_of_singleton. }
    split; [done|]. by apply chain_singleton.
Qed.

(** A node whose [dist] is not [Infinity] is reached along [prev] by a path
    from [start], and its [dist] is the weight of that path. *)
Lemma chain_path start g st v l :
  Inv start g st → chain (prev st) v l →
  distOf (dist st) v ≠ Infinity →
  ∃ es, edgePath g start v es ∧ l = vertices start es ∧
    distOf (dist st) v = pathWeight es.
Proof.
  intros HI. induction 1 as [v Hv|v u l Hv Hch IH]; intros Hx.
  - destruct (inv_null _ _ _ HI _ Hv) as [->|Hinf]; [|done].
    destruct (Inv_start _ _ _ HI) as [Hd _].
    { apply (inv_dom_prev _ _ _ HI). eauto. }
    by exists [].
  - destruct (inv_prev _ _ _ HI _ _ Hv)
      as [Hvu (e & He & Hf & Ht & Hd & _)].
    destruct (inv_tree _ _ _ HI _ Hvu) as (es' & _ & _ & Hdu & Hni & _).
    destruct IH as (es & Hp & -> & Hdes); [by rewrite Hdu|].
    exists (es ++ [e]). split_and!.
    + eapply edgePath_app; [done|]. simpl. rewrite Ht. split_and!; try done.
      apply (inv_dom_prev _ _ _ HI). eauto.
    + by rewrite vertices_snoc, Ht.
    + by rewrite pathWeight_snoc, <- Hdes.
Qed.

(** A path whose weight is a number other than [Infinity] has only edges
    that can be relaxed. *)
Lemma pathWeight_relaxable es :
  pathWeight es ≠ NaN → pathWeight es ≠ Infinity → Forall relaxable es.
Proof.
  induction es as [|e es IH] using rev_ind; [done|].
  rewrite pathWeight_snoc. intros Hnan Hinf.
  destruct (jsadd_relaxable _ _ Hnan Hinf) as [[H1 H2] He].
  apply Forall_app. split; [by apply IH|]. by constructor.
Qed.

Lemma backtrack_fuel_mono p fuel fuel' current acc path :
  backtrack fuel p current acc = Some path → (fuel ≤ fuel')%nat →
  backtrack fuel' p current acc = Some path.
Proof.
  revert fuel' current acc.
  induction fuel as [|fuel IH]; intros fuel' current acc; [done|].
  intros Hb Hle. destruct fuel' as [|fuel']; [lia|]. simpl in *.
  destruct current; [done|..]; (apply IH; [done|lia]).
Qed.

(** Every result of [dijkstra] is built from tables that satisfy the
    invariant and from the walk along [prev] that starts at [end_]. *)
Lemma dijkstra_Some fuel start end_ g r :
  dijkstra fuel start end_ g = Some r →
  ∃ st st0 l, reachable start end_ g st0 ∧ exits end_ st0 st ∧
    Inv start g st ∧ end_ ∈ ids g ∧
    chain (prev st) end_ l ∧ r = resultOf start end_ g st (VId <$> l).
Proof.
  unfold dijkstra.
  destruct (search _ _ _ _) as [st|] eqn:Hs; [|done]. simpl.
  destruct (backtrack _ _ _ _) as [path|] eqn:Hb; [|done]. simpl.
  intros [= <-].
  destruct (search_exits start end_ g fuel _ st (reach_init _ _ _) Hs)
    as (st0 & Hr & Hex).
  pose proof (exits_Inv _ _ _ _ _ (reachable_Inv _ _ _ _ Hr) Hex) as HI.
  assert (end_ ∈ ids g) as Hend.
  { apply (inv_dom_prev _ _ _ HI). destruct (prev st !! end_) eqn:Hp; [eauto|].
    by rewrite backtrack_missing in Hb. }
  assert (∃ l, chain (prev st) end_ l) as [l Hl].
  { destruct (Inv_chain start g st end_ HI Hend) as [(es & _ & ?)|[? _]];
      eauto. }
  exists st, st0, l. split_and!; try done.
  pose proof (backtrack_chain _ _ _ Hl [] (S (length l + fuel))) as Hb'.
  rewrite app_nil_r in Hb'.
  apply (backtrack_fuel_mono _ _ (S (length l + fuel))) in Hb; [|lia].
  rewrite Hb' in Hb by lia. by injection Hb as <-.
Qed.

(** What the tables and the walk make of the result. *)
Lemma resultOf_cases start end_ g st l :
  Inv start g st → end_ ∈ ids g → chain (prev st) end_ l →
  resultOf start end_ g st (VId <$> l) = noPath ∧
    distOf (dist st) end_ = Infinity ∧ start ≠ end_ ∨
  ∃ es, edgePath g start end_ es ∧
    Forall relaxable es ∧ l = vertices start es ∧
    distOf (dist st) end_ = pathWeight es ∧
    pathWeight es ≠ NaN ∧ pathWeight es ≠ Infinity ∧
    resultOf start end_ g st (VId <$> l) =
      mkResult (VId <$> l) (pathWeight es)
        (sumDistances g (VId <$> l) (Num (Q2Qc 0)))
        (nodeOf (Map_new (Graph.nodes g)) <$> (VId <$> l)).
Proof.
  intros HI Hend Hch.
  pose proof (inv_number _ _ _ HI _ Hend) as Hnum.
  destruct (isInfinity (distOf (dist st) end_)) eqn:Hinf.
  - left. assert (distOf (dist st) end_ = Infinity) as Hd
      by (by destruct (distOf (dist st) end_)).
    assert (prev st !! end_ = Some None) as Hp.
    { destruct (proj2 (inv_dom_prev _ _ _ HI end_) Hend) as [[u|] Hp];
        [|done].
      by destruct (inv_prev _ _ _ HI _ _ Hp) as [_ (? & _ & _ & _ & _ & ?)]. }
    assert (start ≠ end_) as Hne.
    { intros ->. destruct (Inv_start _ _ _ HI Hend) as [Hx _]. congruence. }
    rewrite (chain_functional _ _ _ _ Hch (chain_root _ _ Hp)).
    split_and!; try done.
    unfold resultOf. simpl. by rewrite bool_decide_eq_false_2.
  - right. apply isInfinity_false in Hinf.
    destruct (chain_path _ _ _ _ _ HI Hch Hinf) as (es & Hp & -> & Hd).
    rewrite Hd in Hnum, Hinf.
    exists es. split_and!; try done; [by apply pathWeight_relaxable|].
    unfold resultOf. cbn [headIs vertices fmap list_fmap jsval_is].
    rewrite bool_decide_eq_true_2 by done. cbn [negb]. by rewrite Hd.
Qed.

(** With a node [end_], a fuel above the number of nodes is enough for each
    of the two loops. *)
Lemma dijkstra_run start end_ g :
  end_ ∈ ids g →
  ∃ st l, Inv start g st ∧ chain (prev st) end_ l ∧
    ∀ fuel, (length (Graph.nodes g) < fuel)%nat →
      search fuel end_ g (initTables start g) = Some st ∧
      backtrack fuel (prev st) (VId end_) [] = Some (VId <$> l) ∧
      dijkstra fuel start end_ g =
        Some (resultOf start end_ g st (VId <$> l)).
Proof.
  intros Hend.
  destruct (search_from_init start end_ g) as (st & st0 & _ & _ & HI & Hs).
  assert (∃ l, chain (prev st) end_ l) as [l Hl].
  { destruct (Inv_chain start g st end_ HI Hend) as [(es & _ & ?)|[? _]];
      eauto. }
  exists st, l. split_and!; [done..|]. intros fuel Hfuel.
  pose proof (chain_length _ _ _ _ _ HI Hl).
  pose proof (length_Set_new_le (ids g)) as Hle.
  unfold ids in Hle at 2. rewrite length_fmap in Hle.
  split_and!.
  - apply Hs. lia.
  - rewrite (backtrack_chain _ _ _ Hl) by lia. by rewrite app_nil_r.
  - apply dijkstra_eq; [apply Hs; lia|done|lia].
Qed.

(** ** When [dijkstra] returns *)

(** X1: when [end_] is the id of a node, [dijkstra] returns, whatever
    [start] and the weights are, and neither of its two loops takes more
    rounds than the graph has nodes: the search and the walk back along
    [prev] are each left within a fuel of one more than that number. *)
Theorem dijkstra_returns_within_node_count
    (g : Graph.t) (start end_ : Z) (fuel : nat) :
  end_ ∈ ids g → (length (Graph.nodes g) < fuel)%nat →
  ∃ st path,
    search fuel end_ g (initTables start g) = Some st ∧
    backtrack fuel (prev st) (VId end_) [] = Some path ∧
    dijkstra fuel start end_ g = Some (resultOf start end_ g st path).
Proof.
  intros Hend Hfuel.
  destruct (dijkstra_run start end_ g Hend) as (st & l & _ & _ & Hrun).
  exists st, (VId <$> l). by apply Hrun.
Qed.

Lemma dijkstra_returns_within_node_count_witness :
  ∃ st path,
    search 4 1 demoGraph (initTables 3 demoGraph) = Some st ∧
    backtrack 4 (prev st) (VId 1) [] = Some path ∧
    dijkstra 4 3 1 demoGraph = Some (resultOf 3 1 demoGraph st path).
Proof.
  apply (dijkstra_returns_within_node_count demoGraph 3 1 4).
  - apply elem_of_cons. by left.
  - cbn. lia.
Defined.

(** X2: [dijkstra] returns, for some number of loop steps, exactly when
    [end_] is the id of a node of the graph. *)
Theorem dijkstra_returns_iff_end_is_node (g : Graph.t) (start end_ : Z) :
  (∃ fuel, is_Some (dijkstra fuel start end_ g)) ↔ end_ ∈ ids g.
Proof.
  split.
  - intros [fuel [r Hr]].
    by destruct (dijkstra_Some _ _ _ _ _ Hr) as (? & ? & ? & _ & _ & _ & ? & _).
  - intros Hend. exists (S (length (Graph.nodes g))).
    destruct (dijkstra_run start end_ g Hend) as (st & l & _ & _ & Hrun).
    destruct (Hrun (S (length (Graph.nodes g)))) as (_ & _ & ->); [lia|].
    eauto.
Qed.

(** X3: whatever the weights are, a result of [dijkstra] is the no-path
    result or its [path] is the node sequence of a path of the graph from
    [start] to [end_] none of whose edges has a weight that is missing,
    [NaN] or [Infinity], and [totalWeight] is the sum of those weights,
    added up edge by edge in doubles; it is neither [NaN] nor [Infinity]. *)
Theorem dijkstra_path_is_path
    (g : Graph.t) (start end_ : Z) (fuel : nat) (r : PathResult) :
  dijkstra fuel start end_ g = Some r →
  r = noPath ∨
  ∃ es, edgePath g start end_ es ∧
    Forall relaxable es ∧
    path r = VId <$> vertices start es ∧
    totalWeight r = pathWeight es ∧
    totalWeight r ≠ NaN ∧ totalWeight r ≠ Infinity.
Proof.
  intros Hr.
  destruct (dijkstra_Some _ _ _ _ _ Hr)
    as (st & st0 & l & _ & _ & HI & Hend & Hch & ->).
  destruct (resultOf_cases _ _ _ _ _ HI Hend Hch)
    as [(-> & _)|(es & Hp & Hall & -> & _ & Hnan & Hinf & ->)]; [by left|].
  right. by exists es.
Qed.

Lemma dijkstra_morning_run : dijkstra 4 1 3 morningGraph = Some morningResult.
Proof. evaluate. Qed.

Lemma dijkstra_path_is_path_witness :
  morningResult = noPath ∨
  ∃ es, edgePath morningGraph 1 3 es ∧
    Forall relaxable es ∧
    path morningResult = VId <$> vertices 1 es ∧
    totalWeight morningResult = pathWeight es ∧
    totalWeight morningResult ≠ NaN ∧ totalWeight morningResult ≠ Infinity.
Proof.
  exact (dijkstra_path_is_path morningGraph 1 3 4 morningResult
           dijkstra_morning_run).
Defined.

(** X4: in every result of [dijkstra] the path is empty exactly when
    [totalWeight] is [Infinity], and then [totalDistance] is 0 and
    [pathNodes] is empty; a path that is not empty starts at [start] and
    ends at [end_]; [pathNodes] is as long as [path]. *)
Theorem dijkstra_result_shape
    (g : Graph.t) (start end_ : Z) (fuel : nat) (r : PathResult) :
  dijkstra fuel start end_ g = Some r →
  (path r = [] ↔ totalWeight r = Infinity) ∧
  (path r = [] → totalDistance r = Num (Q2Qc 0) ∧ pathNodes r = []) ∧
  (path r ≠ [] →
     head (path r) = Some (VId start) ∧ last (path r) = Some (VId end_)) ∧
  length (pathNodes r) = length (path r).
Proof.
  intros Hr.
  destruct (dijkstra_Some _ _ _ _ _ Hr)
    as (st & st0 & l & _ & _ & HI & Hend & Hch & ->).
  destruct (resultOf_cases _ _ _ _ _ HI Hend Hch)
    as [(-> & _)|(es & Hp & Hall & Hl & _ & _ & Hinf & ->)]; [done|].
  cbn [path totalWeight totalDistance pathNodes]. rewrite Hl.
  split_and!; try done.
  - intros _. split; [done|]. rewrite <- Hl.
    pose proof (chain_last _ _ _ Hch) as Hlast.
    by rewrite fmap_last, Hlast.
  - by rewrite !length_fmap.
Qed.

Lemma dijkstra_result_shape_witness :
  head (path morningResult) = Some (VId 1) ∧
  last (path morningResult) = Some (VId 3).
Proof.
  destruct (dijkstra_result_shape morningGraph 1 3 4 morningResult
              dijkstra_morning_run) as (_ & _ & H & _).
  by apply H.
Defined.

(** X5: when [end_] is the id of a node that no path from [start] reaches,
    every result of [dijkstra] is the no-path result, whatever the weights
    are. *)
Theorem dijkstra_no_path_result
    (g : Graph.t) (start end_ : Z) (fuel : nat) (r : PathResult) :
  (∀ es, ¬ edgePath g start end_ es) →
  dijkstra fuel start end_ g = Some r → r = noPath.
Proof.
  intros Hno Hr.
  destruct (dijkstra_Some _ _ _ _ _ Hr)
    as (st & st0 & l & _ & _ & HI & Hend & Hch & ->).
  destruct (resultOf_cases _ _ _ _ _ HI Hend Hch)
    as [(-> & _)|(es & Hp & _)]; [done|].
  by apply Hno in Hp.
Qed.

Lemma demoGraph_no_way_back : ∀ es, ¬ edgePath demoGraph 3 1 es.
Proof.
  intros [|e es]; cbn; [done|]. intros (He & Hf & _).
  apply elem_of_cons in He as [->|He]; [done|].
  apply list_elem_of_singleton in He as ->. done.
Qed.

Lemma dijkstra_no_path_result_witness :
  ∃ r, dijkstra 4 3 1 demoGraph = Some r ∧ r = noPath.
Proof.
  destruct (dijkstra 4 3 1 demoGraph) as [r|] eqn:Hr.
  - exists r. split; [done|].
    exact (dijkstra_no_path_result demoGraph 3 1 4 r demoGraph_no_way_back Hr).
  - vm_compute in Hr. discriminate.
Defined.

(** ** Reaching the target with weights of any sign *)

Lemma jsadd_Num_number a z : a ≠ NaN → jsadd a (Num z) ≠ NaN.
Proof. destruct a; cbn [jsadd]; try done. intros _. apply round64_not_NaN. Qed.

(** Finite weights never add up to [NaN]. *)
Lemma pathWeight_number es :
  (∀ e, e ∈ es → ∃ w, edgeWeight e = Num w) → pathWeight es ≠ NaN.
Proof.
  induction es as [|e es IH] using rev_ind; [done|]. intros Hw.
  rewrite pathWeight_snoc. destruct (Hw e) as [w ->].
  { apply elem_of_app. right. by apply list_elem_of_singleton. }
  apply jsadd_Num_number, IH. intros e' He'. apply Hw, elem_of_app. by left.
Qed.

(** A [dist] other than [Infinity] is the weight of a path from [start]. *)
Lemma dist_is_pathWeight start g st v :
  Inv start g st → v ∈ ids g → distOf (dist st) v ≠ Infinity →
  ∃ es, edgePath g start v es ∧ distOf (dist st) v = pathWeight es.
Proof.
  intros HI Hv Hfin.
  destruct (Inv_chain start g st v HI Hv) as [(es & _ & Hch)|[Hch _]];
    destruct (chain_path _ _ _ _ _ HI Hch Hfin) as (es' & Hp & _ & Hd); eauto.
Qed.

Lemma relaxEdge_finite m unv d p e d1 p1 :
  relaxEdge m unv (d, p) e = (d1, p1) →
  (∀ k, k ∉ unv → d1 !! k = d !! k) ∧
  (∀ k, distOf d k ≠ Infinity → distOf d1 k ≠ Infinity) ∧
  (∀ k, isNumber (distOf d k) → isNumber (distOf d1 k)) ∧
  (jsadd (distOf d m) (edgeWeight e) ≠ NaN →
   jsadd (distOf d m) (edgeWeight e) ≠ Infinity →
   Edge.to e ∈ unv → isNumber (distOf d (Edge.to e)) →
   distOf d1 (Edge.to e) ≠ Infinity).
Proof.
  unfold relaxEdge. cbn [fst snd].
  set (x := jsadd (distOf d m) (edgeWeight e)).
  destruct (Set_has unv (Edge.to e)) eqn:Hhas; cbn [negb].
  - apply Set_has_true in Hhas.
    destruct (jslt x (distOf d (Edge.to e))) eqn:Hlt; intros [= <- <-].
    + destruct (jslt_true_l _ _ Hlt) as [Hnan Hinf]. split_and!.
      * intros k Hk. rewrite lookup_insert_ne; [done|]. by intros <-.
      * intros k Hk. destruct (decide (Edge.to e = k)) as [<-|Hne].
        -- by rewrite distOf_insert_eq.
        -- by rewrite distOf_insert_ne.
      * intros k Hk. destruct (decide (Edge.to e = k)) as [<-|Hne].
        -- by rewrite distOf_insert_eq.
        -- by rewrite distOf_insert_ne.
      * intros _ _ _ _. by rewrite distOf_insert_eq.
    + split_and!; try done. intros Hnan Hinf _ Hn Hd.
      pose proof (jslt_false_le _ _ Hnan Hn Hlt) as Hle.
      rewrite Hd in Hle. by apply jsle_Infinity_l in Hle.
  - intros [= <- <-]. split_and!; try done.
    intros _ _ Hin. apply Set_has_true in Hin. congruence.
Qed.

Lemma relaxEdges_finite m unv es :
  ∀ d p d' p', m ∉ unv →
  foldl (relaxEdge m unv) (d, p) es = (d', p') →
  (∀ k, k ∈ unv → isNumber (distOf d k)) →
  (∀ k, k ∉ unv → d' !! k = d !! k) ∧
  (∀ k, distOf d k ≠ Infinity → distOf d' k ≠ Infinity) ∧
  (∀ e, e ∈ es →
     jsadd (distOf d m) (edgeWeight e) ≠ NaN →
     jsadd (distOf d m) (edgeWeight e) ≠ Infinity →
     Edge.to e ∈ unv → distOf d' (Edge.to e) ≠ Infinity).
Proof.
  induction es as [|e es IH]; intros d p d' p' Hm; cbn [foldl].
  - intros [= <- <-] _. split_and!; [done|done|].
    by intros e ?%elem_of_nil.
  - destruct (relaxEdge m unv (d, p) e) as [d1 p1] eqn:E1.
    destruct (relaxEdge_finite _ _ _ _ _ _ _ E1) as (H1 & H2 & H3 & H4).
    intros Hfold Hn.
    assert (∀ k, k ∈ unv → isNumber (distOf d1 k)) as Hn1.
    { intros k Hk. by apply H3, Hn. }
    destruct (IH _ _ _ _ Hm Hfold Hn1) as (I1 & I2 & I3).
    assert (distOf d1 m = distOf d m) as Hx1.
    { unfold distOf. by rewrite H1. }
    split_and!.
    + intros k Hk. by rewrite I1, H1.
    + intros k Hk. by apply I2, H2.
    + intros e' [->|He']%elem_of_cons Hnan Hinf Hto.
      * apply I2, H4; try done. by apply Hn.
      * apply (I3 e'); try done; by rewrite Hx1.
Qed.

Lemma relaxedFinite_init start g : relaxedFinite g (initTables start g).
Proof.
  intros e _ [Hin Hn]. exfalso. apply Hn.
  rewrite initTables_unvisited. by apply elem_of_Set_new.
Qed.

Lemma relaxedFinite_step start g st m :
  weightsFinite g →
  (∀ a es, edgePath g start a es → pathWeight es ≠ Infinity) →
  Inv start g st → relaxedFinite g st →
  selectMin (dist st) (unvisited st) = Some m →
  isInfinity (distOf (dist st) m) = false →
  relaxedFinite g (relax g m (visit st m)).
Proof.
  intros Hw Hpaths HI HF Hsel Hfin.
  pose proof (selectMin_elem _ _ _ Hsel) as Hm.
  pose proof (inv_unvisited _ _ _ HI _ Hm) as Hmid.
  assert (∀ k, k ∈ unvisited st → isNumber (distOf (dist st) k)) as Hn.
  { intros k Hk. by apply (inv_number _ _ _ HI), (inv_unvisited _ _ _ HI). }
  apply isInfinity_false in Hfin.
  destruct (dist_is_pathWeight _ _ _ _ HI Hmid Hfin) as (esm & Hpm & Hdm).
  assert (∀ e, e ∈ Graph.edges g → Edge.from e = m → Edge.to e ∈ ids g →
            jsadd (distOf (dist st) m) (edgeWeight e) ≠ NaN ∧
            jsadd (distOf (dist st) m) (edgeWeight e) ≠ Infinity) as Halt.
  { intros e He Hf Hto. rewrite Hdm, <- pathWeight_snoc.
    assert (edgePath g start (Edge.to e) (esm ++ [e])) as Hp.
    { eapply edgePath_app; [done|]. by split_and!. }
    split; [|by eapply Hpaths].
    apply pathWeight_number. intros e' He'. apply Hw.
    by eapply edgePath_edges. }
  assert (∀ u, visited g (unvisited st) u → distOf (dist st) u ≠ Infinity)
    as Hvis.
  { intros u Hu.
    destruct (inv_tree _ _ _ HI u Hu) as (es & _ & _ & Hd & Hni & _).
    by rewrite Hd. }
  clear Hdm Hpm.
  destruct st as [d p unv]. unfold relax, visit, relaxedFinite in *.
  cbn [dist prev unvisited] in *. set (unv1 := Set_delete unv m).
  destruct (foldl (relaxEdge m unv1) (d, p)
              (filter (λ e, Edge.from e = m) (Graph.edges g)))
    as [d' p'] eqn:Hfold.
  assert (m ∉ unv1) as Hm1 by (by intros [_ ?]%elem_of_Set_delete).
  destruct (relaxEdges_finite m unv1 _ d p d' p' Hm1 Hfold) as (I1 & I2 & I3).
  { intros k [Hk _]%elem_of_Set_delete. by apply Hn. }
  cbn [dist prev unvisited]. intros e He [Hfid Hfv] Hto.
  assert (Edge.from e = m ∨ visited g unv (Edge.from e)) as Hfrom.
  { destruct (decide (Edge.from e = m)); [by left|]. right.
    split; [done|]. intros ?. apply Hfv. by apply elem_of_Set_delete. }
  destruct (decide (Edge.to e ∈ unv1)) as [Hin|Hout].
  - destruct Hfrom as [Hfm|Hfvis].
    + destruct (Halt e He Hfm Hto) as [Hnan Hinf].
      apply (I3 e); try done. by apply adjacentEdges_spec.
    + by apply I2, (HF e).
  - apply I2. destruct (decide (Edge.to e = m)) as [->|Hne]; [done|].
    apply Hvis. split; [done|]. intros ?. apply Hout.
    by apply elem_of_Set_delete.
Qed.

Lemma reachable_relaxedFinite start end_ g st :
  weightsFinite g →
  (∀ a es, edgePath g start a es → pathWeight es ≠ Infinity) →
  reachable start end_ g st → relaxedFinite g st.
Proof.
  intros Hw Hpaths.
  induction 1 as [|st m Hr IH _ Hsel Hfin _]; [apply relaxedFinite_init|].
  eapply relaxedFinite_step; try done. by eapply reachable_Inv.
Qed.

(** X6: in a graph whose edges all have a finite weight, of whatever sign,
    and in which the weights of no path from [start] add up to [Infinity],
    with [start] the id of a node and some path from [start] to [end_], no
    result of [dijkstra] is the no-path result: its [path] is the node
    sequence of a path from [start] to [end_] and [totalWeight] is that
    path's weight, added up edge by edge in doubles. *)
Theorem dijkstra_finds_a_path
    (g : Graph.t) (start end_ : Z) (fuel : nat) (r : PathResult) :
  weightsFinite g → start ∈ ids g →
  (∀ a es, edgePath g start a es → pathWeight es ≠ Infinity) →
  (∃ es0, edgePath g start end_ es0) →
  dijkstra fuel start end_ g = Some r →
  ∃ es, edgePath g start end_ es ∧
    path r = VId <$> vertices start es ∧
    totalWeight r = pathWeight es.
Proof.
  intros Hw Hs Hpaths [es0 Hp0] Hr.
  destruct (dijkstra_Some _ _ _ _ _ Hr)
    as (st & st0 & l & Hreach & Hex & HI & Hend & Hch & ->).
  destruct (resultOf_cases _ _ _ _ _ HI Hend Hch)
    as [(_ & Hinf & Hne)|(es & Hp & _ & -> & _ & _ & _ & ->)];
    [|by exists es].
  exfalso.
  pose proof (reachable_Inv _ _ _ _ Hreach) as HI0.
  pose proof (reachable_relaxedFinite _ _ _ _ Hw Hpaths Hreach) as HF.
  assert (∀ st1, Inv start g st1 → visited g (unvisited st1) end_ →
            distOf (dist st1) end_ ≠ Infinity) as Hvis.
  { intros st1 HI1 Hv.
    destruct (inv_tree _ _ _ HI1 _ Hv) as (? & _ & _ & Hd & Hni & _).
    by rewrite Hd. }
  destruct Hex as [st Hempty|st m Hsel Hm|st Hsel Hfin].
  - apply (Hvis st HI); [|done]. split; [done|]. rewrite Hempty.
    apply not_elem_of_nil.
  - destruct (decide (end_ ∈ unvisited st)) as [Hin|Hout];
      [|by apply (Hvis st HI)].
    assert (∀ k, k ∈ unvisited st → isNumber (distOf (dist st) k)) as Hn.
    { intros k Hk. by apply (inv_number _ _ _ HI), (inv_unvisited _ _ _ HI). }
    assert (∃ y, y ∈ unvisited st ∧ distOf (dist st) y ≠ Infinity)
      as (y & Hy & Hyx).
    { destruct (decide (start ∈ unvisited st)) as [Hsu|Hsv].
      - exists start. split; [done|].
        by rewrite (proj1 (Inv_start _ _ _ HI Hs)).
      - destruct (first_crossing g _ _ _ _ Hs Hsv Hin Hp0)
          as (es1 & e & es2 & _ & _ & Hx & He & Hto & Htoid).
        exists (Edge.to e). split; [done|]. by apply (HF e). }
    pose proof (selectMin_le _ _ m y Hn Hsel Hy) as Hle.
    assert (distOf (dist st) m = Infinity) as Hmi
      by (by destruct (distOf (dist st) m)).
    rewrite Hmi in Hle. by apply jsle_Infinity_l in Hle.
  - cbn [visit dist] in Hinf. by rewrite Hinf in Hfin.
Qed.

Lemma morningGraph_weightsFinite : weightsFinite morningGraph.
Proof.
  intros e He. cbn [morningGraph Graph.edges] in He.
  apply elem_of_cons in He as [->|He];
    [|apply list_elem_of_singleton in He as ->]; by eexists.
Qed.

Lemma morningGraph_paths_finite a es :
  edgePath morningGraph 1 a es → pathWeight es ≠ Infinity.
Proof.
  assert (∀ e, e ∈ Graph.edges morningGraph → Edge.from e ≠ 3) as H3.
  { intros e He. cbn [morningGraph Graph.edges] in He.
    apply elem_of_cons in He as [->|He];
      [|apply list_elem_of_singleton in He as ->]; done. }
  destruct es as [|e1 es]; [done|]. intros (He1 & Hf1 & _ & Hp).
  cbn [morningGraph Graph.edges] in He1.
  apply elem_of_cons in He1 as [->|He1];
    [|apply list_elem_of_singleton in He1 as ->; done].
  destruct es as [|e2 es]; [by vm_compute|].
  cbn [edgePath Edge.to] in Hp. destruct Hp as (He2 & Hf2 & _ & Hp).
  cbn [morningGraph Graph.edges] in He2.
  apply elem_of_cons in He2 as [->|He2];
    [done|apply list_elem_of_singleton in He2 as ->].
  destruct es as [|e3 es]; [by vm_compute|].
  cbn [edgePath Edge.to] in Hp. destruct Hp as (He3 & Hf3 & _).
  by apply H3 in He3.
Qed.

Lemma dijkstra_finds_a_path_witness :
  ∃ es, edgePath morningGraph 1 3 es ∧
    path morningResult = VId <$> vertices 1 es ∧
    totalWeight morningResult = pathWeight es.
Proof.
  apply (dijkstra_finds_a_path morningGraph 1 3 4 morningResult).
  - exact morningGraph_weightsFinite.
  - apply elem_of_cons. by left.
  - exact morningGraph_paths_finite.
  - exists (Graph.edges morningGraph). exact morningGraph_path.
  - exact dijkstra_morning_run.
Defined.

(** ** The raw distance of the returned path *)

Lemma findEdge_Some g a b e :
  e ∈ Graph.edges g → Edge.from e = a → Edge.to e = b →
  ∃ e', findEdge g (VId a) (VId b) = Some e' ∧ e' ∈ Graph.edges g ∧
    Edge.from e' = a ∧ Edge.to e' = b.
Proof.
  intros He Hf Ht. unfold findEdge.
  destruct (List.find _ _) as [e'|] eqn:Hfind.
  - apply List.find_some in Hfind as [Hin Hp].
    apply andb_prop in Hp as [H1 H2]. simpl in H1, H2.
    apply bool_decide_eq_true in H1. apply bool_decide_eq_true in H2.
    exists e'. split_and!; try done. by apply list_elem_of_In.
  - exfalso. apply list_elem_of_In in He.
    pose proof (List.find_none _ _ Hfind e He) as Hp. simpl in Hp.
    rewrite !bool_decide_eq_true_2 in Hp by done. done.
Qed.

Lemma sumDistances_step g a b es acc :
  sumDistances g (VId a :: (VId <$> vertices b es)) acc =
  sumDistances g (VId <$> vertices b es)
    (match findEdge g (VId a) (VId b) with
     | Some e => jsadd acc (Num (Edge.distance e))
     | None => acc
     end).
Proof. reflexivity. Qed.

Lemma sumDistances_path g es :
  sameDistance g →
  ∀ a b acc, edgePath g a b es →
    sumDistances g (VId <$> vertices a es) acc =
    foldl (λ acc e, jsadd acc (Num (Edge.distance e))) acc es.
Proof.
  intros Hsame. induction es as [|e es IH]; intros a b acc.
  - by intros _.
  - intros (He & Hf & Hto & Hp).
    change (VId <$> vertices a (e :: es))
      with (VId a :: (VId <$> vertices (Edge.to e) es)).
    rewrite sumDistances_step.
    destruct (findEdge_Some g a (Edge.to e) e He Hf eq_refl)
      as (e' & -> & He' & Hf' & Ht').
    rewrite (Hsame e' e He' He) by congruence.
    by rewrite (IH _ b _ Hp).
Qed.

(** X7: when edges that join the same two ids have the same distance, the
    [totalDistance] of a result that is not the no-path result is the sum of
    the distances of the edges of the returned path, added up edge by edge
    in doubles: no step of the path goes without an edge. *)
Theorem dijkstra_totalDistance
    (g : Graph.t) (start end_ : Z) (fuel : nat) (r : PathResult) :
  sameDistance g →
  dijkstra fuel start end_ g = Some r →
  r = noPath ∨
  ∃ es, edgePath g start end_ es ∧
    path r = VId <$> vertices start es ∧
    totalWeight r = pathWeight es ∧
    totalDistance r = pathDistance es.
Proof.
  intros Hsame Hr.
  destruct (dijkstra_Some _ _ _ _ _ Hr)
    as (st & st0 & l & _ & _ & HI & Hend & Hch & ->).
  destruct (resultOf_cases _ _ _ _ _ HI Hend Hch)
    as [(-> & _)|(es & Hp & Hall & -> & _ & _ & _ & ->)]; [by left|].
  right. exists es. split_and!; try done. cbn [totalDistance].
  by rewrite (sumDistances_path g es Hsame _ _ _ Hp).
Qed.

Lemma morningGraph_sameDistance : sameDistance morningGraph.
Proof.
  intros e e' He He'. cbn [morningGraph Graph.edges] in He, He'.
  apply elem_of_cons in He as [->|He];
    [|apply list_elem_of_singleton in He as ->];
    (apply elem_of_cons in He' as [->|He'];
     [|apply list_elem_of_singleton in He' as ->]); done.
Qed.

Lemma dijkstra_totalDistance_witness :
  morningResult = noPath ∨
  ∃ es, edgePath morningGraph 1 3 es ∧
    path morningResult = VId <$> vertices 1 es ∧
    totalWeight morningResult = pathWeight es ∧
    totalDistance morningResult = pathDistance es.
Proof.
  exact (dijkstra_totalDistance morningGraph 1 3 4 morningResult
           morningGraph_sameDistance dijkstra_morning_run).
Defined.

Lemma foldl_distance_le es :
  ∀ a b, jsle a b →
  Forall (λ e, jsle (Num (Edge.distance e)) (edgeWeight e) ∧
               edgeWeight e ≠ Infinity) es →
  jsle (foldl (λ acc e, jsadd acc (Num (Edge.distance e))) a es)
       (foldl (λ acc e, jsadd acc (edgeWeight e)) b es).
Proof.
  induction es as [|e es IH]; intros a b Hab; cbn [foldl]; [done|].
  intros [[Hle Hinf] Hall]%Forall_cons. apply IH; [|done].
  destruct (jsle_isNumber _ _ Hab) as [Ha Hb].
  destruct (edgeWeight e) as [w| | |] eqn:Hw; try done.
  apply jsadd_mono; try done; by apply jsadd_Num_number.
Qed.

(** X8: when, in addition, no edge that the search can relax weighs less
    than its distance, the [totalDistance] of a result is at most its
    [totalWeight]. *)
Theorem dijkstra_totalDistance_le_totalWeight
    (g : Graph.t) (start end_ : Z) (fuel : nat) (r : PathResult) :
  sameDistance g →
  (∀ e, e ∈ Graph.edges g → relaxable e →
     jsle (Num (Edge.distance e)) (edgeWeight e)) →
  dijkstra fuel start end_ g = Some r →
  jsle (totalDistance r) (totalWeight r).
Proof.
  intros Hsame Hle Hr.
  destruct (dijkstra_Some _ _ _ _ _ Hr)
    as (st & st0 & l & _ & _ & HI & Hend & Hch & ->).
  destruct (resultOf_cases _ _ _ _ _ HI Hend Hch)
    as [(-> & _)|(es & Hp & Hall & -> & _ & _ & _ & ->)]; [done|].
  cbn [totalDistance totalWeight].
  rewrite (sumDistances_path g es Hsame _ _ _ Hp).
  apply foldl_distance_le; [apply jsle_refl; done|].
  apply Forall_forall. intros e He.
  pose proof (proj1 (Forall_forall _ _) Hall e He) as Hrel.
  split; [|apply Hrel]. apply Hle; [|done]. by eapply edgePath_edges.
Qed.

Lemma dijkstra_totalDistance_le_totalWeight_witness :
  jsle (totalDistance morningResult) (totalWeight morningResult).
Proof.
  apply (dijkstra_totalDistance_le_totalWeight morningGraph 1 3 4).
  - apply morningGraph_sameDistance.
  - intros e He _. cbn [morningGraph Graph.edges] in He.
    apply elem_of_cons in He as [->|He];
      [|apply list_elem_of_singleton in He as ->]; by vm_compute.
  - exact dijkstra_morning_run.
Defined.

(** ** The node records of the returned path *)

Lemma Map_new_lookup (l : list Node.t) (k : Z) :
  (∀ n, Map_new l !! k = Some n → n ∈ l ∧ Node.id n = k) ∧
  (k ∈ Node.id <$> l → is_Some (Map_new l !! k)).
Proof.
  unfold Map_new.
  assert (∀ m : gmap Z Node.t,
    (∀ n, foldl (λ m n, <[Node.id n := n]> m) m l !! k = Some n →
       n ∈ l ∧ Node.id n = k ∨ m !! k = Some n) ∧
    (k ∈ Node.id <$> l ∨ is_Some (m !! k) →
       is_Some (foldl (λ m n, <[Node.id n := n]> m) m l !! k))) as H.
  { induction l as [|x l IH]; intros m; simpl.
    - split; [auto|]. intros [?%elem_of_nil|?]; done.
    - destruct (IH (<[Node.id x := x]> m)) as [IH1 IH2]. split.
      + intros n [[Hn Hid]|Hm]%IH1.
        * left. split; [|done]. apply elem_of_cons. by right.
        * destruct (decide (Node.id x = k)) as [Hk|Hk].
          -- rewrite <- Hk, lookup_insert_eq in Hm. injection Hm as <-.
             left. split; [|done]. apply elem_of_cons. by left.
          -- rewrite lookup_insert_ne in Hm by done. by right.
      + intros Hk. apply IH2.
        destruct (decide (Node.id x = k)) as [<-|Hne].
        * right. rewrite lookup_insert_eq. eauto.
        * rewrite lookup_insert_ne by done.
          destruct Hk as [[?|?]%elem_of_cons|?]; [congruence|by left|by right]. }
  destruct (H ∅) as [H1 H2]. split.
  - intros n [?|Hn]%H1; [done|]. by rewrite lookup_empty in Hn.
  - intros Hk. apply H2. by left.
Qed.

(** X9: every entry of [pathNodes] is a node record of the graph, and its id
    is the entry of [path] at the same place. *)
Theorem dijkstra_pathNodes
    (g : Graph.t) (start end_ : Z) (fuel : nat) (r : PathResult) :
  dijkstra fuel start end_ g = Some r →
  Forall2 (λ v n, ∃ nd, n = Some nd ∧ nd ∈ Graph.nodes g ∧
                        v = VId (Node.id nd))
    (path r) (pathNodes r).
Proof.
  intros Hr.
  destruct (dijkstra_Some _ _ _ _ _ Hr)
    as (st & st0 & l & _ & _ & HI & Hend & Hch & ->).
  destruct (resultOf_cases _ _ _ _ _ HI Hend Hch)
    as [(-> & _)|(es & Hp & Hall & Hl & _ & _ & _ & ->)]; [constructor|].
  simpl. apply Forall2_fmap_r, Forall_Forall2_diag, Forall_fmap.
  apply Forall_forall. intros k Hk. simpl.
  assert (k ∈ ids g) as Hkid.
  { apply (inv_dom_prev _ _ _ HI). by eapply chain_dom. }
  destruct (Map_new_lookup (Graph.nodes g) k) as [H1 H2].
  destruct (H2 Hkid) as [nd Hnd]. destruct (H1 nd Hnd) as [Hin <-].
  eauto.
Qed.

Lemma dijkstra_pathNodes_witness :
  Forall2 (λ v n, ∃ nd, n = Some nd ∧ nd ∈ Graph.nodes morningGraph ∧
                        v = VId (Node.id nd))
    (path morningResult) (pathNodes morningResult).
Proof.
  exact (dijkstra_pathNodes morningGraph 1 3 4 morningResult
           dijkstra_morning_run).
Defined.

(** ** Further properties of [initEdgeWeights] *)

(** X10: [initEdgeWeights] throws, and then a [TypeError], exactly when some
    edge of the graph has no flow mapping, whatever the period is. *)
Theorem initEdgeWeights_throws_iff (g : Graph.t) (timePeriod : string) :
  initEdgeWeights g timePeriod = Throw TypeError ↔
  ∃ e, e ∈ Graph.edges g ∧ Edge.flow e = None.
Proof.
  rewrite initEdgeWeights_eq. split.
  - destruct (forEachM _ _) as [es|x] eqn:Hes; cbn [rbind]; [done|]. intros _.
    destruct (proj1 (forEachM_Throw _ _ _) Hes) as (e & He & Hset).
    exists e. split; [done|]. by apply setWeight_Throw in Hset as [? _].
  - intros (e & He & Hflow).
    assert (forEachM (setWeight timePeriod) (Graph.edges g) = Throw TypeError)
      as ->; [|done].
    apply forEachM_Throw. exists e. split; [done|].
    by apply setWeight_Throw.
Qed.

Lemma setWeight_again p1 p2 e e' :
  setWeight p1 e = Ok e' → setWeight p2 e' = setWeight p2 e.
Proof. intros (f & Hf & ->)%setWeight_Ok. done. Qed.

(** X11: the weights of an earlier call are forgotten: weighting the result
    of [initEdgeWeights] for a period gives what weighting the input for
    that period gives; for the same period it gives the result back. *)
Theorem initEdgeWeights_again
    (g g1 : Graph.t) (p1 p2 : string) :
  initEdgeWeights g p1 = Ok g1 →
  initEdgeWeights g1 p2 = initEdgeWeights g p2 ∧
  initEdgeWeights g1 p1 = Ok g1.
Proof.
  intros Hg1.
  assert (∀ p, initEdgeWeights g1 p = initEdgeWeights g p) as Hp.
  { intros p. apply initEdgeWeights_Ok in Hg1 as [Hn Hes].
    rewrite !initEdgeWeights_eq, Hn. f_equal.
    induction Hes as [|e e' l l' He _ IH]; [done|]. cbn [forEachM].
    by rewrite (setWeight_again _ _ _ _ He), IH. }
  split; [apply Hp|]. by rewrite Hp.
Qed.

Lemma initEdgeWeights_again_witness :
  initEdgeWeights morningGraph "evening" = initEdgeWeights demoGraph "evening" ∧
  initEdgeWeights morningGraph "morning" = Ok morningGraph.
Proof.
  apply (initEdgeWeights_again demoGraph morningGraph "morning" "evening").
  exact (proj1 dijkstra_morning).
Defined.

(** *** Weights that are not negative *)

Lemma Forall2_elem_r {A B} (P : A → B → Prop) l k y :
  Forall2 P l k → y ∈ k → ∃ x, x ∈ l ∧ P x y.
Proof.
  induction 1 as [|x y' l k Hxy _ IH]; [by intros ?%elem_of_nil|].
  intros [->|Hy]%elem_of_cons.
  - exists x. split; [|done]. apply elem_of_cons. by left.
  - destruct (IH Hy) as (x' & Hx' & HP). exists x'. split; [|done].
    apply elem_of_cons. by right.
Qed.

Lemma floorLog2_le x a : 0 ≤ a → (x <= 2 ^ a)%Q → floorLog2 x ≤ a.
Proof.
  intros Ha Hx. destruct (Qlt_le_dec 0 x) as [Hpos|Hneg].
  - destruct (floorLog2_spec x Hpos) as [S1 _].
    assert (2 ^ floorLog2 x < 2 ^ (a + 1))%Q as Hlt.
    { eapply Qle_lt_trans; [exact S1|]. eapply Qle_lt_trans; [exact Hx|].
      apply pow2_lt. lia. }
    apply pow2_lt_inv in Hlt. lia.
  - unfold floorLog2. destruct x as [n d]. cbn [Qnum Qden].
    assert (n ≤ 0) as Hn by (unfold Qle in Hneg; simpl in Hneg; lia).
    rewrite (Z.log2_nonpos n Hn).
    pose proof (Z.log2_nonneg (Z.pos d)).
    destruct (Qle_bool _ _); lia.
Qed.

(** A number between 0 and [2^1023] rounds to a finite double. *)
Lemma round64_finite (x : Q) :
  (0 <= x)%Q → (x <= 2 ^ 1023)%Q → ∃ y, round64 x = Num y.
Proof.
  intros H0 Hx. unfold round64.
  rewrite (proj2 (Qle_bool_iff 0 x) H0).
  assert (nearest x <= 2 ^ 1023)%Q as Hn.
  { apply nearest_le_pow2; [|done]. unfold lastPlace.
    pose proof (floorLog2_le x 1023 ltac:(lia) Hx). lia. }
  assert (Qle_bool (2 ^ 1024) (nearest x) = false) as ->; [|by eexists].
  apply Qle_bool_false. eapply Qle_lt_trans; [exact Hn|].
  apply pow2_lt. lia.
Qed.

(** [1 + c] is a finite double, not below 1, for a coefficient between 0
    and [2^1022]. *)
Lemma onePlus_bound (c : Qc) :
  (0 <= c)%Q → (c <= 2 ^ 1022)%Q →
  ∃ s, jsadd (Num (Q2Qc 1)) (Num c) = Num s ∧ (Q2Qc 1 ≤ s)%Qc.
Proof.
  intros H0 Hc. cbn [jsadd].
  assert (Q2Qc 1 ≤ Q2Qc 1 + c)%Qc as Hle.
  { apply Qcle_plus_nonneg. unfold Qcle. by cbn. }
  destruct (round64_finite (Q2Qc 1 + c)%Qc) as [s Hs].
  - unfold Qcplus. cbn [this Q2Qc]. rewrite Qred_correct.
    change (Qred 1) with 1%Q. lra.
  - unfold Qcplus. cbn [this Q2Qc]. rewrite Qred_correct.
    change (Qred 1) with 1%Q.
    pose proof (pow2_add 1022 1) as E.
    change (2 ^ (1022 + 1))%Q with (2 ^ 1023)%Q in E.
    change (2 ^ 1)%Q with 2%Q in E.
    pose proof (pow2_le 0 1022 ltac:(lia)) as H1.
    change (2 ^ 0)%Q with 1%Q in H1.
    revert E H1 Hc. generalize (2 ^ 1022)%Q (2 ^ 1023)%Q. intros P P' E H1 Hc.
    lra.
  - exists s. split; [done|].
    pose proof (round64_Qc_mono _ _ Hle) as Hm.
    by rewrite isDouble_one, Hs in Hm.
Qed.

Lemma defaultFlowRate_bound : boundedRate defaultFlowRate.
Proof. split; by vm_compute. Qed.

Lemma usedFlowRate_usable f timePeriod :
  match f !! timePeriod with
  | Some c => boundedRate c
  | None => timePeriod ∉ objectPrototypeKeys
  end →
  ∃ c, usedFlowRate f timePeriod = Rate c ∧ boundedRate c.
Proof.
  unfold usedFlowRate. destruct (f !! timePeriod) as [c|].
  - intros Hc. case_decide; [|by exists c].
    exists defaultFlowRate. split; [done|apply defaultFlowRate_bound].
  - intros Hp. rewrite decide_False by done.
    exists defaultFlowRate. split; [done|apply defaultFlowRate_bound].
Qed.

Lemma weightOf_bound (d c : Qc) :
  (Q2Qc 0 ≤ d)%Qc → (0 <= c)%Q → (c <= 2 ^ 1022)%Q →
  jsle (Num (Q2Qc 0)) (weightOf d (Rate c)) ∧
  (isDouble d → jsle (Num d) (weightOf d (Rate c))).
Proof.
  intros Hd H0 Hc. cbn [weightOf].
  destruct (onePlus_bound c H0 Hc) as (s & -> & Hs). cbn [jsmul].
  assert (d ≤ d * s)%Qc as Hle.
  { rewrite (Qcmult_comm d). rewrite <- (Qcmult_1_l d) at 1.
    by apply Qcmult_le_compat_r. }
  split.
  - rewrite <- round64_zero. apply round64_Qc_mono.
    exact (Qcle_trans _ _ _ Hd Hle).
  - intros Hdd. unfold isDouble in Hdd. rewrite <- Hdd.
    by apply round64_Qc_mono.
Qed.

Lemma initEdgeWeights_edge_bound g g' timePeriod :
  (∀ e, e ∈ Graph.edges g → (Q2Qc 0 ≤ Edge.distance e)%Qc) →
  usablePeriod g timePeriod →
  initEdgeWeights g timePeriod = Ok g' →
  ∀ e', e' ∈ Graph.edges g' →
    jsle (Num (Q2Qc 0)) (edgeWeight e') ∧
    (isDouble (Edge.distance e') →
     jsle (Num (Edge.distance e')) (edgeWeight e')).
Proof.
  intros Hd Hc [_ Hes]%initEdgeWeights_Ok e' He'.
  destruct (Forall2_elem_r _ _ _ _ Hes He') as (e & He & Hset).
  apply setWeight_Ok in Hset as (f & Hf & ->).
  unfold edgeWeight. cbn [Edge.weight Edge.distance toNumber].
  destruct (usedFlowRate_usable f timePeriod (Hc e f He Hf))
    as (c & -> & H0 & H1).
  apply weightOf_bound; [by apply Hd|done..].
Qed.

(** X12: on a graph whose distances are not negative, for a period whose
    coefficients are between 0 and [2^1022] and that, where a flow mapping
    lacks it, is not the name of a member of [Object.prototype], the weights
    that [initEdgeWeights] sets are numbers that are not negative
    ([Infinity] where the product overflows), and none is below the distance
    of its edge, that distance being a double. *)
Theorem initEdgeWeights_weights_bound
    (g g' : Graph.t) (timePeriod : string) :
  (∀ e, e ∈ Graph.edges g → (Q2Qc 0 ≤ Edge.distance e)%Qc) →
  usablePeriod g timePeriod →
  initEdgeWeights g timePeriod = Ok g' →
  weighted g' ∧
  ∀ e', e' ∈ Graph.edges g' → isDouble (Edge.distance e') →
    jsle (Num (Edge.distance e')) (edgeWeight e').
Proof.
  intros Hd Hc Hg. split.
  - intros e' He'.
    by destruct (initEdgeWeights_edge_bound _ _ _ Hd Hc Hg e' He').
  - intros e' He' Hdd.
    destruct (initEdgeWeights_edge_bound _ _ _ Hd Hc Hg e' He') as [_ H].
    by apply H.
Qed.

Lemma demoGraph_distances :
  ∀ e, e ∈ Graph.edges demoGraph → (Q2Qc 0 ≤ Edge.distance e)%Qc.
Proof.
  intros e He. cbn [demoGraph Graph.edges] in He.
  apply elem_of_cons in He as [->|He];
    [|apply list_elem_of_singleton in He as ->]; by vm_compute.
Qed.

Lemma demoGraph_morning_usable : usablePeriod demoGraph "morning".
Proof.
  intros e f He. cbn [demoGraph Graph.edges] in He.
  apply elem_of_cons in He as [->|He];
    [|apply list_elem_of_singleton in He as ->];
    intros [= <-]; vm_compute; by split.
Qed.

Lemma initEdgeWeights_weights_bound_witness :
  weighted morningGraph ∧
  ∀ e', e' ∈ Graph.edges morningGraph → isDouble (Edge.distance e') →
    jsle (Num (Edge.distance e')) (edgeWeight e').
Proof.
  apply (initEdgeWeights_weights_bound demoGraph morningGraph "morning").
  - exact demoGraph_distances.
  - exact demoGraph_morning_usable.
  - exact (proj1 dijkstra_morning).
Defined.

(** ** Heavier edges, heavier way *)

Lemma lighter_weighted g1 g2 : lighter g1 g2 → weighted g1.
Proof.
  intros [_ Hes] e He.
  by destruct (Forall2_elem_l _ _ _ _ Hes He) as (e2 & _ & _ & Hpos & _).
Qed.

Lemma lighter_ids g1 g2 : lighter g1 g2 → ids g1 = ids g2.
Proof. intros [Hn _]. unfold ids. by rewrite Hn. Qed.

Lemma foldl_weight_le es1 es2 :
  Forall2 (λ e1 e2, jsle (Num (Q2Qc 0)) (edgeWeight e1) ∧
                    jsle (edgeWeight e1) (edgeWeight e2)) es1 es2 →
  ∀ a b, jsle (Num (Q2Qc 0)) a → jsle a b →
    jsle (foldl (λ acc e, jsadd acc (edgeWeight e)) a es1)
         (foldl (λ acc e, jsadd acc (edgeWeight e)) b es2).
Proof.
  induction 1 as [|e1 e2 es1 es2 [H0 Hle] _ IH]; intros a b Ha Hab;
    cbn [foldl]; [done|].
  pose proof (jsle_trans _ _ _ Ha Hab) as Hb.
  pose proof (jsle_trans _ _ _ H0 Hle) as H2.
  apply IH; [by apply jsadd_nonneg|].
  apply jsadd_mono; try done.
  - by apply (jsle_isNumber _ _ (jsadd_nonneg _ _ Ha H0)).
  - by apply (jsle_isNumber _ _ (jsadd_nonneg _ _ Hb H2)).
Qed.

(** A path of the heavier graph is, edge by edge, a path of the lighter one
    that weighs no more. *)
Lemma lighter_path g1 g2 es2 :
  lighter g1 g2 →
  ∀ a b, edgePath g2 a b es2 →
    ∃ es1, edgePath g1 a b es1 ∧ jsle (pathWeight es1) (pathWeight es2).
Proof.
  intros Hl.
  assert (∀ a b, edgePath g2 a b es2 →
    ∃ es1, edgePath g1 a b es1 ∧
      Forall2 (λ e1 e2, jsle (Num (Q2Qc 0)) (edgeWeight e1) ∧
                        jsle (edgeWeight e1) (edgeWeight e2)) es1 es2) as H.
  { induction es2 as [|e2 es2 IH]; intros a b; simpl.
    - intros ->. exists []. split; [done|constructor].
    - intros (He & Hf & Hto & Hp). destruct (IH _ _ Hp) as (es1 & Hp1 & Hle).
      destruct (Forall2_elem_r _ _ _ _ (proj2 Hl) He)
        as (e1 & He1 & Hf1 & Ht1 & H0 & Hw).
      exists (e1 :: es1). split.
      + simpl. rewrite Ht1, Hf1, (lighter_ids _ _ Hl). by split_and!.
      + by constructor. }
  intros a b Hp. destruct (H a b Hp) as (es1 & Hp1 & Hall).
  exists es1. split; [done|]. apply foldl_weight_le; [done|done|].
  apply jsle_refl. done.
Qed.

(** X13: raising weights never lowers [totalWeight]: when two graphs have
    the same nodes and edges and no edge is lighter in the second, where no
    weight is negative, the [totalWeight] that [dijkstra] returns on the
    first is at most the one it returns on the second. *)
Theorem dijkstra_totalWeight_monotone
    (g1 g2 : Graph.t) (start end_ : Z) (fuel1 fuel2 : nat)
    (r1 r2 : PathResult) :
  lighter g1 g2 →
  dijkstra fuel1 start end_ g1 = Some r1 →
  dijkstra fuel2 start end_ g2 = Some r2 →
  jsle (totalWeight r1) (totalWeight r2).
Proof.
  intros Hl Hr1 Hr2.
  destruct (dijkstra_Some _ _ _ _ _ Hr1)
    as (st1 & st01 & l1 & Hreach1 & Hex1 & HI1 & Hend1 & Hch1 & ->).
  destruct (dijkstra_Some _ _ _ _ _ Hr2)
    as (st2 & st02 & l2 & _ & _ & HI2 & Hend2 & Hch2 & ->).
  destruct (resultOf_cases _ _ _ _ _ HI2 Hend2 Hch2)
    as [(-> & _)|(es2 & Hp2 & _ & Hl2 & _ & Hnan2 & Hinf2 & ->)].
  - destruct (resultOf_cases _ _ _ _ _ HI1 Hend1 Hch1)
      as [(-> & _)|(es1 & _ & _ & _ & _ & Hnan1 & _ & ->)]; [done|].
    cbn [totalWeight noPath]. by apply jsle_Infinity.
  - assert (start ∈ ids g1) as Hs.
    { rewrite (lighter_ids _ _ Hl). apply (inv_dom_prev _ _ _ HI2).
      eapply chain_dom; [done|]. rewrite Hl2. apply elem_of_cons. by left. }
    destruct (lighter_path _ _ _ Hl _ _ Hp2) as (es1 & Hp1 & Hle).
    assert (pathWeight es1 ≠ Infinity) as Hfin1.
    { intros Heq. rewrite Heq in Hle. by apply jsle_Infinity_l in Hle. }
    destruct (exits_optimal g1 start (lighter_weighted _ _ Hl) Hs end_
                st01 st1 es1 Hend1 Hreach1 Hex1 Hp1 Hfin1) as [_ Hopt].
    specialize (Hopt es1 Hp1).
    destruct (resultOf_cases _ _ _ _ _ HI1 Hend1 Hch1)
      as [(_ & Hinf & _)|(es1' & _ & _ & _ & Hd & _ & _ & ->)].
    + rewrite Hinf in Hopt. by apply jsle_Infinity_l in Hopt.
    + rewrite Hd in Hopt. cbn [totalWeight].
      eapply jsle_trans; [exact Hopt|done].
Qed.

Lemma morning_lighter_than_rushHour : lighter morningGraph rushHourGraph.
Proof.
  split; [done|]. cbn [morningGraph rushHourGraph Graph.edges].
  repeat (constructor; [split_and!; [done|done|by vm_compute|by vm_compute]|]).
  constructor.
Qed.

Lemma dijkstra_totalWeight_monotone_witness :
  ∃ r2, dijkstra 4 1 3 rushHourGraph = Some r2 ∧
    jsle (totalWeight morningResult) (totalWeight r2).
Proof.
  destruct (dijkstra 4 1 3 rushHourGraph) as [r2|] eqn:Hr2.
  - exists r2. split; [done|].
    exact (dijkstra_totalWeight_monotone morningGraph rushHourGraph 1 3 4 4
             morningResult r2 morning_lighter_than_rushHour
             dijkstra_morning_run Hr2).
  - vm_compute in Hr2. discriminate.
Defined.

(** ** No node twice *)

(** X14: the [path] that [dijkstra] returns passes no node twice. *)
Theorem dijkstra_path_NoDup
    (g : Graph.t) (start end_ : Z) (fuel : nat) (r : PathResult) :
  dijkstra fuel start end_ g = Some r → NoDup (path r).
Proof.
  intros (st & st0 & l & _ & _ & HI & Hend & Hch & ->)%dijkstra_Some.
  destruct (resultOf_cases _ _ _ _ _ HI Hend Hch)
    as [(-> & _)|(es & _ & _ & _ & _ & _ & _ & ->)]; cbn [path noPath].
  - apply NoDup_nil_2.
  - apply NoDup_fmap_2; [by intros ?? [= ->]|]. by eapply chain_NoDup.
Qed.

Lemma dijkstra_path_NoDup_witness : NoDup (path morningResult).
Proof.
  exact (dijkstra_path_NoDup morningGraph 1 3 4 morningResult
           dijkstra_morning_run).
Defined.

(** ** Weighting, then searching *)

Lemma initEdgeWeights_ids g g' timePeriod :
  initEdgeWeights g timePeriod = Ok g' → ids g' = ids g.
Proof. intros [Hn _]%initEdgeWeights_Ok. unfold ids. by rewrite Hn. Qed.

Lemma Forall2_elem_both {A B} (P : A → B → Prop) l k x :
  Forall2 P l k → x ∈ l → ∃ y, y ∈ k ∧ P x y.
Proof.
  induction 1 as [|x' y l k Hxy _ IH]; [by intros ?%elem_of_nil|].
  intros [->|Hx]%elem_of_cons.
  - exists y. split; [|done]. apply elem_of_cons. by left.
  - destruct (IH Hx) as (y' & Hy' & HP). exists y'. split; [|done].
    apply elem_of_cons. by right.
Qed.

(** X15: the two functions in sequence: on a graph whose distances are not
    negative, for a period whose coefficients are between 0 and [2^1022]
    and that, where a flow mapping lacks it, is not the name of a member of
    [Object.prototype], when the graph that [initEdgeWeights] returns has a
    path from [start] to [end_] whose weights do not add up to [Infinity],
    [dijkstra] on that graph gives, with a fuel above the number of nodes,
    a path of that graph from [start] to [end_], with its weight as
    [totalWeight], and no path between the two weighs less. *)
Theorem dijkstra_after_initEdgeWeights
    (g g' : Graph.t) (timePeriod : string) (start end_ : Z) (fuel : nat) :
  (∀ e, e ∈ Graph.edges g → (Q2Qc 0 ≤ Edge.distance e)%Qc) →
  usablePeriod g timePeriod →
  initEdgeWeights g timePeriod = Ok g' →
  start ∈ ids g → end_ ∈ ids g →
  (∃ es0, edgePath g' start end_ es0 ∧ pathWeight es0 ≠ Infinity) →
  (length (Graph.nodes g) < fuel)%nat →
  ∃ r es,
    dijkstra fuel start end_ g' = Some r ∧
    edgePath g' start end_ es ∧
    path r = VId <$> vertices start es ∧
    totalWeight r = pathWeight es ∧
    totalWeight r ≠ Infinity ∧
    ∀ es', edgePath g' start end_ es' → jsle (pathWeight es) (pathWeight es').
Proof.
  intros Hd Hc Hg Hs Hend (es0 & Hp0 & Hfin0) Hfuel.
  assert (weighted g') as Hw.
  { intros e' He'.
    by destruct (initEdgeWeights_edge_bound _ _ _ Hd Hc Hg e' He'). }
  pose proof (initEdgeWeights_ids _ _ _ Hg) as Hids.
  rewrite <- Hids in Hs, Hend.
  assert (length (Graph.nodes g') < fuel)%nat as Hfuel'.
  { apply initEdgeWeights_Ok in Hg as [-> _]. done. }
  destruct (dijkstra_run start end_ g' Hend) as (st & l & _ & _ & Hrun).
  destruct (Hrun fuel Hfuel') as (_ & _ & Hrun').
  destruct (dijkstra_Some _ _ _ _ _ Hrun')
    as (st1 & st0 & l1 & Hreach & Hex & HI & _ & Hch & Heq).
  rewrite Hrun', Heq.
  destruct (exits_optimal g' start Hw Hs end_ st0 st1 es0 Hend Hreach Hex
              Hp0 Hfin0) as [_ Hopt].
  destruct (resultOf_cases _ _ _ _ _ HI Hend Hch)
    as [(_ & Hinf & _)|(es & Hp & _ & Hl & Hdist & _ & Hfin & Hres)].
  - specialize (Hopt es0 Hp0). rewrite Hinf in Hopt.
    by apply jsle_Infinity_l in Hopt.
  - exists (resultOf start end_ g' st1 (VId <$> l1)), es.
    rewrite Hres. cbn [path totalWeight].
    split_and!; [done|done|by rewrite Hl|done|done|].
    intros es' Hp'. specialize (Hopt es' Hp'). by rewrite Hdist in Hopt.
Qed.

Lemma dijkstra_after_initEdgeWeights_witness :
  ∃ r es,
    dijkstra 4 1 3 morningGraph = Some r ∧
    edgePath morningGraph 1 3 es ∧
    path r = VId <$> vertices 1 es ∧
    totalWeight r = pathWeight es ∧
    totalWeight r ≠ Infinity ∧
    ∀ es', edgePath morningGraph 1 3 es' →
      jsle (pathWeight es) (pathWeight es').
Proof.
  apply (dijkstra_after_initEdgeWeights demoGraph morningGraph "morning").
  - exact demoGraph_distances.
  - exact demoGraph_morning_usable.
  - exact (proj1 dijkstra_morning).
  - apply elem_of_cons. by left.
  - do 2 (apply elem_of_cons; right). apply elem_of_cons. by left.
  - exists (Graph.edges morningGraph). split; [apply morningGraph_path|].
    by rewrite morningGraph_pathWeight.
  - cbn. lia.
Defined.

(** X19: a period that is the name of a member of [Object.prototype] and
    no key of any flow mapping gives every edge the weight [NaN], and on the
    graph so weighted [dijkstra] finds no way between two different nodes:
    every result is the no-path result. *)
Theorem initEdgeWeights_inherited_period
    (g g' : Graph.t) (timePeriod : string) :
  timePeriod ∈ objectPrototypeKeys →
  (∀ e f, e ∈ Graph.edges g → Edge.flow e = Some f →
     f !! timePeriod = None) →
  initEdgeWeights g timePeriod = Ok g' →
  (∀ e', e' ∈ Graph.edges g' → Edge.weight e' = Number NaN) ∧
  ∀ start end_ fuel r, start ≠ end_ →
    dijkstra fuel start end_ g' = Some r → r = noPath.
Proof.
  intros Hkey Hnone Hg.
  assert (∀ e', e' ∈ Graph.edges g' → Edge.weight e' = Number NaN) as HNaN.
  { apply initEdgeWeights_Ok in Hg as [_ Hes]. intros e' He'.
    destruct (Forall2_elem_r _ _ _ _ Hes He') as (e & He & Hset).
    apply setWeight_Ok in Hset as (f & Hf & ->). cbn [Edge.weight].
    unfold usedFlowRate. rewrite (Hnone e f He Hf).
    by rewrite decide_True. }
  split; [done|]. intros start end_ fuel r Hne Hr.
  destruct (dijkstra_Some _ _ _ _ _ Hr)
    as (st & st0 & l & _ & _ & HI & Hend & Hch & ->).
  destruct (resultOf_cases _ _ _ _ _ HI Hend Hch)
    as [(-> & _)|(es & Hp & Hall & _)]; [done|].
  destruct es as [|e es]; [done|]. exfalso.
  destruct Hp as (He & _). apply Forall_cons in Hall as [[Hnan _] _].
  apply Hnan. unfold edgeWeight. by rewrite (HNaN e He).
Qed.

Lemma initEdgeWeights_inherited_period_witness :
  ∃ g', initEdgeWeights demoGraph "constructor" = Ok g' ∧
    (∀ e', e' ∈ Graph.edges g' → Edge.weight e' = Number NaN) ∧
    ∀ start end_ fuel r, start ≠ end_ →
      dijkstra fuel start end_ g' = Some r → r = noPath.
Proof.
  destruct (initEdgeWeights demoGraph "constructor") as [g'|] eqn:Hg.
  - exists g'. split; [done|].
    apply (initEdgeWeights_inherited_period demoGraph g' "constructor").
    + apply elem_of_cons. by left.
    + intros e f He. cbn [demoGraph Graph.edges] in He.
      apply elem_of_cons in He as [->|He];
        [|apply list_elem_of_singleton in He as ->];
        intros [= <-]; by apply lookup_singleton_ne.
    + exact Hg.
  - vm_compute in Hg. discriminate.
Defined.

(** ** What the search reads *)

Lemma initTables_sameRouting start g1 g2 :
  ids g1 = ids g2 → initTables start g1 = initTables start g2.
Proof.
  intros Hids.
  pose proof (initTables_dist start g1) as Hd1.
  pose proof (initTables_dist start g2) as Hd2.
  pose proof (initTables_prev start g1) as Hp1.
  pose proof (initTables_prev start g2) as Hp2.
  pose proof (initTables_unvisited start g1) as Hu1.
  pose proof (initTables_unvisited start g2) as Hu2.
  destruct (initTables start g1) as [d1 p1 u1].
  destruct (initTables start g2) as [d2 p2 u2]. simpl in *.
  f_equal.
  - apply map_eq. intros k. by rewrite Hd1, Hd2, Hids.
  - apply map_eq. intros k. by rewrite Hp1, Hp2, Hids.
  - by rewrite Hu1, Hu2, Hids.
Qed.

Lemma relax_sameRouting g1 g2 m st :
  sameRouting g1 g2 → relax g1 m st = relax g2 m st.
Proof.
  intros [_ Hes]. unfold relax.
  assert (∀ dp,
    foldl (relaxEdge m (unvisited st)) dp
      (filter (λ e, Edge.from e = m) (Graph.edges g1)) =
    foldl (relaxEdge m (unvisited st)) dp
      (filter (λ e, Edge.from e = m) (Graph.edges g2))) as ->; [|done].
  induction Hes as [|e1 e2 l1 l2 (Hf & Ht & Hw) _ IH]; intros dp; [done|].
  rewrite !filter_cons. rewrite Hf.
  destruct (decide (Edge.from e2 = m)); [|apply IH]. simpl.
  rewrite <- IH. f_equal. unfold relaxEdge, edgeWeight. by rewrite Ht, Hw.
Qed.

Lemma search_sameRouting g1 g2 fuel end_ st :
  sameRouting g1 g2 → search fuel end_ g1 st = search fuel end_ g2 st.
Proof.
  intros Hg. revert st. induction fuel as [|fuel IH]; intros st; [done|].
  simpl. destruct (unvisited st); [done|].
  destruct (selectMin _ _) as [m|]; [|done].
  destruct (isInfinity _); [done|]. case_decide; [done|].
  by rewrite (relax_sameRouting g1 g2 m _ Hg), IH.
Qed.

(** X16: the route does not depend on what the search never reads: two
    graphs that differ only in the names of their nodes and in the
    distances and flow mappings of their edges get the same [path] and the
    same [totalWeight] from [dijkstra]. *)
Theorem dijkstra_route_ignores_distance_and_flow
    (g1 g2 : Graph.t) (start end_ : Z) (fuel : nat) :
  sameRouting g1 g2 →
  path <$> dijkstra fuel start end_ g1 = path <$> dijkstra fuel start end_ g2 ∧
  totalWeight <$> dijkstra fuel start end_ g1 =
    totalWeight <$> dijkstra fuel start end_ g2.
Proof.
  intros Hg. unfold dijkstra.
  rewrite (initTables_sameRouting start g1 g2 (proj1 Hg)).
  rewrite (search_sameRouting g1 g2 _ _ _ Hg).
  destruct (search _ _ _ _) as [st|]; [|done]. simpl.
  destruct (backtrack _ _ _ _) as [l|]; [|done]. simpl.
  unfold resultOf. by destruct (negb _).
Qed.

Lemma dijkstra_route_ignores_distance_and_flow_witness :
  path <$> dijkstra 4 1 3 morningGraph = path <$> dijkstra 4 1 3 renamedGraph ∧
  totalWeight <$> dijkstra 4 1 3 morningGraph =
    totalWeight <$> dijkstra 4 1 3 renamedGraph.
Proof.
  apply (dijkstra_route_ignores_distance_and_flow morningGraph renamedGraph).
  split; [done|]. cbn [morningGraph renamedGraph Graph.edges].
  repeat constructor.
Defined.

(** ** Every step of the path adds a distance *)

Lemma sumDistances_first g es :
  ∀ a b acc, edgePath g a b es →
    ∃ es', edgePath g a b es' ∧ vertices a es' = vertices a es ∧
      sumDistances g (VId <$> vertices a es) acc =
      foldl (λ acc e, jsadd acc (Num (Edge.distance e))) acc es'.
Proof.
  induction es as [|e es IH]; intros a b acc.
  - intros Hab. by exists [].
  - intros (He & Hf & Hto & Hp).
    change (VId <$> vertices a (e :: es))
      with (VId a :: (VId <$> vertices (Edge.to e) es)).
    rewrite sumDistances_step.
    destruct (findEdge_Some g a (Edge.to e) e He Hf eq_refl)
      as (e' & -> & He' & Hf' & Ht').
    destruct (IH _ b (jsadd acc (Num (Edge.distance e'))) Hp)
      as (es' & Hp' & Hv & ->).
    exists (e' :: es'). split_and!.
    + simpl. rewrite Ht'. by split_and!.
    + unfold vertices in *. simpl. rewrite Ht'. f_equal.
      by injection Hv.
    + done.
Qed.

(** X17: the loop that adds up [totalDistance] finds an edge at every step:
    whenever [dijkstra] returns a path, its [totalDistance] is the distance
    of a path of the graph through the nodes of [path], be it along other
    edges than the ones that [totalWeight] adds up. *)
Theorem dijkstra_totalDistance_of_a_path
    (g : Graph.t) (start end_ : Z) (fuel : nat) (r : PathResult) :
  dijkstra fuel start end_ g = Some r →
  r = noPath ∨
  ∃ es, edgePath g start end_ es ∧
    path r = VId <$> vertices start es ∧
    totalDistance r = pathDistance es.
Proof.
  intros (st & st0 & l & _ & _ & HI & Hend & Hch & ->)%dijkstra_Some.
  destruct (resultOf_cases _ _ _ _ _ HI Hend Hch)
    as [(-> & _)|(es & Hp & _ & -> & _ & _ & _ & ->)]; [by left|].
  right. destruct (sumDistances_first g es start end_ (Num (Q2Qc 0)) Hp)
    as (es' & Hp' & Hv & Hsum).
  exists es'. cbn [path totalDistance]. split_and!; [done|by rewrite Hv|].
  by rewrite Hsum.
Qed.

Lemma dijkstra_totalDistance_of_a_path_witness :
  morningResult = noPath ∨
  ∃ es, edgePath morningGraph 1 3 es ∧
    path morningResult = VId <$> vertices 1 es ∧
    totalDistance morningResult = pathDistance es.
Proof.
  exact (dijkstra_totalDistance_of_a_path morningGraph 1 3 4 morningResult
           dijkstra_morning_run).
Defined.

(** ** One call after another, on the store *)

Lemma initEdgeWeightsAt_reads h g timePeriod h' updatedGraph :
  initEdgeWeightsAt h g timePeriod = Some (h', Ok updatedGraph) →
  is_Some (readGraph h' updatedGraph).
Proof.
  intros Hrun.
  destruct (readGraph h g) as [v|] eqn:Hv;
    [|unfold initEdgeWeightsAt in Hrun; by rewrite Hv in Hrun].
  destruct (initEdgeWeightsAt_refines h g timePeriod v Hv)
    as (h1 & r & Hrun' & Hr).
  rewrite Hrun in Hrun'. injection Hrun' as <- <-.
  destruct Hr as (v' & _ & Hread). eauto.
Qed.

(** X18: a graph that [initEdgeWeights] has returned is its caller's: a
    later call, on whichever graph of the store and be it on that very
    graph, leaves it as it reads, and what the later call returns is
    another object. *)
Theorem initEdgeWeights_result_is_kept
    (h h1 h2 : gmap loc obj) (g g' updatedGraph : loc) (p1 p2 : string)
    (r : result loc) :
  initEdgeWeightsAt h g p1 = Some (h1, Ok updatedGraph) →
  initEdgeWeightsAt h1 g' p2 = Some (h2, r) →
  is_Some (readGraph h1 updatedGraph) ∧
  readGraph h2 updatedGraph = readGraph h1 updatedGraph ∧
  r ≠ Ok updatedGraph.
Proof.
  intros [v Hv]%initEdgeWeightsAt_reads H2.
  destruct (initEdgeWeightsAt_extends _ _ _ _ _ H2) as [Hext Hnew].
  split_and!; [by eexists| |].
  - rewrite Hv. eapply readGraph_mono; [apply Hext|done].
  - intros ->. apply (Hnew updatedGraph eq_refl).
    apply elem_of_dom. unfold readGraph in Hv.
    destruct (h1 !! updatedGraph); [by eexists|done].
Qed.

Lemma initEdgeWeights_result_is_kept_witness :
  ∃ h1 updatedGraph h2 r,
    initEdgeWeightsAt demoStore demoLoc "morning" = Some (h1, Ok updatedGraph) ∧
    initEdgeWeightsAt h1 updatedGraph "noon" = Some (h2, r) ∧
    readGraph h2 updatedGraph = readGraph h1 updatedGraph ∧
    r ≠ Ok updatedGraph.
Proof.
  destruct (initEdgeWeightsAt_refines demoStore demoLoc "morning" demoGraph
              demoStore_reads) as (h1 & r1 & Hrun1 & Hr1).
  destruct r1 as [g1|e].
  - destruct Hr1 as (v' & _ & Hread).
    destruct (initEdgeWeightsAt_refines h1 g1 "noon" v' Hread)
      as (h2 & r2 & Hrun2 & _).
    exists h1, g1, h2, r2.
    exact (conj Hrun1 (conj Hrun2 (proj2
      (initEdgeWeights_result_is_kept demoStore h1 h2 demoLoc g1 g1
         "morning" "noon" r2 Hrun1 Hrun2)))).
  - exfalso. rewrite (proj1 dijkstra_morning) in Hr1. discriminate.
Defined.
